(** * record_dataset.py: a shallow embedding of the multi-camera recorder

    The recorder of [src/record_dataset.py] is embedded as a state-and-error
    monad over a [World] (file system, effect trace, count of observations
    of the host).  Everything the program cannot decide by itself -- whether
    a capture device opens, what a read returns, what the wall clock shows,
    what [int()] makes of a string -- is drawn from a [Host] oracle.

    Python floats ([args.duration], [time.time()]) are represented by the
    rationals they denote, and the results of float arithmetic are rounded
    to binary64 where the recorder computes its frame budget and its
    sleeps; integers by [Z]; dictionaries, whose insertion order the code
    relies on, by association lists with unique keys.

    The device probe of [src/find_camera.py] follows the recorder's
    definitions; it draws from the same [Host]. *)

From Stdlib Require Import ZArith QArith Qround String Ascii List Lia.
From Stdlib Require Import SpecFloat.
From Stdlib Require Import DecimalString DecimalNat.
From stdpp Require Import base gmap list strings.
Import ListNotations.
Open Scope Z_scope.
#[local] Set Warnings "-register-all".

(** ** Values *)

Inductive Json :=
| JInt (n : Z)
| JStr (s : string)
| JBool (b : bool)
| JList (l : list Json)
| JObj (fields : list (string * Json)).

(** A frame as [cv2] delivers it: a 3-dimensional array; only its shape is
    inspected by the recorder, the pixels are carried along. *)
Record Frame := { shape : Z * Z * Z; pixels : nat }.

(** One entry of the row buffer: [{"timestamp": ..., "frame": ...}]. *)
Record Row := { timestamp : Q; frame : Z }.

(** Paths are kept relative to [args.out_dir], one string per component. *)
Abbreviation Path := (list string).

(** What a file holds, in the order it was written. *)
Inductive Item :=
| Doc (j : Json)
| Table (rows : list Row)
| Video (fps : Z) (size : Z * Z) (frames : list Frame).

Inductive Exn :=
| ValueError_camera_format (spec : string)
| ValueError_int (literal : string)
| ValueError_unpack
| ValueError_no_camera
| RuntimeError_open (index : Z)
| RuntimeError_not_opened
| KeyError (key : string)
| AttributeError_None (attr : string)
| ZeroDivisionError.

Inductive Msg :=
| MsgStart (ep_name : string)
| MsgReadFailed (name : string)
| MsgMinFrames (frame_count min_frames : Z)
| MsgDone (ep_name : string) (frame_count : Z).

(** Effects, in the order the program performs them. *)
Inductive Event :=
| EvMkdir (p : Path)
| EvWrite (p : Path)
| EvAppend (p : Path)
| EvCapOpen (index : Z) (ok : bool)
| EvCapSet (index width height : Z)
| EvCapRead (index : Z) (ok : bool)
| EvCapRelease (index : Z)
| EvVwOpen (p : Path)
| EvVwWrite (p : Path)
| EvVwRelease (p : Path)
| EvSleep (dt : Q)
| EvPrint (m : Msg).

(** ** The host and the world *)

(** The host answers by the number of observations made so far, so that an
    answer may depend on everything that happened before it. *)
Record Host := {
  py_int : string -> option Z;
  isOpened : nat -> Z -> bool;
  cap_read : nat -> Z -> option Frame;
  time_time : nat -> Q
}.

Record World := {
  files : gmap Path (list Item);
  dirs : gset Path;
  trace : list Event;
  calls : nat
}.

Definition set_files (f : gmap Path (list Item) -> gmap Path (list Item)) (w : World) : World :=
  {| files := f (files w); dirs := dirs w; trace := trace w; calls := calls w |}.

Definition set_dirs (f : gset Path -> gset Path) (w : World) : World :=
  {| files := files w; dirs := f (dirs w); trace := trace w; calls := calls w |}.

Definition log (e : Event) (w : World) : World :=
  {| files := files w; dirs := dirs w; trace := trace w ++ [e]; calls := calls w |}.

Definition tick_calls (w : World) : World :=
  {| files := files w; dirs := dirs w; trace := trace w; calls := S (calls w) |}.

(** ** The monad: state, exceptions, and a loop that is still running *)

Inductive Res (A : Type) :=
| Ok (a : A)
| Raise (e : Exn)
| Running.
Arguments Ok {A} a.
Arguments Raise {A} e.
Arguments Running {A}.

Definition M (A : Type) := World -> Res A * World.

Definition ret {A} (a : A) : M A := fun w => (Ok a, w).
Definition raise {A} (e : Exn) : M A := fun w => (Raise e, w).
Definition bind {A B} (m : M A) (k : A -> M B) : M B :=
  fun w => match m w with
           | (Ok a, w') => k a w'
           | (Raise e, w') => (Raise e, w')
           | (Running, w') => (Running, w')
           end.

Declare Scope py_scope.
Delimit Scope py_scope with py.
Notation "x <- m ;; k" := (bind m (fun x => k))
  (at level 100, m at next level, right associativity) : py_scope.
Notation "m ;; k" := (bind m (fun _ => k))
  (at level 100, right associativity) : py_scope.
Open Scope py_scope.

(** [try: body finally: cleanup].  A body that is still running has not
    reached its [finally]. *)
Definition try_finally {A} (body : M A) (cleanup : M unit) : M A :=
  fun w => match body w with
           | (Ok a, w') => match cleanup w' with
                           | (Ok _, w'') => (Ok a, w'')
                           | (Raise e, w'') => (Raise e, w'')
                           | (Running, w'') => (Running, w'')
                           end
           | (Raise e, w') => match cleanup w' with
                              | (Ok _, w'') => (Raise e, w'')
                              | (Raise e', w'') => (Raise e', w'')
                              | (Running, w'') => (Running, w'')
                              end
           | (Running, w') => (Running, w')
           end.

Definition emit (e : Event) : M unit := fun w => (Ok tt, log e w).
Definition observe {A} (f : nat -> A) : M A := fun w => (Ok (f (calls w)), tick_calls w).
Definition update_files (f : gmap Path (list Item) -> gmap Path (list Item)) : M unit :=
  fun w => (Ok tt, set_files f w).

Fixpoint for_each {A} (f : A -> M unit) (l : list A) : M unit :=
  match l with
  | [] => ret tt
  | x :: l' => f x ;; for_each f l'
  end.

(** ** Python dictionaries: insertion-ordered, unique keys *)

Abbreviation dict V := (list (string * V)).

Fixpoint dict_set {V} (k : string) (v : V) (d : dict V) : dict V :=
  match d with
  | [] => [(k, v)]
  | (k', v') :: d' =>
      if decide (k' = k) then (k, v) :: d' else (k', v') :: dict_set k v d'
  end.

Fixpoint dict_get {V} (k : string) (d : dict V) : option V :=
  match d with
  | [] => None
  | (k', v') :: d' => if decide (k' = k) then Some v' else dict_get k d'
  end.

Definition keys {V} (d : dict V) : list string := fst <$> d.
Definition values {V} (d : dict V) : list V := snd <$> d.

(** ** Strings *)

(** ["=" in spec] *)
Fixpoint str_contains (c : ascii) (s : string) : bool :=
  match s with
  | EmptyString => false
  | String a s' => if Ascii.eqb a c then true else str_contains c s'
  end.

(** [spec.split("=", 1)] *)
Fixpoint str_split1 (c : ascii) (s : string) : list string :=
  match s with
  | EmptyString => [EmptyString]
  | String a s' =>
      if Ascii.eqb a c then [EmptyString; s']
      else match str_split1 c s' with
           | l :: r => String a l :: r
           | [] => []
           end
  end.

Fixpoint zeros (n : nat) (s : string) : string :=
  match n with
  | O => s
  | S n' => String "0" (zeros n' s)
  end.

Definition zfill (width : nat) (s : string) : string :=
  zeros (width - String.length s) s.

(** [f"episode_{ep_idx:06d}"], for the indices [range] produces. *)
Definition _make_episode_name (ep_idx : nat) : string :=
  "episode_" +:+ zfill 6 (NilEmpty.string_of_uint (Nat.to_uint ep_idx)).

(** ** Camera readers *)

Record OpenCVCameraReader := {
  index : Z;
  width : Z;
  height : Z;
  cap : option Z
}.

Definition OpenCVCameraReader_init (cam_index width height : Z) : OpenCVCameraReader :=
  {| index := cam_index; width := width; height := height; cap := None |}.

(** [open]: the capture object is stored before [isOpened] is asked. *)
Definition reader_open (h : Host) (r : OpenCVCameraReader) : M OpenCVCameraReader :=
  ok <- observe (fun k => isOpened h k (index r)) ;;
  emit (EvCapOpen (index r) ok) ;;
  if negb ok then raise (RuntimeError_open (index r))
  else
    emit (EvCapSet (index r) (width r) (height r)) ;;
    ret {| index := index r; width := width r; height := height r;
           cap := Some (index r) |}.

Definition reader_read (h : Host) (r : OpenCVCameraReader) : M (option Frame) :=
  match cap r with
  | None => raise RuntimeError_not_opened
  | Some dev =>
      x <- observe (fun k => cap_read h k dev) ;;
      emit (EvCapRead dev (bool_decide (is_Some x))) ;;
      ret x
  end.

Definition reader_release (r : OpenCVCameraReader) : M unit :=
  match cap r with
  | None => ret tt
  | Some dev => emit (EvCapRelease dev)
  end.

(** ** Video writers *)

(** A [cv2.VideoWriter]: where it writes, the frame rate and the frame size
    (width, height) it was opened with, and the frames that were passed to
    its [write], in order. *)
Record VideoWriter := {
  vw_path : Path;
  vw_fps : Z;
  vw_size : Z * Z;
  vw_frames : list Frame
}.

(** [write] stores a frame only if its size is the writer's; a frame of
    another size is dropped without an error. *)
Definition fits (size : Z * Z) (f : Frame) : bool :=
  let '(height, width, _) := shape f in
  bool_decide ((width, height) = size).

(** What the video file holds: of the frames passed to [write], those that
    were stored. *)
Definition vw_file (vw : VideoWriter) : list Item :=
  [Video (vw_fps vw) (vw_size vw) (List.filter (fits (vw_size vw)) (vw_frames vw))].

Definition _init_video_writer (path : Path) (fps : Z) (frame_shape : Z * Z * Z)
  : M VideoWriter :=
  let '(height, width, _) := frame_shape in
  let vw := {| vw_path := path; vw_fps := fps; vw_size := (width, height);
               vw_frames := [] |} in
  emit (EvVwOpen path) ;;
  update_files (insert path (vw_file vw)) ;;
  ret vw.

(** [vw.write(frame)]: the call is recorded with its frame, whatever the
    frame's size ([vw_file] tells what reaches the file). *)
Definition vw_write (vw : VideoWriter) (f : Frame) : M VideoWriter :=
  emit (EvVwWrite (vw_path vw)) ;;
  ret {| vw_path := vw_path vw; vw_fps := vw_fps vw; vw_size := vw_size vw;
         vw_frames := vw_frames vw ++ [f] |}.

Definition vw_release (vw : VideoWriter) : M unit :=
  emit (EvVwRelease (vw_path vw)) ;;
  update_files (insert (vw_path vw) (vw_file vw)).

(** ** Dataset files *)

Definition meta_dir : Path := ["meta"].
Definition data_dir : Path := ["data"; "chunk-000"].
Definition video_dir_root : Path := ["videos"; "chunk-000"].
Definition video_dir (name : string) : Path :=
  video_dir_root ++ ["observation.images." +:+ name].

Definition info_json : Path := meta_dir ++ ["info.json"].
Definition tasks_jsonl : Path := meta_dir ++ ["tasks.jsonl"].
Definition episodes_jsonl : Path := meta_dir ++ ["episodes.jsonl"].
Definition episodes_stats_jsonl : Path := meta_dir ++ ["episodes_stats.jsonl"].
Definition parquet_path (ep_name : string) : Path := data_dir ++ [ep_name +:+ ".parquet"].
Definition video_path (cam_name ep_name : string) : Path :=
  video_dir cam_name ++ [ep_name +:+ ".mp4"].

(** The non-empty prefixes of a path: what [mkdir(parents=True)] creates. *)
Fixpoint ancestors (p : Path) : list Path :=
  match p with
  | [] => []
  | c :: p' => [c] :: map (cons c) (ancestors p')
  end.

(** [d.mkdir(parents=True, exist_ok=True)] *)
Definition mkdir (d : Path) : M unit :=
  emit (EvMkdir d) ;;
  fun w => (Ok tt, set_dirs (fun ds => ds ∪ list_to_set (ancestors d)) w).

Definition info (fps : Z) : Json :=
  JObj [("fps", JInt fps); ("video", JBool true)].

(** Mode ["w"]: whatever the file held is gone. *)
Definition _write_info_json (meta_dir : Path) (fps : Z) : M unit :=
  emit (EvWrite (meta_dir ++ ["info.json"])) ;;
  update_files (insert (meta_dir ++ ["info.json"]) [Doc (info fps)]).

Definition append_item (path : Path) (x : Item) (fs : gmap Path (list Item))
  : gmap Path (list Item) :=
  <[path := default [] (fs !! path) ++ [x]]> fs.

(** Mode ["a"]: the file is created when missing, and written at its end. *)
Definition _append_jsonl (path : Path) (data : Json) : M unit :=
  emit (EvAppend path) ;;
  update_files (append_item path (Doc data)).

Definition path_exists (path : Path) : M bool :=
  fun w => (Ok (bool_decide (is_Some (files w !! path))), w).

Definition write_table (path : Path) (rows : list Row) : M unit :=
  emit (EvWrite path) ;;
  update_files (insert path [Table rows]).

(** ** The recorder *)

Record Args := {
  out_dir : string;
  episodes : Z;
  duration : Q;
  min_frames : Z;
  fps : Z;
  camera : option (list string);
  arg_width : Z;
  arg_height : Z;
  task : string
}.

(** ** Float arithmetic

    [fl x] is the binary64 float nearest to the rational [x], ties to even,
    with gradual underflow, and an infinity beyond the largest double: what
    IEEE 754 [+], [-] and [*] return for the exact result [x], and what
    Python returns for [int / int] and [float(int)].  The rounding is
    [SpecFloat]'s: the quotient of numerator and denominator, rounded
    once. *)
Definition fl (x : Q) : spec_float :=
  match Qnum x with
  | Z0 => S754_zero false
  | Zpos n => SFdiv 53 1024 (S754_finite false n 0) (S754_finite false (Qden x) 0)
  | Zneg n => SFdiv 53 1024 (S754_finite true n 0) (S754_finite false (Qden x) 0)
  end.

Definition double_value (f : spec_float) : option Q :=
  match f with
  | S754_zero _ => Some 0%Q
  | S754_finite s m e => Some (inject_Z (cond_Zopp s (Zpos m)) * 2 ^ e)%Q
  | _ => None
  end.

(** The exact result [x] is beyond the doubles. *)
Definition overflows (x : Q) : bool :=
  match double_value (fl x) with Some _ => false | None => true end.

(** The float that an operation with the exact result [x] returns.  Where
    the float is an infinity the rational is kept: the recorder is not
    followed through such a result (see [budget_in_range] and
    [pass_in_range]). *)
Definition round_double (x : Q) : Q := default x (double_value (fl x)).

(** [math.ceil(args.duration * args.fps)]: [args.fps], an [int], is
    converted to a float, the product is rounded to a float, and
    [math.ceil] of a finite float is its exact ceiling. *)
Definition max_frames (args : Args) : Z :=
  Qceiling (round_double (duration args * round_double (inject_Z (fps args)))).

(** The arguments for which line 150 computes that number: a frame rate and
    a product of at most [2^53] in size.  Beyond the doubles the conversion
    of [args.fps], or [math.ceil] of the infinite product, raises
    [OverflowError]; and the default duration, the [int] 10 that [argparse]
    leaves unconverted, is multiplied exactly, which is the float product
    as long as that is an integer of at most [2^53].  (No [Args] holds a
    duration [nan] or [inf].) *)
Definition budget_in_range (args : Args) : Prop :=
  - 2 ^ 53 <= fps args <= 2 ^ 53 /\
  (- inject_Z (2 ^ 53) <= duration args * inject_Z (fps args) <= inject_Z (2 ^ 53))%Q.

(** [--duration d --fps f], the other arguments as in [args]. *)
Definition with_budget (d : Q) (f : Z) (args : Args) : Args :=
  {| out_dir := out_dir args; episodes := episodes args; duration := d;
     min_frames := min_frames args; fps := f; camera := camera args;
     arg_width := arg_width args; arg_height := arg_height args; task := task args |}.

(** The loop over [args.camera] that fills [cam_specs]. *)
Fixpoint parse_specs (h : Host) (specs : list string) (cam_specs : dict Z)
  : M (dict Z) :=
  match specs with
  | [] => ret cam_specs
  | spec :: specs' =>
      if negb (str_contains "=" spec) then raise (ValueError_camera_format spec)
      else
        match str_split1 "=" spec with
        | [name; idx] =>
            match py_int h idx with
            | None => raise (ValueError_int idx)
            | Some i => parse_specs h specs' (dict_set name i cam_specs)
            end
        | _ => raise ValueError_unpack
        end
  end.

Definition parse_cameras (h : Host) (args : Args) : M (dict Z) :=
  cam_specs <- match camera args with
               | None => ret [("front", 0)]
               | Some specs => parse_specs h specs []
               end ;;
  if (length cam_specs =? 0)%nat then raise ValueError_no_camera
  else ret cam_specs.

(** The loop that creates and opens the cameras; it runs before the [try]. *)
Fixpoint open_cameras (h : Host) (args : Args) (cam_specs : dict Z)
  (cam_readers : dict OpenCVCameraReader) : M (dict OpenCVCameraReader) :=
  match cam_specs with
  | [] => ret cam_readers
  | (name, idx) :: rest =>
      reader <- reader_open h (OpenCVCameraReader_init idx (arg_width args) (arg_height args)) ;;
      open_cameras h args rest (dict_set name reader cam_readers)
  end.

(** The state one episode carries from tick to tick. *)
Record Episode := {
  rows : list Row;
  vw_writers : dict (option VideoWriter);
  frame_count : Z
}.

(** How one pass through the body of the [while] ends. *)
Inductive Flow :=
| FlowContinue
| FlowBreak
| FlowNext.

(** Reading one frame from every camera, stopping at the first failure. *)
Fixpoint read_all (h : Host) (cam_readers : dict OpenCVCameraReader)
  (frames : list Frame) : M (bool * list Frame) :=
  match cam_readers with
  | [] => ret (true, frames)
  | (name, reader) :: rest =>
      x <- reader_read h reader ;;
      match x with
      | None => emit (EvPrint (MsgReadFailed name)) ;; ret (false, frames)
      | Some f => read_all h rest (frames ++ [f])
      end
  end.

Definition any_None {V} (d : dict (option V)) : bool :=
  existsb (fun kv => match snd kv with None => true | Some _ => false end) d.

Fixpoint init_writers (args : Args) (ep_name : string)
  (pairs : list (string * Frame)) (vws : dict (option VideoWriter))
  : M (dict (option VideoWriter)) :=
  match pairs with
  | [] => ret vws
  | (cam_name, f) :: rest =>
      vw <- _init_video_writer (video_path cam_name ep_name) (fps args) (shape f) ;;
      init_writers args ep_name rest (dict_set cam_name (Some vw) vws)
  end.

Fixpoint write_frames (pairs : list (string * Frame))
  (vws : dict (option VideoWriter)) : M (dict (option VideoWriter)) :=
  match pairs with
  | [] => ret vws
  | (cam_name, f) :: rest =>
      match dict_get cam_name vws with
      | None => raise (KeyError cam_name)
      | Some None => raise (AttributeError_None "write")
      | Some (Some vw) =>
          vw' <- vw_write vw f ;;
          write_frames rest (dict_set cam_name (Some vw') vws)
      end
  end.

Definition Qpos (q : Q) : bool := negb (Qle_bool q 0).

(** The loop body from the initialisation of the video writers on: what a
    tick does once every camera has delivered its frame.  The sleep [dt] is
    computed in floats, every operation rounded.  The timestamp is the
    exact difference of two readings of the clock: that is the float
    difference for readings of [time.time()], which lie within a factor of
    two of each other. *)
Definition store_frames (h : Host) (args : Args) (cam_specs : dict Z)
  (ep_name : string) (start_t loop_start : Q) (frames : list Frame)
  (st : Episode) : M (Flow * Episode) :=
  vws <- (if any_None (vw_writers st)
          then init_writers args ep_name (zip (keys cam_specs) frames) (vw_writers st)
          else ret (vw_writers st)) ;;
  vws <- write_frames (zip (keys cam_specs) frames) vws ;;
  now <- observe (time_time h) ;;
  let st' := {| rows := rows st ++ [{| timestamp := (now - start_t)%Q;
                                       frame := frame_count st |}];
                vw_writers := vws;
                frame_count := frame_count st + 1 |} in
  if min_frames args <=? frame_count st' then
    emit (EvPrint (MsgMinFrames (frame_count st') (min_frames args))) ;;
    ret (FlowBreak, st')
  else if fps args =? 0 then raise ZeroDivisionError
  else
    now' <- observe (time_time h) ;;
    let dt := round_double (round_double (1 / inject_Z (fps args))
                            - round_double (now' - loop_start))%Q in
    (if Qpos dt then emit (EvSleep dt) else ret tt) ;;
    ret (FlowNext, st').

(** The body of [while frame_count < max_frames]. *)
Definition tick (h : Host) (args : Args) (cam_specs : dict Z)
  (cam_readers : dict OpenCVCameraReader) (ep_name : string) (start_t : Q)
  (st : Episode) : M (Flow * Episode) :=
  loop_start <- observe (time_time h) ;;
  r <- read_all h cam_readers [] ;;
  let '(success, frames) := r in
  if negb success then ret (FlowContinue, st)
  else store_frames h args cam_specs ep_name start_t loop_start frames st.

(** The [while] loop, for at most [fuel] passes through its body: a loop
    that has not left by then is [Running]. *)
Fixpoint episode_loop (fuel : nat) (h : Host) (args : Args) (cam_specs : dict Z)
  (cam_readers : dict OpenCVCameraReader) (ep_name : string) (start_t : Q)
  (st : Episode) : M Episode :=
  if frame_count st <? max_frames args then
    match fuel with
    | O => fun w => (Running, w)
    | S fuel' =>
        r <- tick h args cam_specs cam_readers ep_name start_t st ;;
        match r with
        | (FlowBreak, st') => ret st'
        | (_, st') => episode_loop fuel' h args cam_specs cam_readers ep_name start_t st'
        end
    end
  else ret st.

Definition release_writer (vw : option VideoWriter) : M unit :=
  match vw with
  | None => raise (AttributeError_None "release")
  | Some vw => vw_release vw
  end.

Definition episode_record (ep : nat) (frame_count : Z) : Json :=
  JObj [("episode_index", JInt (Z.of_nat ep));
        ("episode_length", JInt frame_count);
        ("tasks", JList [JInt 0])].

Definition episode_stats (ep : nat) (frame_count : Z) : Json :=
  JObj [("episode_index", JInt (Z.of_nat ep));
        ("stats", JObj [("length", JInt frame_count)])].

Definition new_episode (cam_specs : dict Z) : Episode :=
  {| rows := []; vw_writers := (fun name => (name, None)) <$> keys cam_specs;
     frame_count := 0 |}.

(** The body of [for ep in range(args.episodes)]. *)
Definition run_episode (fuel : nat) (h : Host) (args : Args) (cam_specs : dict Z)
  (cam_readers : dict OpenCVCameraReader) (ep : nat) : M unit :=
  let ep_name := _make_episode_name ep in
  emit (EvPrint (MsgStart ep_name)) ;;
  start_t <- observe (time_time h) ;;
  st <- episode_loop fuel h args cam_specs cam_readers ep_name start_t
          (new_episode cam_specs) ;;
  for_each release_writer (values (vw_writers st)) ;;
  write_table (parquet_path ep_name) (rows st) ;;
  _append_jsonl (meta_dir ++ ["episodes.jsonl"]) (episode_record ep (frame_count st)) ;;
  _append_jsonl (meta_dir ++ ["episodes_stats.jsonl"]) (episode_stats ep (frame_count st)) ;;
  emit (EvPrint (MsgDone ep_name (frame_count st))).

Definition task_record (args : Args) : Json :=
  JObj [("task_index", JInt 0); ("task", JStr (task args))].

(** Everything between the parsing of the camera arguments and the opening
    of the first camera. *)
Definition prepare_output (args : Args) (cam_specs : dict Z) : M unit :=
  let video_dirs := video_dir <$> keys cam_specs in
  for_each mkdir (meta_dir :: data_dir :: video_dirs) ;;
  _write_info_json meta_dir (fps args) ;;
  present <- path_exists (meta_dir ++ ["tasks.jsonl"]) ;;
  (if negb present then _append_jsonl (meta_dir ++ ["tasks.jsonl"]) (task_record args)
   else ret tt) ;;
  if (length cam_specs =? 0)%nat then raise ValueError_no_camera else ret tt.

Definition record_dataset (fuel : nat) (h : Host) (args : Args) : M unit :=
  cam_specs <- parse_cameras h args ;;
  prepare_output args cam_specs ;;
  cam_readers <- open_cameras h args cam_specs [] ;;
  try_finally
    (for_each (run_episode fuel h args cam_specs cam_readers)
       (seq 0 (Z.to_nat (episodes args))))
    (for_each reader_release (values cam_readers)).


(** * Specification vocabulary *)

(** A computation keeps a relation between the world it starts in and the
    world it leaves, and raises exceptions in [X] only. *)
Definition preserves (R : World -> World -> Prop) (X : Exn -> Prop) {A} (m : M A)
  : Prop :=
  forall w r w', m w = (r, w') -> R w w' /\ forall e, r = Raise e -> X e.

Definition setup_exn (e : Exn) : Prop := e = ValueError_no_camera.

Definition opening_exn (e : Exn) : Prop := exists i, e = RuntimeError_open i.

Definition recording_exn (e : Exn) : Prop :=
  match e with
  | RuntimeError_not_opened | KeyError _ | AttributeError_None _
  | ZeroDivisionError => True
  | _ => False
  end.

(** The exceptions that report a bad configuration (all are [ValueError]s
    in the source). *)
Definition config_error (e : Exn) : Prop :=
  match e with
  | ValueError_camera_format _ | ValueError_int _
  | ValueError_unpack | ValueError_no_camera => True
  | _ => False
  end.

(** ** Concrete hosts, worlds and arguments *)

(** [int()] on plain decimal literals. *)
Definition int_of_decimal (s : string) : option Z :=
  Z.of_int <$> NilZero.int_of_string s.

Definition bgr_frame : Frame := {| shape := (480, 640, 3); pixels := 0 |}.

(** Every device opens and delivers; the clock advances by 10 ms per look. *)
Definition steady_host : Host :=
  {| py_int := int_of_decimal;
     isOpened := fun _ _ => true;
     cap_read := fun _ _ => Some bgr_frame;
     time_time := fun k => (Z.of_nat k # 100)%Q |}.

(** Every device opens, and no read ever delivers a frame. *)
Definition dead_host : Host :=
  {| py_int := int_of_decimal;
     isOpened := fun _ _ => true;
     cap_read := fun _ _ => None;
     time_time := fun k => (Z.of_nat k # 100)%Q |}.

Definition empty_world : World :=
  {| files := ∅; dirs := ∅; trace := []; calls := 0 |}.

(** The defaults of [parse_args]. *)
Definition default_args : Args :=
  {| out_dir := "out"; episodes := 10; duration := 10; min_frames := 50;
     fps := 30; camera := None; arg_width := 640; arg_height := 480;
     task := "Custom task" |}.

Definition with_camera (specs : list string) (args : Args) : Args :=
  {| out_dir := out_dir args; episodes := episodes args; duration := duration args;
     min_frames := min_frames args; fps := fps args; camera := Some specs;
     arg_width := arg_width args; arg_height := arg_height args; task := task args |}.

(** ** Footprints: which events and file updates each phase performs *)

(** Preparing the output directory. *)
Definition setup_event (e : Event) : Prop :=
  match e with
  | EvMkdir _ => True
  | EvWrite p => p = info_json
  | EvAppend p => p = tasks_jsonl
  | _ => False
  end.

Inductive setup_update : (gmap Path (list Item) -> gmap Path (list Item)) -> Prop :=
| setup_info v : setup_update (insert info_json v)
| setup_tasks x : setup_update (append_item tasks_jsonl x).

(** Opening the cameras. *)
Definition opening_event (e : Event) : Prop :=
  match e with
  | EvCapOpen _ _ | EvCapSet _ _ _ => True
  | _ => False
  end.

(** Reading the cameras within a tick. *)
Definition reading_event (e : Event) : Prop :=
  match e with
  | EvCapRead _ _ | EvPrint (MsgReadFailed _) => True
  | _ => False
  end.

(** Everything else between the opening of the cameras and the end of the
    run: writing videos, pacing, the tables and logs, the final release. *)
Definition storing_event (e : Event) : Prop :=
  match e with
  | EvCapRelease _ | EvVwOpen _ | EvVwWrite _ | EvVwRelease _ | EvSleep _ => True
  | EvPrint m => match m with MsgReadFailed _ => False | _ => True end
  | EvWrite p => exists ep_name, p = parquet_path ep_name
  | EvAppend p => p = episodes_jsonl \/ p = episodes_stats_jsonl
  | _ => False
  end.

Definition recording_event (e : Event) : Prop :=
  reading_event e \/ storing_event e.

Inductive recording_update : (gmap Path (list Item) -> gmap Path (list Item)) -> Prop :=
| recording_video cam_name ep_name v :
    recording_update (insert (video_path cam_name ep_name) v)
| recording_table ep_name v :
    recording_update (insert (parquet_path ep_name) v)
| recording_episodes x :
    recording_update (append_item episodes_jsonl x)
| recording_stats x :
    recording_update (append_item episodes_stats_jsonl x).

(** The new part of the trace consists of events in [P]. *)
Definition emits (P : Event -> Prop) (w w' : World) : Prop :=
  exists evs, trace w' = trace w ++ evs /\ Forall P evs.

(** Every writer of the episode writes to one of its video files. *)
Definition video_writers (ep_name : string) (vws : dict (option VideoWriter)) : Prop :=
  Forall (fun kv => forall vw, snd kv = Some vw ->
                    exists cam_name, vw_path vw = video_path cam_name ep_name) vws.

(** A relation between file systems, read as one between worlds. *)
Definition on_files (F : gmap Path (list Item) -> gmap Path (list Item) -> Prop)
  (w w' : World) : Prop :=
  F (files w) (files w').

(** The append-only logs of the dataset. *)
Definition log_files : list Path :=
  [tasks_jsonl; episodes_jsonl; episodes_stats_jsonl].

(** Every log that exists keeps all its lines, in place, at its start. *)
Definition logs_kept (fs fs' : gmap Path (list Item)) : Prop :=
  forall p old, p ∈ log_files -> fs !! p = Some old ->
                exists new, fs' !! p = Some (old ++ new).

(** Neither [info.json] nor [tasks.jsonl] is touched. *)
Definition meta_untouched (fs fs' : gmap Path (list Item)) : Prop :=
  fs' !! info_json = fs !! info_json /\ fs' !! tasks_jsonl = fs !! tasks_jsonl.

(** The events of preparing the output directory, in order. *)
Definition setup_trace (cam_specs : dict Z) (tasks_present : bool) : list Event :=
  (EvMkdir <$> meta_dir :: data_dir :: (video_dir <$> keys cam_specs))
  ++ [EvWrite info_json]
  ++ (if tasks_present then [] else [EvAppend tasks_jsonl]).

Definition tasks_present (w : World) : bool :=
  bool_decide (is_Some (files w !! tasks_jsonl)).

(** What opening the cameras may change: the trace, by opening events. *)
Definition opening_only (w w' : World) : Prop :=
  emits opening_event w w' /\ files w' = files w /\ dirs w' = dirs w.

(** What recording may change. *)
Definition recording_only (w w' : World) : Prop :=
  emits recording_event w w' /\
  on_files logs_kept w w' /\ on_files meta_untouched w w'.

(** The file system once the output directory is prepared. *)
Definition prepared_files (args : Args) (w : World) : gmap Path (list Item) :=
  let fs := <[info_json := [Doc (info (fps args))]]> (files w) in
  if tasks_present w then fs else append_item tasks_jsonl (Doc (task_record args)) fs.

Definition opened (r : OpenCVCameraReader) : Prop := cap r = Some (index r).

(** Device 0 opens and delivers; no other device opens. *)
Definition half_host : Host :=
  {| py_int := int_of_decimal;
     isOpened := fun _ i => i =? 0;
     cap_read := fun _ _ => Some bgr_frame;
     time_time := fun k => (Z.of_nat k # 100)%Q |}.

Definition two_cameras : Args := with_camera ["front=0"; "wrist=2"] default_args.

(** A dataset directory left behind by an earlier run at 15 fps. *)
Definition old_dataset : World :=
  {| files := <[info_json := [Doc (info 15)]]>
              (<[tasks_jsonl := [Doc (JObj [("task_index", JInt 0); ("task", JStr "Old task")])]]>
              (<[episodes_jsonl := [Doc (episode_record 0 50)]]>
              (<[episodes_stats_jsonl := [Doc (episode_stats 0 50)]]> ∅)));
     dirs := list_to_set [meta_dir; data_dir];
     trace := [];
     calls := 0 |}.

(** ** The state of an episode *)

(** What [record_dataset] has established when it enters its episodes: the
    camera names are distinct, every name has its reader, in the same
    order, and every reader is open. *)
Definition cameras_ready (cam_specs : dict Z) (cam_readers : dict OpenCVCameraReader)
  : Prop :=
  NoDup (keys cam_specs) /\ keys cam_readers = keys cam_specs /\
  Forall opened (values cam_readers).

(** The number of frames written to the video of a camera so far. *)
Definition frames_written (name : string) (st : Episode) : nat :=
  match dict_get name (vw_writers st) with
  | Some (Some vw) => length (vw_frames vw)
  | _ => 0
  end.

(** A writer that exists, writes to the video of its camera, and has been
    given [n] frames. *)
Definition writer_has (ep_name : string) (n : nat) (kv : string * option VideoWriter)
  : Prop :=
  exists vw, snd kv = Some vw /\ vw_path vw = video_path (fst kv) ep_name /\
             length (vw_frames vw) = n.

(** Before the first complete tick there is no writer and no row; from
    then on every camera has a writer that [writer_has] one frame per row. *)
Definition writer_synced (ep_name : string) (n : nat) (kv : string * option VideoWriter)
  : Prop :=
  match snd kv with
  | None => n = 0%nat
  | Some _ => writer_has ep_name n kv
  end.

Definition episode_inv (cam_specs : dict Z) (ep_name : string) (st : Episode) : Prop :=
  keys (vw_writers st) = keys cam_specs /\
  frame_count st = Z.of_nat (length (rows st)) /\
  Forall (writer_synced ep_name (length (rows st))) (vw_writers st) /\
  (forall i row, rows st !! i = Some row -> frame row = Z.of_nat i).

(** The rows were stamped at the clock readings number [ks], in this order,
    all of them taken before now. *)
Definition stamped_at (h : Host) (start_t : Q) (ks : list nat) (st : Episode) (w : World)
  : Prop :=
  timestamp <$> rows st = (fun k => (time_time h k - start_t)%Q) <$> ks /\
  (forall i j ki kj, ks !! i = Some ki -> ks !! j = Some kj -> (i < j)%nat -> (ki < kj)%nat) /\
  Forall (fun k => (k < calls w)%nat) ks.

(** The state of the loop after [n] passes through its body, as far as the
    loop gets: [None] once it has been left or has raised.  The pass that
    ends with [break] is the last one that counts. *)
Fixpoint loop_state (n : nat) (h : Host) (args : Args) (cam_specs : dict Z)
  (cam_readers : dict OpenCVCameraReader) (ep_name : string) (start_t : Q)
  (st : Episode) (w : World) : option (Episode * World) :=
  match n with
  | O => Some (st, w)
  | S n' =>
      if frame_count st <? max_frames args then
        match tick h args cam_specs cam_readers ep_name start_t st w with
        | (Ok (FlowBreak, st'), w') =>
            match n' with O => Some (st', w') | S _ => None end
        | (Ok (_, st'), w') =>
            loop_state n' h args cam_specs cam_readers ep_name start_t st' w'
        | _ => None
        end
      else None
  end.

(** Every read delivers a frame / no read delivers a frame. *)
Definition all_reads_succeed (h : Host) : Prop :=
  forall k i, cap_read h k i <> None.

Definition all_reads_fail (h : Host) : Prop :=
  forall k i, cap_read h k i = None.

(** A short recording: one camera, two episodes of at most three frames. *)
Definition short_args : Args :=
  {| out_dir := "out"; episodes := 2; duration := 1; min_frames := 3;
     fps := 30; camera := Some ["front=0"]; arg_width := 640; arg_height := 480;
     task := "Custom task" |}.

Definition front_specs : dict Z := [("front", 0)].

Definition front_readers : dict OpenCVCameraReader :=
  [("front", {| index := 0; width := 640; height := 480; cap := Some 0 |})].

(** Every fourth read, counted over all observations of the host, fails. *)
Definition flaky_host : Host :=
  {| py_int := int_of_decimal;
     isOpened := fun _ _ => true;
     cap_read := fun k _ => if (k mod 4 =? 3)%nat then None else Some bgr_frame;
     time_time := fun k => (Z.of_nat k # 100)%Q |}.

(** A clock that jumps by 50 ms during the first capture and then shows the
    same reading for a while: it never runs backwards, and no pacing sleep
    falls between the first two rows. *)
Definition stalling_host : Host :=
  {| py_int := int_of_decimal;
     isOpened := fun _ _ => true;
     cap_read := fun _ _ => Some bgr_frame;
     time_time := fun k => if (k <=? 2)%nat then 0%Q else (5 # 100)%Q |}.

Definition two_frames_args : Args :=
  {| out_dir := "out"; episodes := 1; duration := 10; min_frames := 2;
     fps := 30; camera := Some ["front=0"]; arg_width := 640; arg_height := 480;
     task := "Custom task" |}.

Definition two_specs : dict Z := [("front", 0); ("wrist", 2)].

Definition two_readers : dict OpenCVCameraReader :=
  [("front", {| index := 0; width := 640; height := 480; cap := Some 0 |});
   ("wrist", {| index := 2; width := 640; height := 480; cap := Some 2 |})].

(** [--min_frames 0]: one camera, one episode. *)
Definition zero_min_args : Args :=
  {| out_dir := "out"; episodes := 1; duration := 10; min_frames := 0;
     fps := 30; camera := Some ["front=0"]; arg_width := 640; arg_height := 480;
     task := "Custom task" |}.

(** [--duration -1]. *)
Definition negative_duration_args : Args :=
  {| out_dir := "out"; episodes := 1; duration := -1; min_frames := 50;
     fps := 30; camera := Some ["front=0"]; arg_width := 640; arg_height := 480;
     task := "Custom task" |}.

(** [--fps 30 --duration 1.0 --min_frames 50]. *)
Definition one_second_args : Args :=
  {| out_dir := "out"; episodes := 1; duration := 1; min_frames := 50;
     fps := 30; camera := Some ["front=0"]; arg_width := 640; arg_height := 480;
     task := "Custom task" |}.

(** [--fps 30 --duration 10 --min_frames 5]. *)
Definition five_frames_args : Args :=
  {| out_dir := "out"; episodes := 1; duration := 10; min_frames := 5;
     fps := 30; camera := Some ["front=0"]; arg_width := 640; arg_height := 480;
     task := "Custom task" |}.

(** ** Vocabulary of the further properties *)

(** The events of opening the cameras of [cam_specs], all successfully. *)
Definition opening_trace (args : Args) (cam_specs : dict Z) : list Event :=
  flat_map (fun kv => [EvCapOpen (snd kv) true;
                       EvCapSet (snd kv) (arg_width args) (arg_height args)])
           cam_specs.

(** What a completed episode [ep] of [n] frames leaves in the file system:
    its table of [n] rows indexed from 0, one more record at the end of
    each log, for every camera the video of a writer to which [n] frames
    were passed (the file holds those of the writer's size), and nothing
    else changed. *)
Definition episode_recorded (cam_specs : dict Z) (ep n : nat)
  (fs fs' : gmap Path (list Item)) : Prop :=
  let ep_name := _make_episode_name ep in
  (exists rows, length rows = n /\
                fs' !! parquet_path ep_name = Some [Table rows] /\
                forall i row, rows !! i = Some row -> frame row = Z.of_nat i) /\
  fs' !! episodes_jsonl
    = Some (default [] (fs !! episodes_jsonl) ++ [Doc (episode_record ep (Z.of_nat n))]) /\
  fs' !! episodes_stats_jsonl
    = Some (default [] (fs !! episodes_stats_jsonl)
            ++ [Doc (episode_stats ep (Z.of_nat n))]) /\
  (forall cam_name, cam_name ∈ keys cam_specs ->
     exists vw,
       fs' !! video_path cam_name ep_name = Some (vw_file vw) /\
       vw_path vw = video_path cam_name ep_name /\
       length (vw_frames vw) = n) /\
  (forall p, p <> parquet_path ep_name -> p <> episodes_jsonl ->
             p <> episodes_stats_jsonl ->
             (forall cam_name, p <> video_path cam_name ep_name) ->
             fs' !! p = fs !! p).

(** Nothing but the videos of episode [ep_name] differs. *)
Definition only_videos (ep_name : string) (w w' : World) : Prop :=
  forall p, (forall cam_name, p <> video_path cam_name ep_name) ->
            files w' !! p = files w !! p.

(** What the episodes [s], [s+1], ... of [lens] frames each leave behind,
    for a frame budget [budget]: their records at the end of the two logs,
    in order; for each of them its table and, per camera, the video of a
    writer to which as many frames were passed; every other file as it
    was. *)
Definition episodes_recorded (cam_specs : dict Z) (budget : Z) (s : nat)
  (lens : list nat) (fs fs' : gmap Path (list Item)) : Prop :=
  default [] (fs' !! episodes_jsonl)
    = default [] (fs !! episodes_jsonl)
      ++ imap (fun i n => Doc (episode_record (s + i) (Z.of_nat n))) lens /\
  default [] (fs' !! episodes_stats_jsonl)
    = default [] (fs !! episodes_stats_jsonl)
      ++ imap (fun i n => Doc (episode_stats (s + i) (Z.of_nat n))) lens /\
  (forall i n, lens !! i = Some n ->
     (1 <= n)%nat /\ Z.of_nat n <= budget /\
     (exists rows, length rows = n /\
                   fs' !! parquet_path (_make_episode_name (s + i)) = Some [Table rows]) /\
     (forall cam_name, cam_name ∈ keys cam_specs ->
        exists vw,
          fs' !! video_path cam_name (_make_episode_name (s + i)) = Some (vw_file vw) /\
          vw_path vw = video_path cam_name (_make_episode_name (s + i)) /\
          length (vw_frames vw) = n)) /\
  (forall p, p <> episodes_jsonl -> p <> episodes_stats_jsonl ->
             (forall i, (i < length lens)%nat ->
                        p <> parquet_path (_make_episode_name (s + i)) /\
                        forall cam_name,
                          p <> video_path cam_name (_make_episode_name (s + i))) ->
             fs' !! p = fs !! p).

(** Anything but a sleep. *)
Definition no_sleep (e : Event) : Prop := forall dt, e <> EvSleep dt.

(** What is left of the frame period [1 / fps] after a pass through the
    loop body that started in [w] and took its last reading of the clock
    just before [w']. *)
Definition pass_elapsed (h : Host) (w w' : World) : Q :=
  (time_time h (calls w' - 1)%nat - time_time h (calls w))%Q.

(** [1 / args.fps - (time.time() - loop_start)], each operation rounded to
    a float. *)
Definition pass_remainder (h : Host) (args : Args) (w w' : World) : Q :=
  round_double (round_double (1 / inject_Z (fps args))
                - round_double (pass_elapsed h w w'))%Q.

(** None of the two subtractions leaves the doubles (there [time.sleep]
    would be handed an infinity). *)
Definition pass_in_range (h : Host) (args : Args) (w w' : World) : Prop :=
  overflows (pass_elapsed h w w') = false /\
  overflows (round_double (1 / inject_Z (fps args))
             - round_double (pass_elapsed h w w'))%Q = false.

(** * find_camera.py: probing the capture devices

    The script is a process of its own: its effects are collected in a list
    of their own, in the order they happen, and its observations of the
    host are counted from 0. *)

Inductive ProbeLine :=
| Available (i : Z)
| Unavailable (i : Z).

Inductive ProbeEvent :=
| PrOpen (i : Z) (ok : bool)
| PrPrint (line : ProbeLine)
| PrRelease (i : Z).

(** The body of [for i in range(max_test_index)], for the indices still to
    come; [k] counts the captures constructed so far. *)
Fixpoint probe (h : Host) (k : nat) (indices : list Z) : list ProbeEvent :=
  match indices with
  | [] => []
  | i :: rest =>
      let ok := isOpened h k i in
      PrOpen i ok
      :: (if ok then [PrPrint (Available i); PrRelease i]
          else [PrPrint (Unavailable i)])
      ++ probe h (S k) rest
  end.

(** Python's [range(n)]: empty for [n <= 0]. *)
Definition range (n : Z) : list Z := Z.of_nat <$> seq 0 (Z.to_nat n).

Definition find_cameras (h : Host) (max_test_index : Z) : list ProbeEvent :=
  probe h 0 (range max_test_index).

(** The lines printed, in order. *)
Fixpoint printed (evs : list ProbeEvent) : list ProbeLine :=
  match evs with
  | [] => []
  | PrPrint line :: evs' => line :: printed evs'
  | _ :: evs' => printed evs'
  end.

(** The captures that are open after the events [evs], starting from the
    open captures [held]. *)
Fixpoint held_after (held : list Z) (evs : list ProbeEvent) : list Z :=
  match evs with
  | [] => held
  | PrOpen i true :: evs' => held_after (i :: held) evs'
  | PrRelease i :: evs' => held_after (filter (fun j => j <> i) held) evs'
  | _ :: evs' => held_after held evs'
  end.

(** A host whose devices do not come and go. *)
Definition stable_devices (h : Host) : Prop :=
  forall k k' i, isOpened h k i = isOpened h k' i.

(** ** Which frame goes to which video *)

(** The writer [_init_video_writer] opens for camera [name] on its first
    frame [f]: the size is (width, height), the shape is (height, width, _). *)
Definition fresh_writer (args : Args) (ep_name name : string) (f : Frame) : VideoWriter :=
  let '(height, width, _) := shape f in
  {| vw_path := video_path name ep_name; vw_fps := fps args;
     vw_size := (width, height); vw_frames := [] |}.

(** A writer once [f] has been written to it. *)
Definition with_frame (f : Frame) (vw : VideoWriter) : VideoWriter :=
  {| vw_path := vw_path vw; vw_fps := vw_fps vw; vw_size := vw_size vw;
     vw_frames := vw_frames vw ++ [f] |}.

(** The frames the video of camera [name] has received so far. *)
Definition frames_of (name : string) (st : Episode) : list Frame :=
  match dict_get name (vw_writers st) with
  | Some (Some vw) => vw_frames vw
  | _ => []
  end.
(** * Reasoning about the monad *)

Lemma bind_Ok {A B} (m : M A) (k : A -> M B) w a w1 :
  m w = (Ok a, w1) -> bind m k w = k a w1.
Proof. unfold bind. intros ->. reflexivity. Qed.

Lemma bind_inv {A B} (m : M A) (k : A -> M B) w r w' :
  bind m k w = (r, w') ->
  (exists a w1, m w = (Ok a, w1) /\ k a w1 = (r, w')) \/
  (exists e, m w = (Raise e, w') /\ r = Raise e) \/
  (m w = (Running, w') /\ r = Running).
Proof.
  unfold bind. destruct (m w) as [[a|e|] w1]; intros H.
  - left. eauto.
  - right. left. injection H as <- <-. eauto.
  - right. right. injection H as <- <-. eauto.
Qed.

Lemma bind_inv_Ok {A B} (m : M A) (k : A -> M B) w b w' :
  bind m k w = (Ok b, w') ->
  exists a w1, m w = (Ok a, w1) /\ k a w1 = (Ok b, w').
Proof.
  intros H.
  apply bind_inv in H as [H|[(e & _ & H)|(_ & H)]]; [exact H|discriminate..].
Qed.

(** ** Small checks of the helpers *)

Example episode_name_7 : _make_episode_name 7 = "episode_000007".
Proof. reflexivity. Qed.

Example episode_name_42 : _make_episode_name 42 = "episode_000042".
Proof. reflexivity. Qed.

Example split_front : str_split1 "=" "front=0" = ["front"; "0"].
Proof. reflexivity. Qed.

Example split_twice : str_split1 "=" "a=b=c" = ["a"; "b=c"].
Proof. reflexivity. Qed.

(** ** Dictionaries *)

Lemma dict_get_set_eq {V} k (v : V) d : dict_get k (dict_set k v d) = Some v.
Proof.
  induction d as [|[k' v'] d IH]; simpl.
  - by rewrite decide_True.
  - destruct (decide (k' = k)) as [->|Hne]; simpl.
    + by rewrite decide_True.
    + by rewrite decide_False.
Qed.

Lemma dict_get_set_ne {V} k k' (v : V) d :
  k <> k' -> dict_get k' (dict_set k v d) = dict_get k' d.
Proof.
  intros Hne. induction d as [|[k0 v0] d IH]; simpl.
  - by rewrite decide_False.
  - destruct (decide (k0 = k)) as [->|Hne0]; simpl.
    + by rewrite !decide_False.
    + destruct (decide (k0 = k')); auto.
Qed.

Lemma dict_set_fresh {V} k (v : V) d :
  k ∉ keys d -> dict_set k v d = d ++ [(k, v)].
Proof.
  induction d as [|[k' v'] d IH]; simpl; intros Hk; [done|].
  apply not_elem_of_cons in Hk as [Hne Hk].
  rewrite decide_False by done. by rewrite IH.
Qed.

Lemma dict_set_mid {V} k (v x : V) pre rest :
  k ∉ keys pre -> dict_set k v (pre ++ (k, x) :: rest) = pre ++ (k, v) :: rest.
Proof.
  induction pre as [|[k' v'] pre IH]; simpl; intros Hk.
  - by rewrite decide_True.
  - apply not_elem_of_cons in Hk as [Hne Hk].
    rewrite decide_False by done. by rewrite IH.
Qed.

Lemma dict_get_mid {V} k (x : V) pre rest :
  k ∉ keys pre -> dict_get k (pre ++ (k, x) :: rest) = Some x.
Proof.
  induction pre as [|[k' v'] pre IH]; simpl; intros Hk.
  - by rewrite decide_True.
  - apply not_elem_of_cons in Hk as [Hne Hk].
    rewrite decide_False by done. by rewrite IH.
Qed.

Lemma keys_dict_set_old {V} k (v : V) d :
  k ∈ keys d -> keys (dict_set k v d) = keys d.
Proof.
  unfold keys. induction d as [|[k' v'] d IH]; csimpl; intros Hk.
  - by apply elem_of_nil in Hk.
  - destruct (decide (k' = k)) as [->|Hne]; csimpl; [done|].
    apply elem_of_cons in Hk as [->|Hk]; [done|].
    by rewrite IH.
Qed.

Lemma keys_dict_set {V} k (v : V) d :
  keys (dict_set k v d) = if decide (k ∈ keys d) then keys d else keys d ++ [k].
Proof.
  destruct (decide (k ∈ keys d)) as [Hin|Hout].
  - by apply keys_dict_set_old.
  - rewrite dict_set_fresh by done. unfold keys. by rewrite fmap_app.
Qed.

Lemma NoDup_keys_dict_set {V} k (v : V) d :
  NoDup (keys d) -> NoDup (keys (dict_set k v d)).
Proof.
  intros Hd. rewrite keys_dict_set. destruct (decide (k ∈ keys d)); [done|].
  apply NoDup_app. split_and!; [done| |apply NoDup_singleton].
  intros x Hx Hx'. apply list_elem_of_singleton in Hx'. by subst.
Qed.

(** ** Parsing the camera arguments *)

Lemma parse_specs_pure h specs d w :
  exists r, parse_specs h specs d w = (r, w) /\ r <> Running.
Proof.
  revert d. induction specs as [|spec specs IH]; intros d; simpl.
  - by eexists.
  - destruct (str_contains "=" spec); simpl; [|by eexists].
    destruct (str_split1 "=" spec) as [|name [|idx [|? ?]]]; try by eexists.
    destruct (py_int h idx); [apply IH|by eexists].
Qed.

Lemma parse_specs_malformed h specs d w spec :
  spec ∈ specs -> str_contains "=" spec = false ->
  exists e, parse_specs h specs d w = (Raise e, w) /\ config_error e.
Proof.
  revert d. induction specs as [|s specs IH]; intros d Hin Hbad.
  - by apply elem_of_nil in Hin.
  - simpl. destruct (str_contains "=" s) eqn:Hs; simpl.
    + apply elem_of_cons in Hin as [->|Hin]; [congruence|].
      destruct (str_split1 "=" s) as [|name [|idx [|? ?]]];
        try (by eexists; split; [reflexivity|exact I]).
      destruct (py_int h idx).
      * by apply IH.
      * by eexists; split; [reflexivity|exact I].
    + by eexists; split; [reflexivity|exact I].
Qed.

Lemma parse_specs_NoDup h specs d w d' w' :
  NoDup (keys d) -> parse_specs h specs d w = (Ok d', w') -> NoDup (keys d').
Proof.
  revert d. induction specs as [|s specs IH]; intros d Hd; simpl.
  - by intros [= <- _].
  - destruct (str_contains "=" s); simpl; [|discriminate].
    destruct (str_split1 "=" s) as [|name [|idx [|? ?]]]; try discriminate.
    destruct (py_int h idx); [|discriminate].
    apply IH. by apply NoDup_keys_dict_set.
Qed.

Lemma parse_cameras_pure h args w :
  exists r, parse_cameras h args w = (r, w) /\ r <> Running.
Proof.
  unfold parse_cameras, bind. destruct (camera args) as [specs|].
  - destruct (parse_specs_pure h specs [] w) as (r & -> & Hr).
    destruct r as [cs| |]; [|by eexists|done].
    destruct (length cs =? 0)%nat; by eexists.
  - by eexists.
Qed.

Lemma parse_cameras_Ok h args w cam_specs w' :
  parse_cameras h args w = (Ok cam_specs, w') ->
  w' = w /\ NoDup (keys cam_specs) /\ cam_specs <> [].
Proof.
  intros H. destruct (parse_cameras_pure h args w) as (r & Hr & _).
  rewrite Hr in H. simplify_eq. split; [done|].
  unfold parse_cameras in Hr. apply bind_inv_Ok in Hr as (cs & w1 & H1 & H2).
  destruct (length cs =? 0)%nat eqn:Hlen; [discriminate|].
  unfold ret in H2. simplify_eq. split.
  - destruct (camera args) as [specs|].
    + eapply parse_specs_NoDup; [|exact H1]. constructor.
    + unfold ret in H1. simplify_eq. apply NoDup_singleton.
  - intros ->. discriminate.
Qed.

(** C8.  A camera argument without ["="], or an empty list of camera
    arguments, ends the run with a configuration error ([ValueError]) in
    the very world it started in: nothing was logged, so no capture device
    was opened (nor any directory or file touched). *)
Theorem config_error_before_any_device fuel h args w specs :
  camera args = Some specs ->
  specs = [] \/ (exists spec, spec ∈ specs /\ str_contains "=" spec = false) ->
  exists e, record_dataset fuel h args w = (Raise e, w) /\ config_error e.
Proof.
  intros Hcam Hbad. unfold record_dataset, parse_cameras. rewrite Hcam.
  destruct Hbad as [->|(spec & Hin & Hspec)].
  - exists ValueError_no_camera. by split.
  - destruct (parse_specs_malformed h specs [] w spec Hin Hspec) as (e & He & Hce).
    exists e. split; [|done]. unfold bind at 1 2. by rewrite He.
Qed.

Lemma config_error_before_any_device_witness :
  exists e, record_dataset 0 steady_host (with_camera ["front=0"; "wrist"] default_args)
              empty_world = (Raise e, empty_world) /\ config_error e.
Proof.
  apply (config_error_before_any_device 0 steady_host
           (with_camera ["front=0"; "wrist"] default_args) empty_world
           ["front=0"; "wrist"]).
  - reflexivity.
  - right. exists "wrist". split; [|reflexivity].
    apply elem_of_cons. right. apply elem_of_cons. by left.
Defined.

(** ** Every video writer of an episode writes below [videos/] *)

Lemma dict_set_Forall {V} (P : string * V -> Prop) k v d :
  Forall P d -> P (k, v) -> Forall P (dict_set k v d).
Proof.
  intros Hd Hkv. induction Hd as [|[k' v'] d Hx Hd IH]; simpl.
  - by constructor.
  - destruct (decide (k' = k)); constructor; auto.
Qed.

Lemma dict_get_elem {V} k (v : V) d : dict_get k d = Some v -> (k, v) ∈ d.
Proof.
  induction d as [|[k' v'] d IH]; simpl; [done|].
  destruct (decide (k' = k)) as [->|Hne].
  - intros [= ->]. left.
  - intros H. right. auto.
Qed.

Lemma init_writers_video args ep_name pairs vws w vws' w' :
  video_writers ep_name vws ->
  init_writers args ep_name pairs vws w = (Ok vws', w') ->
  video_writers ep_name vws'.
Proof.
  revert vws w. induction pairs as [|[cam_name f] pairs IH]; intros vws w Hv; simpl.
  - by intros [= <- _].
  - destruct (shape f) as [[hh ww] cc] eqn:Hshape.
    intros H. apply bind_inv_Ok in H as (vw & w1 & H1 & H2).
    eapply IH; [|exact H2]. apply dict_set_Forall; [done|].
    simpl. intros vw0 [= <-]. exists cam_name.
    unfold _init_video_writer in H1. by injection H1 as <- _.
Qed.

Lemma write_frames_video ep_name pairs vws w vws' w' :
  video_writers ep_name vws ->
  write_frames pairs vws w = (Ok vws', w') ->
  video_writers ep_name vws'.
Proof.
  revert vws w. induction pairs as [|[cam_name f] pairs IH]; intros vws w Hv; simpl.
  - by intros [= <- _].
  - destruct (dict_get cam_name vws) as [[vw|]|] eqn:Hget; try discriminate.
    intros H. apply bind_inv_Ok in H as (vw' & w1 & H1 & H2).
    eapply IH; [|exact H2]. apply dict_set_Forall; [done|].
    simpl. intros vw0 [= <-]. injection H1 as <- _. simpl.
    apply dict_get_elem in Hget.
    eapply Forall_forall in Hv; [|exact Hget]. by apply Hv.
Qed.

Lemma store_frames_video h args cam_specs ep_name start_t loop_start frames st w
  flow st' w' :
  video_writers ep_name (vw_writers st) ->
  store_frames h args cam_specs ep_name start_t loop_start frames st w
  = (Ok (flow, st'), w') ->
  video_writers ep_name (vw_writers st').
Proof.
  intros Hv H. unfold store_frames in H.
  apply bind_inv_Ok in H as (vws1 & w3 & H3 & H).
  apply bind_inv_Ok in H as (vws2 & w4 & H4 & H).
  apply bind_inv_Ok in H as (now & w5 & _ & H).
  assert (video_writers ep_name vws2) as Hv2.
  { eapply write_frames_video; [|exact H4].
    destruct (any_None (vw_writers st)).
    - eapply init_writers_video; [exact Hv|exact H3].
    - by injection H3 as <- _. }
  simpl in H. destruct (min_frames args <=? frame_count st + 1).
  - apply bind_inv_Ok in H as (? & w6 & _ & H). by injection H as _ <- _.
  - destruct (fps args =? 0); [discriminate|].
    apply bind_inv_Ok in H as (now' & w6 & _ & H).
    apply bind_inv_Ok in H as (? & w7 & _ & H). by injection H as _ <- _.
Qed.

Lemma tick_video h args cam_specs cam_readers ep_name start_t st w flow st' w' :
  video_writers ep_name (vw_writers st) ->
  tick h args cam_specs cam_readers ep_name start_t st w = (Ok (flow, st'), w') ->
  video_writers ep_name (vw_writers st').
Proof.
  intros Hv H. unfold tick in H.
  apply bind_inv_Ok in H as (loop_start & w1 & _ & H).
  apply bind_inv_Ok in H as ([success frames] & w2 & _ & H).
  destruct success; simpl in H; [|by injection H as _ <- _].
  by eapply store_frames_video.
Qed.

Lemma episode_loop_video fuel h args cam_specs cam_readers ep_name start_t st w st' w' :
  video_writers ep_name (vw_writers st) ->
  episode_loop fuel h args cam_specs cam_readers ep_name start_t st w = (Ok st', w') ->
  video_writers ep_name (vw_writers st').
Proof.
  revert st w. induction fuel as [|fuel IH]; intros st w Hv; simpl.
  - destruct (frame_count st <? max_frames args); [discriminate|].
    by intros [= <- _].
  - destruct (frame_count st <? max_frames args); [|by intros [= <- _]].
    intros H. apply bind_inv_Ok in H as ([flow st1] & w1 & H1 & H2).
    apply tick_video in H1; [|done].
    destruct flow; [eapply IH; eauto|by injection H2 as <- _|eapply IH; eauto].
Qed.

Lemma new_episode_video ep_name cam_specs :
  video_writers ep_name (vw_writers (new_episode cam_specs)).
Proof.
  unfold video_writers, new_episode. simpl.
  apply Forall_fmap, Forall_forall. by intros name _ vw.
Qed.

(** ** Frame conditions, once for every relation between worlds

    [R] is any preorder on worlds that tolerates the events in [okE], the
    file updates in [okU], every observation of the host and every change
    of the directory set.  Each lemma asks [okE] and [okU] only for the
    footprint of the phase it is about. *)

Section Frame.
Variable R : World -> World -> Prop.
Variable okE : Event -> Prop.
Variable okU : (gmap Path (list Item) -> gmap Path (list Item)) -> Prop.
Variable okX : Exn -> Prop.
Hypothesis R_refl : forall w, R w w.
Hypothesis R_trans : forall w1 w2 w3, R w1 w2 -> R w2 w3 -> R w1 w3.
Hypothesis R_log : forall e w, okE e -> R w (log e w).
Hypothesis R_calls : forall w, R w (tick_calls w).
Hypothesis R_files : forall f w, okU f -> R w (set_files f w).
Hypothesis R_dirs : forall f w, R w (set_dirs f w).
Hypothesis okE_setup : forall e, setup_event e -> okE e.
Hypothesis okU_setup : forall f, setup_update f -> okU f.
Hypothesis okE_opening : forall e, opening_event e -> okE e.
Hypothesis okE_reading : forall e, reading_event e -> okE e.
Hypothesis okE_storing : forall e, storing_event e -> okE e.
Hypothesis okU_recording : forall f, recording_update f -> okU f.
Hypothesis okX_setup : forall e, setup_exn e -> okX e.
Hypothesis okX_opening : forall e, opening_exn e -> okX e.
Hypothesis okX_recording : forall e, recording_exn e -> okX e.

Lemma preserves_ret {A} (a : A) : preserves R okX (ret a).
Proof. intros w r w' [= <- <-]. split; [apply R_refl|discriminate]. Qed.

Lemma preserves_raise {A} e : okX e -> preserves R okX (@raise A e).
Proof. intros He w r w' [= <- <-]. split; [apply R_refl|]. by intros ? [= <-]. Qed.

Lemma preserves_bind {A B} (m : M A) (k : A -> M B) :
  preserves R okX m -> (forall a, preserves R okX (k a)) -> preserves R okX (bind m k).
Proof.
  intros Hm Hk w r w' H.
  apply bind_inv in H as [(a & w1 & H1 & H2)|[(e & H1 & ->)|(H1 & ->)]].
  - destruct (Hm _ _ _ H1) as [R1 _]. destruct (Hk _ _ _ _ H2) as [R2 X2].
    split; [by eapply R_trans|done].
  - destruct (Hm _ _ _ H1) as [R1 X1]. split; [done|].
    intros ? [= <-]. by apply X1.
  - destruct (Hm _ _ _ H1) as [R1 X1]. split; [done|discriminate].
Qed.

Lemma preserves_emit e : okE e -> preserves R okX (emit e).
Proof. intros He w r w' [= <- <-]. split; [auto|discriminate]. Qed.

Lemma preserves_observe {A} (f : nat -> A) : preserves R okX (observe f).
Proof. intros w r w' [= <- <-]. split; [auto|discriminate]. Qed.

Lemma preserves_update_files f : okU f -> preserves R okX (update_files f).
Proof. intros Hf w r w' [= <- <-]. split; [auto|discriminate]. Qed.

Lemma preserves_path_exists p : preserves R okX (path_exists p).
Proof. intros w r w' [= <- <-]. split; [auto|discriminate]. Qed.

Lemma preserves_for_each {A} (f : A -> M unit) l :
  (forall x, x ∈ l -> preserves R okX (f x)) -> preserves R okX (for_each f l).
Proof.
  induction l as [|x l IH]; intros Hf; simpl.
  - apply preserves_ret.
  - apply preserves_bind.
    + apply Hf. left.
    + intros _. apply IH. intros y Hy. apply Hf. by right.
Qed.

Lemma preserves_try_finally {A} (body : M A) cleanup :
  preserves R okX body -> preserves R okX cleanup -> preserves R okX (try_finally body cleanup).
Proof.
  intros Hb Hc w r w'. unfold try_finally.
  destruct (body w) as [[a|e|] w1] eqn:E1; destruct (Hb _ _ _ E1) as [R1 X1].
  - destruct (cleanup w1) as [[[]|e'|] w2] eqn:E2; destruct (Hc _ _ _ E2) as [R2 X2];
      intros [= <- <-]; (split; [by eapply R_trans|]); try discriminate.
    intros ? [= <-]. by apply X2.
  - destruct (cleanup w1) as [[[]|e'|] w2] eqn:E2; destruct (Hc _ _ _ E2) as [R2 X2];
      intros [= <- <-]; (split; [by eapply R_trans|]); try discriminate.
    + intros ? [= <-]. by apply X1.
    + intros ? [= <-]. by apply X2.
  - intros [= <- <-]. split; [done|discriminate].
Qed.

Lemma preserves_mkdir d : preserves R okX (mkdir d).
Proof.
  unfold mkdir. apply preserves_bind.
  - by apply preserves_emit, okE_setup.
  - intros _ w r w' [= <- <-]. split; [auto|discriminate].
Qed.

Lemma preserves_prepare_output args cam_specs :
  preserves R okX (prepare_output args cam_specs).
Proof.
  unfold prepare_output. apply preserves_bind.
  { apply preserves_for_each. intros d _. apply preserves_mkdir. }
  intros _. apply preserves_bind.
  { unfold _write_info_json. apply preserves_bind.
    - by apply preserves_emit, okE_setup.
    - intros _. apply preserves_update_files, okU_setup, setup_info. }
  intros _. apply preserves_bind; [apply preserves_path_exists|].
  intros present. apply preserves_bind.
  { destruct present; simpl; [apply preserves_ret|].
    unfold _append_jsonl. apply preserves_bind.
    - by apply preserves_emit, okE_setup.
    - intros _. apply preserves_update_files, okU_setup, setup_tasks. }
  intros _. destruct (length cam_specs =? 0)%nat;
    [by apply preserves_raise, okX_setup|apply preserves_ret].
Qed.

Lemma preserves_reader_open h r : preserves R okX (reader_open h r).
Proof.
  unfold reader_open. apply preserves_bind; [apply preserves_observe|].
  intros ok. apply preserves_bind; [by apply preserves_emit, okE_opening|].
  intros _. destruct ok; simpl; [|apply preserves_raise, okX_opening; by eexists].
  apply preserves_bind; [by apply preserves_emit, okE_opening|].
  intros _. apply preserves_ret.
Qed.

Lemma preserves_open_cameras h args cam_specs cam_readers :
  preserves R okX (open_cameras h args cam_specs cam_readers).
Proof.
  revert cam_readers. induction cam_specs as [|[name idx] rest IH];
    intros cam_readers; simpl.
  - apply preserves_ret.
  - apply preserves_bind; [apply preserves_reader_open|]. intros r. apply IH.
Qed.

Lemma preserves_reader_read h r : preserves R okX (reader_read h r).
Proof.
  unfold reader_read. destruct (cap r); [|by apply preserves_raise, okX_recording].
  apply preserves_bind; [apply preserves_observe|].
  intros x. apply preserves_bind; [by apply preserves_emit, okE_reading|].
  intros _. apply preserves_ret.
Qed.

Lemma preserves_read_all h cam_readers frames :
  preserves R okX (read_all h cam_readers frames).
Proof.
  revert frames. induction cam_readers as [|[name r] rest IH]; intros frames; simpl.
  - apply preserves_ret.
  - apply preserves_bind; [apply preserves_reader_read|].
    intros [f|]; [apply IH|].
    apply preserves_bind; [by apply preserves_emit, okE_reading|].
    intros _. apply preserves_ret.
Qed.

Lemma preserves_init_writers args ep_name pairs vws :
  preserves R okX (init_writers args ep_name pairs vws).
Proof.
  revert vws. induction pairs as [|[cam_name f] pairs IH]; intros vws; simpl.
  - apply preserves_ret.
  - apply preserves_bind; [|intros vw; apply IH].
    unfold _init_video_writer. destruct (shape f) as [[hh ww] cc].
    apply preserves_bind; [by apply preserves_emit, okE_storing|].
    intros _. apply preserves_bind; [|intros _; apply preserves_ret].
    apply preserves_update_files, okU_recording, recording_video.
Qed.

Lemma preserves_write_frames pairs vws : preserves R okX (write_frames pairs vws).
Proof.
  revert vws. induction pairs as [|[cam_name f] pairs IH]; intros vws; simpl.
  - apply preserves_ret.
  - destruct (dict_get cam_name vws) as [[vw|]|];
      try by apply preserves_raise, okX_recording.
    apply preserves_bind; [|intros vw'; apply IH].
    unfold vw_write. apply preserves_bind; [by apply preserves_emit, okE_storing|].
    intros _. apply preserves_ret.
Qed.

Lemma preserves_store_frames h args cam_specs ep_name start_t loop_start frames st :
  preserves R okX (store_frames h args cam_specs ep_name start_t loop_start frames st).
Proof.
  unfold store_frames. apply preserves_bind.
  { destruct (any_None (vw_writers st));
      [apply preserves_init_writers|apply preserves_ret]. }
  intros vws1. apply preserves_bind; [apply preserves_write_frames|].
  intros vws2. apply preserves_bind; [apply preserves_observe|].
  intros now. cbn [frame_count].
  destruct (min_frames args <=? frame_count st + 1).
  { apply preserves_bind; [by apply preserves_emit, okE_storing|].
    intros _. apply preserves_ret. }
  destruct (fps args =? 0); [by apply preserves_raise, okX_recording|].
  apply preserves_bind; [apply preserves_observe|].
  intros now'. apply preserves_bind; [|intros _; apply preserves_ret].
  destruct (Qpos _); [by apply preserves_emit, okE_storing|apply preserves_ret].
Qed.

Lemma preserves_tick h args cam_specs cam_readers ep_name start_t st :
  preserves R okX (tick h args cam_specs cam_readers ep_name start_t st).
Proof.
  unfold tick. apply preserves_bind; [apply preserves_observe|].
  intros loop_start. apply preserves_bind; [apply preserves_read_all|].
  intros [success frames]. destruct success; simpl; [|apply preserves_ret].
  apply preserves_store_frames.
Qed.

Lemma preserves_episode_loop fuel h args cam_specs cam_readers ep_name start_t st :
  preserves R okX (episode_loop fuel h args cam_specs cam_readers ep_name start_t st).
Proof.
  revert st. induction fuel as [|fuel IH]; intros st; simpl.
  - destruct (frame_count st <? max_frames args); [|apply preserves_ret].
    intros w r w' [= <- <-]. split; [apply R_refl|discriminate].
  - destruct (frame_count st <? max_frames args); [|apply preserves_ret].
    apply preserves_bind; [apply preserves_tick|].
    intros [[] st']; [apply IH|apply preserves_ret|apply IH].
Qed.

Lemma preserves_release_writers ep_name vws :
  video_writers ep_name vws -> preserves R okX (for_each release_writer (values vws)).
Proof.
  intros Hv. apply preserves_for_each. intros ovw Hin.
  apply list_elem_of_fmap in Hin as ([name ovw'] & -> & Hin). simpl.
  destruct ovw' as [vw|]; simpl; [|by apply preserves_raise, okX_recording].
  eapply Forall_forall in Hv; [|exact Hin].
  destruct (Hv vw eq_refl) as (cam_name & Hpath).
  unfold vw_release. apply preserves_bind; [by apply preserves_emit, okE_storing|].
  intros _. rewrite Hpath. apply preserves_update_files, okU_recording, recording_video.
Qed.

Lemma preserves_run_episode fuel h args cam_specs cam_readers ep :
  preserves R okX (run_episode fuel h args cam_specs cam_readers ep).
Proof.
  unfold run_episode. apply preserves_bind; [by apply preserves_emit, okE_storing|].
  intros _. apply preserves_bind; [apply preserves_observe|].
  intros start_t. intros w r w' H.
  apply bind_inv in H as [(st & w1 & H1 & H2)|[(e & H1 & ->)|(H1 & ->)]].
  2: { destruct (preserves_episode_loop _ _ _ _ _ _ _ _ _ _ _ H1) as [R1 X1].
       split; [done|]. intros ? [= <-]. by apply X1. }
  2: { destruct (preserves_episode_loop _ _ _ _ _ _ _ _ _ _ _ H1) as [R1 X1].
       split; [done|discriminate]. }
  destruct (preserves_episode_loop _ _ _ _ _ _ _ _ _ _ _ H1) as [R1 _].
  apply episode_loop_video in H1; [|apply new_episode_video].
  cut (R w1 w' /\ forall e, r = Raise e -> okX e).
  { intros [R2 X2]. split; [by eapply R_trans|done]. }
  revert H2. generalize w1 r w'.
  apply preserves_bind; [by eapply preserves_release_writers|].
  intros _. apply preserves_bind.
  { unfold write_table. apply preserves_bind.
    - apply preserves_emit, okE_storing. simpl. eauto.
    - intros _. apply preserves_update_files, okU_recording, recording_table. }
  intros _. apply preserves_bind.
  { unfold _append_jsonl. apply preserves_bind.
    - apply preserves_emit, okE_storing. simpl. by left.
    - intros _. apply preserves_update_files, okU_recording, recording_episodes. }
  intros _. apply preserves_bind.
  { unfold _append_jsonl. apply preserves_bind.
    - apply preserves_emit, okE_storing. simpl. by right.
    - intros _. apply preserves_update_files, okU_recording, recording_stats. }
  intros _. by apply preserves_emit, okE_storing.
Qed.

Lemma preserves_reader_release r : preserves R okX (reader_release r).
Proof.
  unfold reader_release. destruct (cap r); [|apply preserves_ret].
  by apply preserves_emit, okE_storing.
Qed.

(** Everything after the cameras are open: the episodes and the [finally]. *)
Lemma preserves_recording fuel h args cam_specs cam_readers :
  preserves R okX
    (try_finally
       (for_each (run_episode fuel h args cam_specs cam_readers)
          (seq 0 (Z.to_nat (episodes args))))
       (for_each reader_release (values cam_readers))).
Proof.
  apply preserves_try_finally.
  - apply preserves_for_each. intros ep _. apply preserves_run_episode.
  - apply preserves_for_each. intros r _. apply preserves_reader_release.
Qed.

End Frame.

(** ** The relations the frame lemmas are used with *)

Lemma emits_refl P w : emits P w w.
Proof. exists []. by rewrite app_nil_r. Qed.

Lemma emits_same P w w' : trace w' = trace w -> emits P w w'.
Proof. intros H. exists []. by rewrite app_nil_r. Qed.

Lemma emits_trans P w1 w2 w3 : emits P w1 w2 -> emits P w2 w3 -> emits P w1 w3.
Proof.
  intros (e1 & H1 & F1) (e2 & H2 & F2). exists (e1 ++ e2). split.
  - by rewrite H2, H1, app_assoc.
  - by apply Forall_app.
Qed.

Lemma emits_log (P : Event -> Prop) e w : P e -> emits P w (log e w).
Proof. intros He. exists [e]. split; [done|]. by constructor. Qed.

Lemma emits_mono (P Q : Event -> Prop) w w' :
  (forall e, P e -> Q e) -> emits P w w' -> emits Q w w'.
Proof.
  intros HPQ (evs & H & F). exists evs. split; [done|].
  eapply Forall_impl; eauto.
Qed.

Lemma on_files_refl F w : (forall fs, F fs fs) -> on_files F w w.
Proof. intros HF. apply HF. Qed.

Lemma logs_kept_refl fs : logs_kept fs fs.
Proof. intros p old _ H. exists []. by rewrite app_nil_r. Qed.

Lemma logs_kept_trans fs1 fs2 fs3 :
  logs_kept fs1 fs2 -> logs_kept fs2 fs3 -> logs_kept fs1 fs3.
Proof.
  intros H12 H23 p old Hp H1.
  destruct (H12 p old Hp H1) as (new1 & H2).
  destruct (H23 p _ Hp H2) as (new2 & H3).
  exists (new1 ++ new2). by rewrite app_assoc.
Qed.

Lemma logs_kept_append p x fs : logs_kept fs (append_item p x fs).
Proof.
  intros q old _ Hq. unfold append_item.
  destruct (decide (p = q)) as [->|Hne].
  - rewrite lookup_insert_eq, Hq. simpl. by eexists.
  - rewrite lookup_insert_ne by done. exists []. by rewrite app_nil_r.
Qed.

Lemma logs_kept_insert p v fs : p ∉ log_files -> logs_kept fs (<[p:=v]> fs).
Proof.
  intros Hp q old Hq Hold. exists []. rewrite app_nil_r.
  rewrite lookup_insert_ne; [done|]. by intros ->.
Qed.

Lemma video_path_not_log cam_name ep_name : video_path cam_name ep_name ∉ log_files.
Proof.
  unfold log_files. rewrite !not_elem_of_cons. split_and!; try discriminate.
  apply not_elem_of_nil.
Qed.

Lemma parquet_path_not_log ep_name : parquet_path ep_name ∉ log_files.
Proof.
  unfold log_files. rewrite !not_elem_of_cons. split_and!; try discriminate.
  apply not_elem_of_nil.
Qed.

Lemma info_json_not_log : info_json ∉ log_files.
Proof.
  unfold log_files. rewrite !not_elem_of_cons. split_and!; try discriminate.
  apply not_elem_of_nil.
Qed.

Lemma setup_update_logs_kept f fs : setup_update f -> logs_kept fs (f fs).
Proof.
  intros [v|x].
  - apply logs_kept_insert, info_json_not_log.
  - apply logs_kept_append.
Qed.

Lemma recording_update_logs_kept f fs : recording_update f -> logs_kept fs (f fs).
Proof.
  intros [cam_name ep_name v|ep_name v|x|x].
  - apply logs_kept_insert, video_path_not_log.
  - apply logs_kept_insert, parquet_path_not_log.
  - apply logs_kept_append.
  - apply logs_kept_append.
Qed.

Lemma recording_update_meta_untouched f fs :
  recording_update f -> meta_untouched fs (f fs).
Proof.
  intros [cam_name ep_name v|ep_name v|x|x]; unfold meta_untouched, append_item;
    by rewrite !lookup_insert_ne.
Qed.

Lemma meta_untouched_trans fs1 fs2 fs3 :
  meta_untouched fs1 fs2 -> meta_untouched fs2 fs3 -> meta_untouched fs1 fs3.
Proof. intros [H1 H2] [H3 H4]. split; congruence. Qed.

Lemma recording_not_setup e : recording_event e -> ~ setup_event e.
Proof.
  unfold recording_event.
  destruct e as [p|p|p| | | | | | | | |]; simpl; try tauto.
  - intros [[]|(ep_name & ->)]. discriminate.
  - intros [[]|[->| ->]]; discriminate.
Qed.

Lemma opening_not_setup e : opening_event e -> ~ setup_event e.
Proof. destruct e; simpl; tauto. Qed.

(** ** Preparing the output directory *)

Lemma ancestors_self (p : Path) : p <> [] -> p ∈ ancestors p.
Proof.
  induction p as [|c p IH]; [done|]. intros _. simpl.
  destruct p as [|c' p]; [left|].
  right. apply list_elem_of_fmap. exists (c' :: p). split; [done|]. by apply IH.
Qed.

Lemma for_each_mkdir ds w :
  exists w1, for_each mkdir ds w = (Ok tt, w1) /\
             trace w1 = trace w ++ (EvMkdir <$> ds) /\
             files w1 = files w /\ calls w1 = calls w /\
             dirs w ⊆ dirs w1 /\
             (forall d, d ∈ ds -> d <> [] -> d ∈ dirs w1).
Proof.
  revert w. induction ds as [|d ds IH]; intros w; simpl.
  - exists w. rewrite app_nil_r. split_and!; try done.
    intros d Hd. by apply elem_of_nil in Hd.
  - unfold bind at 1. unfold mkdir, bind, emit. simpl.
    edestruct IH as (w1 & -> & Htr & Hfs & Hcalls & Hsub & Hds).
    exists w1. rewrite Htr, Hfs, Hcalls. simpl. split_and!; try done.
    + by rewrite <- app_assoc.
    + etransitivity; [|exact Hsub]. simpl. set_solver.
    + intros d' Hd' Hne. apply elem_of_cons in Hd' as [->|Hd']; [|by apply Hds].
      apply Hsub. simpl. apply elem_of_union_r, elem_of_list_to_set.
      by apply ancestors_self.
Qed.

Lemma write_info_json_run dir fps w :
  _write_info_json dir fps w =
  (Ok tt, set_files (insert (dir ++ ["info.json"]) [Doc (info fps)])
            (log (EvWrite (dir ++ ["info.json"])) w)).
Proof. reflexivity. Qed.

Lemma append_jsonl_run p data w :
  _append_jsonl p data w =
  (Ok tt, set_files (append_item p (Doc data)) (log (EvAppend p) w)).
Proof. reflexivity. Qed.

Lemma path_exists_run p w :
  path_exists p w = (Ok (bool_decide (is_Some (files w !! p))), w).
Proof. reflexivity. Qed.

Lemma prepare_output_spec args cam_specs w :
  cam_specs <> [] ->
  exists w1, prepare_output args cam_specs w = (Ok tt, w1) /\
             trace w1 = trace w ++ setup_trace cam_specs (tasks_present w) /\
             files w1 = prepared_files args w /\ calls w1 = calls w /\
             dirs w ⊆ dirs w1 /\ meta_dir ∈ dirs w1 /\ data_dir ∈ dirs w1 /\
             (forall name, name ∈ keys cam_specs -> video_dir name ∈ dirs w1).
Proof.
  intros Hne. unfold prepare_output.
  destruct (for_each_mkdir (meta_dir :: data_dir :: (video_dir <$> keys cam_specs)) w)
    as (w1 & H1 & Htr & Hfs & Hcalls & Hsub & Hds).
  rewrite (bind_Ok _ _ _ _ _ H1).
  rewrite (bind_Ok _ _ _ _ _ (write_info_json_run _ _ _)).
  rewrite (bind_Ok _ _ _ _ _ (path_exists_run _ _)).
  match goal with
  | |- context [bool_decide ?P] =>
      replace (bool_decide P) with (tasks_present w)
        by (unfold tasks_present; simpl; fold info_json tasks_jsonl;
            by rewrite lookup_insert_ne, Hfs)
  end.
  assert ((length cam_specs =? 0)%nat = false) as Hlen.
  { destruct cam_specs; [done|reflexivity]. }
  assert (forall name, name ∈ keys cam_specs -> video_dir name ∈ dirs w1) as Hvd.
  { intros name Hname. apply Hds; [|done].
    do 2 right. apply list_elem_of_fmap. eauto. }
  assert (meta_dir ∈ dirs w1) as Hmd by (apply Hds; [left|done]).
  assert (data_dir ∈ dirs w1) as Hdd by (apply Hds; [right; left|done]).
  unfold prepared_files, setup_trace.
  destruct (tasks_present w); simpl negb; cbv iota.
  - rewrite (bind_Ok _ _ _ _ _ (eq_refl : ret tt _ = (Ok tt, _))), Hlen.
    eexists. split; [reflexivity|]. simpl.
    rewrite Htr, Hfs, Hcalls, <- ?app_assoc. by split_and!.
  - rewrite (bind_Ok _ _ _ _ _ (append_jsonl_run _ _ _)), Hlen.
    eexists. split; [reflexivity|]. simpl.
    rewrite Htr, Hfs, Hcalls, <- ?app_assoc. by split_and!.
Qed.

(** ** Opening the cameras *)

Lemma open_cameras_only h args cam_specs cam_readers :
  preserves opening_only opening_exn (open_cameras h args cam_specs cam_readers).
Proof.
  apply preserves_open_cameras with (okE := opening_event); try done.
  - intros w. split; [apply emits_refl|done].
  - intros w1 w2 w3 (E1 & F1 & D1) (E2 & F2 & D2). split.
    + by eapply emits_trans.
    + split; congruence.
  - intros e w He. split; [by apply emits_log|done].
  - intros w. split; [by apply emits_same|done].
Qed.

Lemma reader_open_result h r w res w' :
  reader_open h r w = (res, w') ->
  (exists r', res = Ok r' /\ opened r' /\ index r' = index r) \/
  res = Raise (RuntimeError_open (index r)).
Proof.
  unfold reader_open, bind, observe, emit. simpl.
  destruct (isOpened h (calls w) (index r)); simpl; intros [= <- _].
  - left. eexists. by split_and!.
  - by right.
Qed.

Lemma open_cameras_result h args cam_specs cam_readers w res w' :
  open_cameras h args cam_specs cam_readers w = (res, w') ->
  (exists rs, res = Ok rs) \/
  (exists i, res = Raise (RuntimeError_open i) /\ i ∈ values cam_specs).
Proof.
  revert cam_readers w. induction cam_specs as [|[name idx] rest IH];
    intros cam_readers w; simpl.
  - intros [= <- _]. eauto.
  - intros H. apply bind_inv in H as [(r & w1 & H1 & H2)|[(e & H1 & ->)|(H1 & ->)]].
    + apply IH in H2 as [?|(i & -> & Hi)]; [by left|].
      right. exists i. split; [done|by right].
    + apply reader_open_result in H1 as [(r' & ? & _)|[= ->]]; [done|].
      right. exists idx. split; [done|left].
    + apply reader_open_result in H1 as [(r' & ? & _)|?]; done.
Qed.

Lemma open_cameras_Ok h args cam_specs cam_readers w rs w' :
  NoDup (keys cam_readers ++ keys cam_specs) ->
  Forall opened (values cam_readers) ->
  open_cameras h args cam_specs cam_readers w = (Ok rs, w') ->
  keys rs = keys cam_readers ++ keys cam_specs /\ Forall opened (values rs).
Proof.
  revert cam_readers w. induction cam_specs as [|[name idx] rest IH];
    intros cam_readers w Hnd Hop; simpl.
  - intros [= <- _]. unfold keys. simpl. by rewrite app_nil_r.
  - intros H. apply bind_inv_Ok in H as (r & w1 & H1 & H2).
    apply reader_open_result in H1 as [(r' & [= <-] & Hr & _)|?]; [|done].
    assert (name ∉ keys cam_readers) as Hfresh.
    { apply NoDup_app in Hnd as (_ & Hdisj & _). intros Hin.
      apply (Hdisj name Hin). left. }
    rewrite dict_set_fresh in H2 by done.
    apply IH in H2 as [Hk Ho].
    + split; [|done]. rewrite Hk. unfold keys. rewrite fmap_app. simpl.
      by rewrite <- app_assoc.
    + unfold keys in *. rewrite fmap_app. simpl. by rewrite <- app_assoc.
    + unfold values. rewrite fmap_app. apply Forall_app. split; [done|].
      by constructor.
Qed.

(** ** Recording *)

Lemma recording_is_recording_only fuel h args cam_specs cam_readers :
  preserves recording_only recording_exn
    (try_finally
       (for_each (run_episode fuel h args cam_specs cam_readers)
          (seq 0 (Z.to_nat (episodes args))))
       (for_each reader_release (values cam_readers))).
Proof.
  apply preserves_recording with (okE := recording_event) (okU := recording_update);
    try done; try (by intros e He; right); try (by intros e He; left).
  - intros w. split_and!; [apply emits_refl|apply logs_kept_refl|done].
  - intros w1 w2 w3 (E1 & L1 & U1) (E2 & L2 & U2). split_and!.
    + by eapply emits_trans.
    + by eapply logs_kept_trans.
    + by eapply meta_untouched_trans.
  - intros e w He. split_and!; [by apply emits_log|apply logs_kept_refl|done].
  - intros w. split_and!; [by apply emits_same|apply logs_kept_refl|done].
  - intros f w Hf. split_and!.
    + by apply emits_same.
    + by apply recording_update_logs_kept.
    + by apply recording_update_meta_untouched.
Qed.

(** ** The shape of every run *)

Lemma parse_specs_error h specs d w e w' :
  parse_specs h specs d w = (Raise e, w') -> config_error e.
Proof.
  revert d. induction specs as [|s specs IH]; intros d; simpl; [discriminate|].
  destruct (str_contains "=" s); simpl; [|by intros [= <- _]].
  destruct (str_split1 "=" s) as [|name [|idx [|? ?]]]; try by intros [= <- _].
  destruct (py_int h idx); [apply IH|by intros [= <- _]].
Qed.

Lemma parse_cameras_error h args w e w' :
  parse_cameras h args w = (Raise e, w') -> config_error e.
Proof.
  unfold parse_cameras. intros H.
  apply bind_inv in H as [(cs & w1 & H1 & H2)|[(e' & H1 & [= ->])|(_ & ?)]]; [| |done].
  - destruct (length cs =? 0)%nat; [by injection H2 as <- _|discriminate].
  - destruct (camera args); [by eapply parse_specs_error|discriminate].
Qed.

Lemma record_dataset_cases fuel h args w r w' :
  record_dataset fuel h args w = (r, w') ->
  (exists e, r = Raise e /\ config_error e /\ w' = w) \/
  (exists cam_specs w1,
      parse_cameras h args w = (Ok cam_specs, w) /\
      prepare_output args cam_specs w = (Ok tt, w1) /\
      ((exists i, open_cameras h args cam_specs [] w1 = (Raise (RuntimeError_open i), w') /\
                  r = Raise (RuntimeError_open i)) \/
       (exists cam_readers w2,
           open_cameras h args cam_specs [] w1 = (Ok cam_readers, w2) /\
           try_finally
             (for_each (run_episode fuel h args cam_specs cam_readers)
                (seq 0 (Z.to_nat (episodes args))))
             (for_each reader_release (values cam_readers)) w2 = (r, w')))).
Proof.
  unfold record_dataset. intros H.
  destruct (parse_cameras_pure h args w) as (r0 & Hparse & Hrun).
  destruct r0 as [cam_specs|e|]; [| |done].
  - right. rewrite (bind_Ok _ _ _ _ _ Hparse) in H.
    destruct (parse_cameras_Ok _ _ _ _ _ Hparse) as (_ & _ & Hne).
    destruct (prepare_output_spec args cam_specs w Hne) as (w1 & Hprep & _).
    rewrite (bind_Ok _ _ _ _ _ Hprep) in H.
    exists cam_specs, w1. split_and!; [done..|].
    apply bind_inv in H as [(rs & w2 & H1 & H2)|[(e & H1 & ->)|(H1 & ->)]].
    + right. eauto.
    + left. destruct (open_cameras_result _ _ _ _ _ _ _ H1) as [(? & ?)|(i & [= ->] & _)];
        [done|eauto].
    + by destruct (open_cameras_result _ _ _ _ _ _ _ H1) as [(? & ?)|(i & ? & _)].
  - left. unfold bind in H. rewrite Hparse in H. injection H as <- <-.
    exists e. split_and!; [done| |done]. by eapply parse_cameras_error.
Qed.

Lemma prepared_files_info args w :
  prepared_files args w !! info_json = Some [Doc (info (fps args))].
Proof.
  unfold prepared_files, append_item. destruct (tasks_present w).
  - by rewrite lookup_insert_eq.
  - rewrite lookup_insert_ne by done. by rewrite lookup_insert_eq.
Qed.

Lemma prepared_files_tasks args w :
  prepared_files args w !! tasks_jsonl =
  Some (default [Doc (task_record args)] (files w !! tasks_jsonl)).
Proof.
  unfold prepared_files, append_item, tasks_present.
  case_bool_decide as Hp.
  - destruct Hp as [old Hold]. rewrite Hold. by rewrite lookup_insert_ne.
  - rewrite lookup_insert_eq, lookup_insert_ne by done.
    destruct (files w !! tasks_jsonl) as [old|] eqn:Hold; [|done].
    exfalso. apply Hp. by eexists.
Qed.

Lemma prepared_files_logs_kept args w : logs_kept (files w) (prepared_files args w).
Proof.
  unfold prepared_files. destruct (tasks_present w).
  - apply logs_kept_insert, info_json_not_log.
  - eapply logs_kept_trans; [|apply logs_kept_append].
    apply logs_kept_insert, info_json_not_log.
Qed.

Lemma setup_trace_setup cam_specs present : Forall setup_event (setup_trace cam_specs present).
Proof.
  unfold setup_trace. apply Forall_app. split.
  - apply Forall_fmap, Forall_forall. by intros d _.
  - destruct present; repeat constructor.
Qed.

(** C10.  In every run, the new part of the trace splits into the events of
    preparing the output directory (the [mkdir]s, the write of
    [meta/info.json], the creation of [meta/tasks.jsonl] when it was
    missing) followed by events that are none of these; every opening of a
    camera is among the latter.  Hence a run that ends with a camera that
    failed to open leaves [info.json] rewritten, [tasks.jsonl] present and
    the directories created. *)
Theorem output_prepared_before_cameras fuel h args w r w' :
  record_dataset fuel h args w = (r, w') ->
  (exists pre post,
      trace w' = trace w ++ pre ++ post /\
      Forall setup_event pre /\
      Forall (fun e => ~ setup_event e) post /\
      ((pre = [] /\ post = []) \/
       exists cam_specs, pre = setup_trace cam_specs (tasks_present w))) /\
  (forall i, r = Raise (RuntimeError_open i) ->
      (exists cam_specs opens,
          trace w' = trace w ++ setup_trace cam_specs (tasks_present w) ++ opens /\
          Forall opening_event opens) /\
      files w' !! info_json = Some [Doc (info (fps args))] /\
      files w' !! tasks_jsonl =
        Some (default [Doc (task_record args)] (files w !! tasks_jsonl)) /\
      meta_dir ∈ dirs w' /\ data_dir ∈ dirs w').
Proof.
  intros Hrun. apply record_dataset_cases in Hrun
    as [(e & -> & He & ->)|(cam_specs & w1 & Hparse & Hprep & Hrest)].
  { split.
    - exists [], []. rewrite !app_nil_r. split_and!; [done|constructor..|by left].
    - intros i [= ->]. destruct He. }
  destruct (parse_cameras_Ok _ _ _ _ _ Hparse) as (_ & _ & Hne).
  destruct (prepare_output_spec args cam_specs w Hne)
    as (w1' & Hprep' & Htr & Hfs & _ & _ & Hmeta & Hdata & _).
  rewrite Hprep in Hprep'. injection Hprep' as <-.
  destruct Hrest as [(i & Hopen & ->)|(cam_readers & w2 & Hopen & Hrec)].
  - apply open_cameras_only in Hopen as [((opens & Hopens & Fopens) & Hfs' & Hdirs') _].
    split.
    + exists (setup_trace cam_specs (tasks_present w)), opens. split_and!.
      * by rewrite Hopens, Htr, <- app_assoc.
      * apply setup_trace_setup.
      * eapply Forall_impl; [exact Fopens|]. apply opening_not_setup.
      * right. by eexists.
    + intros i' _. split_and!.
      * exists cam_specs, opens. by rewrite Hopens, Htr, <- app_assoc.
      * rewrite Hfs', Hfs. apply prepared_files_info.
      * rewrite Hfs', Hfs. apply prepared_files_tasks.
      * by rewrite Hdirs'.
      * by rewrite Hdirs'.
  - apply open_cameras_only in Hopen as [((opens & Hopens & Fopens) & _ & _) _].
    apply recording_is_recording_only in Hrec as [((evs & Hevs & Fevs) & _ & _) Xrec].
    split.
    + exists (setup_trace cam_specs (tasks_present w)), (opens ++ evs). split_and!.
      * by rewrite Hevs, Hopens, Htr, <- !app_assoc.
      * apply setup_trace_setup.
      * apply Forall_app. split.
        -- eapply Forall_impl; [exact Fopens|]. apply opening_not_setup.
        -- eapply Forall_impl; [exact Fevs|]. apply recording_not_setup.
      * right. by eexists.
    + intros i ->. destruct (Xrec _ eq_refl).
Qed.

Lemma output_prepared_before_cameras_witness :
  let out := record_dataset 0 half_host two_cameras empty_world in
  (exists pre post,
      trace (snd out) = trace empty_world ++ pre ++ post /\
      Forall setup_event pre /\
      Forall (fun e => ~ setup_event e) post /\
      ((pre = [] /\ post = []) \/
       exists cam_specs, pre = setup_trace cam_specs (tasks_present empty_world))) /\
  (forall i, fst out = Raise (RuntimeError_open i) ->
      (exists cam_specs opens,
          trace (snd out) =
            trace empty_world ++ setup_trace cam_specs (tasks_present empty_world) ++ opens /\
          Forall opening_event opens) /\
      files (snd out) !! info_json = Some [Doc (info (fps two_cameras))] /\
      files (snd out) !! tasks_jsonl =
        Some (default [Doc (task_record two_cameras)] (files empty_world !! tasks_jsonl)) /\
      meta_dir ∈ dirs (snd out) /\ data_dir ∈ dirs (snd out)).
Proof.
  apply (output_prepared_before_cameras 0 half_host two_cameras empty_world).
  apply surjective_pairing.
Defined.

(** C2.  Two cameras, of which the first opens and the second does not: the
    run ends with the error of the second, and the trace ends with the
    failed opening -- the first camera, open by then, is never released. *)
Theorem open_failure_leaves_camera_unreleased :
  let out := record_dataset 0 half_host two_cameras empty_world in
  fst out = Raise (RuntimeError_open 2) /\
  trace (snd out) =
    [EvMkdir ["meta"]; EvMkdir ["data"; "chunk-000"];
     EvMkdir ["videos"; "chunk-000"; "observation.images.front"];
     EvMkdir ["videos"; "chunk-000"; "observation.images.wrist"];
     EvWrite ["meta"; "info.json"]; EvAppend ["meta"; "tasks.jsonl"];
     EvCapOpen 0 true; EvCapSet 0 640 480; EvCapOpen 2 false] /\
  forall i, EvCapRelease i ∉ trace (snd out).
Proof.
  assert (trace (snd (record_dataset 0 half_host two_cameras empty_world)) =
          [EvMkdir ["meta"]; EvMkdir ["data"; "chunk-000"];
           EvMkdir ["videos"; "chunk-000"; "observation.images.front"];
           EvMkdir ["videos"; "chunk-000"; "observation.images.wrist"];
           EvWrite ["meta"; "info.json"]; EvAppend ["meta"; "tasks.jsonl"];
           EvCapOpen 0 true; EvCapSet 0 640 480; EvCapOpen 2 false]) as Htrace
    by (vm_compute; reflexivity).
  cbv zeta. split_and!.
  - vm_compute. reflexivity.
  - exact Htrace.
  - intros i. rewrite Htrace. rewrite !not_elem_of_cons.
    split_and!; try discriminate. apply not_elem_of_nil.
Qed.

(** The same for every run: when a camera fails to open, no camera is
    released, whatever was opened before. *)
Lemma open_failure_releases_nothing fuel h args w i w' :
  record_dataset fuel h args w = (Raise (RuntimeError_open i), w') ->
  exists evs, trace w' = trace w ++ evs /\ forall j, EvCapRelease j ∉ evs.
Proof.
  intros Hrun. apply record_dataset_cases in Hrun
    as [(e & [= <-] & He & _)|(cam_specs & w1 & Hparse & Hprep & Hrest)]; [destruct He|].
  destruct (parse_cameras_Ok _ _ _ _ _ Hparse) as (_ & _ & Hne).
  destruct (prepare_output_spec args cam_specs w Hne) as (w1' & Hprep' & Htr & _).
  rewrite Hprep in Hprep'. injection Hprep' as <-.
  destruct Hrest as [(i' & Hopen & _)|(cam_readers & w2 & _ & Hrec)].
  - apply open_cameras_only in Hopen as [((opens & Hopens & Fopens) & _) _].
    exists (setup_trace cam_specs (tasks_present w) ++ opens). split.
    + by rewrite Hopens, Htr, <- app_assoc.
    + intros j Hj. apply elem_of_app in Hj as [Hj|Hj].
      * pose proof (setup_trace_setup cam_specs (tasks_present w)) as Hs.
        eapply Forall_forall in Hs; [|exact Hj]. destruct Hs.
      * eapply Forall_forall in Fopens; [|exact Hj]. destruct Fopens.
  - apply recording_is_recording_only in Hrec as [_ Xrec].
    destruct (Xrec _ eq_refl).
Qed.

(** ** The metadata files across runs *)

(** C6, as the code has it.  No run removes or changes a line of
    [tasks.jsonl], [episodes.jsonl] or [episodes_stats.jsonl]: each of them
    that exists keeps its content as a prefix.  An existing [tasks.jsonl]
    is left exactly as it is.  A run whose camera arguments are rejected
    stops in the world it started in; every other run rewrites [info.json]
    with its own [fps], whatever the file held, and creates [tasks.jsonl]
    with the task record when it was missing. *)
Theorem logs_only_grow fuel h args w r w' :
  record_dataset fuel h args w = (r, w') ->
  logs_kept (files w) (files w') /\
  (forall old, files w !! tasks_jsonl = Some old -> files w' !! tasks_jsonl = Some old) /\
  ((exists e, r = Raise e /\ config_error e /\ w' = w) \/
   (files w' !! info_json = Some [Doc (info (fps args))] /\
    (files w !! tasks_jsonl = None ->
     files w' !! tasks_jsonl = Some [Doc (task_record args)]))).
Proof.
  intros Hrun. apply record_dataset_cases in Hrun
    as [(e & -> & He & ->)|(cam_specs & w1 & Hparse & Hprep & Hrest)].
  { split_and!; [apply logs_kept_refl|done|left; eauto]. }
  destruct (parse_cameras_Ok _ _ _ _ _ Hparse) as (_ & _ & Hne).
  destruct (prepare_output_spec args cam_specs w Hne) as (w1' & Hprep' & _ & Hfs & _).
  rewrite Hprep in Hprep'. injection Hprep' as <-.
  assert (logs_kept (files w1) (files w') /\ meta_untouched (files w1) (files w'))
    as [Hkept [Hinfo Htasks]].
  { destruct Hrest as [(i & Hopen & _)|(cam_readers & w2 & Hopen & Hrec)].
    - apply open_cameras_only in Hopen as [(_ & -> & _) _].
      split; [apply logs_kept_refl|done].
    - apply open_cameras_only in Hopen as [(_ & Hfs2 & _) _].
      apply recording_is_recording_only in Hrec as [(_ & L & U) _].
      unfold on_files in L, U. rewrite Hfs2 in L, U. done. }
  rewrite Hfs in Hkept, Hinfo, Htasks. split_and!.
  - eapply logs_kept_trans; [apply prepared_files_logs_kept|exact Hkept].
  - intros old Hold. by rewrite Htasks, prepared_files_tasks, Hold.
  - right. split.
    + by rewrite Hinfo, prepared_files_info.
    + intros Hnone. by rewrite Htasks, prepared_files_tasks, Hnone.
Qed.

Lemma logs_only_grow_witness :
  let out := record_dataset 5 steady_host
               (with_camera ["front=0"] default_args) old_dataset in
  logs_kept (files old_dataset) (files (snd out)) /\
  (forall old, files old_dataset !! tasks_jsonl = Some old ->
               files (snd out) !! tasks_jsonl = Some old) /\
  ((exists e, fst out = Raise e /\ config_error e /\ snd out = old_dataset) \/
   (files (snd out) !! info_json = Some [Doc (info 30)] /\
    (files old_dataset !! tasks_jsonl = None ->
     files (snd out) !! tasks_jsonl =
       Some [Doc (task_record (with_camera ["front=0"] default_args))]))).
Proof.
  apply (logs_only_grow 5 steady_host (with_camera ["front=0"] default_args) old_dataset).
  apply surjective_pairing.
Defined.

(** Against C6 as stated ("rewritten unconditionally on every invocation"):
    an invocation at 30 fps with a camera argument that lacks ["="], in a
    directory whose [info.json] says 15 fps, leaves that file as it was. *)
Lemma info_json_kept_on_bad_camera_argument :
  let args := with_camera ["front=0"; "wrist"] default_args in
  let out := record_dataset 5 steady_host args old_dataset in
  fps args = 30 /\
  fst out = Raise (ValueError_camera_format "wrist") /\
  files (snd out) !! info_json = Some [Doc (info 15)] /\
  files (snd out) !! info_json <> Some [Doc (info (fps args))].
Proof.
  cbv zeta.
  assert (files (snd (record_dataset 5 steady_host
                        (with_camera ["front=0"; "wrist"] default_args) old_dataset))
          !! info_json = Some [Doc (info 15)]) as Hinfo by (vm_compute; reflexivity).
  split_and!.
  - reflexivity.
  - vm_compute. reflexivity.
  - exact Hinfo.
  - rewrite Hinfo. discriminate.
Qed.

(** * The episode loop *)

(** ** Reading the cameras *)

Lemma read_all_spec h cam_readers frames w r w' :
  Forall opened (values cam_readers) ->
  read_all h cam_readers frames w = (r, w') ->
  files w' = files w /\ dirs w' = dirs w /\ (calls w <= calls w')%nat /\
  ((exists new evs,
       r = Ok (true, frames ++ new) /\ length new = length cam_readers /\
       trace w' = trace w ++ evs /\ length evs = length cam_readers /\
       Forall (fun e => exists i, e = EvCapRead i true) evs) \/
   (exists fs evs i name,
       r = Ok (false, fs) /\
       trace w' = trace w ++ evs ++ [EvCapRead i false; EvPrint (MsgReadFailed name)] /\
       Forall (fun e => exists i, e = EvCapRead i true) evs /\
       exists k, cap_read h k i = None)).
Proof.
  revert frames w. induction cam_readers as [|[name rd] rest IH]; intros frames w Hop; simpl.
  - intros [= <- <-]. split_and!; [done..|]. left. exists [], [].
    rewrite !app_nil_r. split_and!; [done..|constructor].
  - apply Forall_cons in Hop as [Hrd Hop]. simpl in Hrd.
    unfold reader_read. rewrite Hrd. unfold bind, observe, emit, ret. simpl.
    destruct (cap_read h (calls w) (index rd)) as [f|] eqn:Hread.
    + rewrite bool_decide_true by eauto. intros H.
      apply IH in H as (Hfs & Hds & Hcalls & Hcase); [|done]. simpl in *.
      split_and!; [done..|lia|].
      destruct Hcase as [(new & evs & -> & Hlen & Htr & Hlen' & Fevs)
                        |(fs & evs & i & name' & -> & Htr & Fevs & Hnone)].
      * left. exists (f :: new), (EvCapRead (index rd) true :: evs). split_and!.
        -- by rewrite <- app_assoc.
        -- simpl. by rewrite Hlen.
        -- rewrite Htr. simpl. by rewrite <- app_assoc.
        -- simpl. by rewrite Hlen'.
        -- constructor; eauto.
      * right. exists fs, (EvCapRead (index rd) true :: evs), i, name'. split_and!.
        -- done.
        -- rewrite Htr. simpl. by rewrite <- app_assoc.
        -- constructor; eauto.
        -- done.
    + rewrite bool_decide_false by (by intros [? ?]).
      simpl. intros [= <- <-]. simpl.
      split_and!; [done..|lia|].
      right. exists frames, [], (index rd), name. split_and!; [done| |constructor|by eauto].
      simpl. by rewrite <- app_assoc.
Qed.

(** When the first camera does not deliver, the tick stops right there. *)
Lemma read_all_first_fails h name rd rest frames w :
  opened rd -> cap_read h (calls w) (index rd) = None ->
  read_all h ((name, rd) :: rest) frames w =
  (Ok (false, frames),
   log (EvPrint (MsgReadFailed name)) (log (EvCapRead (index rd) false) (tick_calls w))).
Proof.
  intros Hrd Hread. simpl. unfold reader_read. rewrite Hrd.
  unfold bind, observe, emit, ret. simpl. rewrite Hread.
  by rewrite bool_decide_false by (by intros [? ?]).
Qed.

(** ** Writing the frames of a complete tick *)

Lemma init_writers_aligned args ep_name rest frames pre w :
  length frames = length rest -> NoDup (keys pre ++ keys rest) ->
  exists rest' w',
    init_writers args ep_name (zip (keys rest) frames) (pre ++ rest) w
    = (Ok (pre ++ rest'), w') /\
    keys rest' = keys rest /\ Forall (writer_has ep_name 0) rest' /\
    calls w' = calls w /\ dirs w' = dirs w.
Proof.
  revert frames pre w. induction rest as [|[k v] rest IH]; intros frames pre w Hlen Hnd.
  - exists [], w. by destruct frames.
  - destruct frames as [|f frames]; [done|]. injection Hlen as Hlen.
    unfold keys in *. csimpl in *.
    assert (k ∉ pre.*1) as Hfresh.
    { apply NoDup_app in Hnd as (_ & Hdisj & _). intros Hin.
      apply (Hdisj k Hin). left. }
    destruct (shape f) as [[hh ww] cc] eqn:Hshape.
    unfold bind at 1. unfold _init_video_writer, bind, emit, update_files, ret.
    simpl. rewrite dict_set_mid by done.
    rewrite (cons_middle (k, _) pre rest), app_assoc.
    edestruct (IH frames (pre ++ [(k, Some {| vw_path := video_path k ep_name;
                                              vw_fps := fps args;
                                              vw_size := (ww, hh);
                                              vw_frames := [] |})]))
      as (rest' & w' & -> & Hk & Hw & Hc & Hd); [done| |].
    { rewrite fmap_app. simpl. by rewrite <- app_assoc. }
    eexists (_ :: rest'), w'. split_and!.
    + by rewrite <- app_assoc.
    + csimpl. by rewrite Hk.
    + constructor; [|done]. eexists. by split_and!.
    + by rewrite Hc.
    + by rewrite Hd.
Qed.

Lemma write_frames_aligned ep_name n rest frames pre w :
  length frames = length rest -> NoDup (keys pre ++ keys rest) ->
  Forall (writer_has ep_name n) rest ->
  exists rest' w',
    write_frames (zip (keys rest) frames) (pre ++ rest) w = (Ok (pre ++ rest'), w') /\
    keys rest' = keys rest /\ Forall (writer_has ep_name (S n)) rest' /\
    calls w' = calls w /\ files w' = files w /\ dirs w' = dirs w.
Proof.
  revert frames pre w. induction rest as [|[k v] rest IH]; intros frames pre w Hlen Hnd Hhas.
  - exists [], w. by destruct frames.
  - destruct frames as [|f frames]; [done|]. injection Hlen as Hlen.
    apply Forall_cons in Hhas as [(vw & Hv & Hpath & Hn) Hhas]. simpl in Hv, Hpath. subst v.
    unfold keys in *. csimpl in *.
    assert (k ∉ pre.*1) as Hfresh.
    { apply NoDup_app in Hnd as (_ & Hdisj & _). intros Hin.
      apply (Hdisj k Hin). left. }
    rewrite dict_get_mid by done.
    unfold bind at 1. unfold vw_write, bind, emit, ret. simpl.
    rewrite dict_set_mid by done.
    rewrite (cons_middle (k, _) pre rest), app_assoc.
    edestruct (IH frames (pre ++ [(k, Some {| vw_path := vw_path vw;
                                              vw_fps := vw_fps vw;
                                              vw_size := vw_size vw;
                                              vw_frames := vw_frames vw ++ [f] |})]))
      as (rest' & w' & -> & Hk & Hw & Hc & Hf & Hd); [done| |done|].
    { rewrite fmap_app. simpl. by rewrite <- app_assoc. }
    eexists (_ :: rest'), w'. split_and!.
    + by rewrite <- app_assoc.
    + csimpl. by rewrite Hk.
    + constructor; [|done]. eexists. split_and!; [done..|].
      simpl. rewrite length_app. simpl. lia.
    + by rewrite Hc.
    + by rewrite Hf.
    + by rewrite Hd.
Qed.

Lemma any_None_false ep_name n (vws : dict (option VideoWriter)) :
  any_None vws = false -> Forall (writer_synced ep_name n) vws ->
  Forall (writer_has ep_name n) vws.
Proof.
  intros Hany Hs. induction Hs as [|[k [vw|]] vws Hx Hs IH]; simpl in *.
  - constructor.
  - constructor; [done|]. by apply IH.
  - discriminate.
Qed.

Lemma any_None_true ep_name n (vws : dict (option VideoWriter)) :
  any_None vws = true -> Forall (writer_synced ep_name n) vws -> n = 0%nat.
Proof.
  intros Hany Hs. induction Hs as [|[k [vw|]] vws Hx Hs IH]; simpl in *.
  - discriminate.
  - by apply IH.
  - done.
Qed.

Lemma writer_has_synced ep_name n (vws : dict (option VideoWriter)) :
  Forall (writer_has ep_name n) vws -> Forall (writer_synced ep_name n) vws.
Proof.
  intros H. eapply Forall_impl; [exact H|].
  intros [k v] (vw & Hv & Hvw). simpl in Hv. subst v.
  unfold writer_synced. simpl. eexists. by split.
Qed.

Lemma store_frames_emits h args cam_specs ep_name start_t loop_start frames st :
  preserves (emits storing_event) (fun _ => True)
    (store_frames h args cam_specs ep_name start_t loop_start frames st).
Proof.
  apply preserves_store_frames with (okE := storing_event) (okU := fun _ => True);
    try done.
  - apply emits_refl.
  - apply emits_trans.
  - intros e w He. by apply emits_log.
  - intros w. by apply emits_same.
  - intros f w _. by apply emits_same.
Qed.

Lemma episode_inv_next cam_specs ep_name st vws now :
  episode_inv cam_specs ep_name st ->
  keys vws = keys cam_specs ->
  Forall (writer_has ep_name (S (length (rows st)))) vws ->
  episode_inv cam_specs ep_name
    {| rows := rows st ++ [{| timestamp := now; frame := frame_count st |}];
       vw_writers := vws;
       frame_count := frame_count st + 1 |}.
Proof.
  intros (Hk & Hc & Hw & Hi) Hkeys Hhas. unfold episode_inv. simpl.
  rewrite length_app. simpl. rewrite Nat.add_1_r. split_and!.
  - done.
  - lia.
  - by apply writer_has_synced.
  - intros i row Hrow.
    destruct (decide (i < length (rows st))%nat) as [Hlt|Hge].
    + rewrite lookup_app_l in Hrow by done. by apply Hi.
    + rewrite lookup_app_r in Hrow by lia.
      destruct (i - length (rows st))%nat as [|m] eqn:Hm; [|done].
      simpl in Hrow. injection Hrow as <-. simpl. lia.
Qed.

Lemma store_frames_spec h args cam_specs ep_name start_t loop_start frames st w r w' :
  NoDup (keys cam_specs) -> length frames = length cam_specs ->
  episode_inv cam_specs ep_name st ->
  store_frames h args cam_specs ep_name start_t loop_start frames st w = (r, w') ->
  exists vws,
    let st' := {| rows := rows st ++ [{| timestamp := (time_time h (calls w) - start_t)%Q;
                                         frame := frame_count st |}];
                  vw_writers := vws;
                  frame_count := frame_count st + 1 |} in
    episode_inv cam_specs ep_name st' /\ (calls w < calls w')%nat /\
    r = (if min_frames args <=? frame_count st + 1 then Ok (FlowBreak, st')
         else if fps args =? 0 then Raise ZeroDivisionError
         else Ok (FlowNext, st')).
Proof.
  intros Hnd Hlen Hinv. pose proof Hinv as (Hk & Hc & Hw & Hi).
  assert (length frames = length (vw_writers st)) as Hlen'.
  { rewrite Hlen. unfold keys in Hk.
    by rewrite <- (length_fmap fst cam_specs), <- Hk, length_fmap. }
  assert (NoDup (keys (@nil (string * option VideoWriter)) ++ keys (vw_writers st))) as Hnd'.
  { simpl. by rewrite Hk. }
  unfold store_frames. rewrite <- Hk.
  assert (exists vws1 w1,
             (if any_None (vw_writers st)
              then init_writers args ep_name (zip (keys (vw_writers st)) frames) (vw_writers st)
              else ret (vw_writers st)) w = (Ok vws1, w1) /\
             keys vws1 = keys (vw_writers st) /\
             Forall (writer_has ep_name (length (rows st))) vws1 /\
             calls w1 = calls w) as (vws1 & w1 & H1 & Hk1 & Hw1 & Hc1).
  { destruct (any_None (vw_writers st)) eqn:Hany.
    - destruct (init_writers_aligned args ep_name (vw_writers st) frames [] w Hlen' Hnd')
        as (vws1 & w1 & H1 & Hk1 & Hw1 & Hc1 & _).
      exists vws1, w1. rewrite (any_None_true _ _ _ Hany Hw). by split_and!.
    - exists (vw_writers st), w. split_and!; [done..| |done].
      by eapply any_None_false. }
  rewrite (bind_Ok _ _ _ _ _ H1), <- Hk1.
  assert (length frames = length vws1) as Hlen1.
  { rewrite Hlen'. unfold keys in Hk1.
    by rewrite <- (length_fmap fst (vw_writers st)), <- Hk1, length_fmap. }
  assert (NoDup (keys (@nil (string * option VideoWriter)) ++ keys vws1)) as Hnd1.
  { simpl. by rewrite Hk1, Hk. }
  destruct (write_frames_aligned ep_name _ vws1 frames [] w1 Hlen1 Hnd1 Hw1)
    as (vws2 & w2 & H2 & Hk2 & Hw2 & Hc2 & _).
  simpl in H2. rewrite (bind_Ok _ _ _ _ _ H2).
  rewrite (bind_Ok _ _ _ _ _ (eq_refl : observe (time_time h) w2 = (_, tick_calls w2))).
  cbn [frame_count]. rewrite Hc2, Hc1. intros H. exists vws2. cbv zeta. split_and!.
  - apply episode_inv_next; [done|congruence|done].
  - revert H. destruct (min_frames args <=? frame_count st + 1).
    + unfold bind, emit, ret. intros [= _ <-]. simpl. lia.
    + destruct (fps args =? 0).
      * intros [= _ <-]. simpl. lia.
      * unfold bind, observe, emit, ret. destruct (Qpos _); intros [= _ <-]; simpl; lia.
  - revert H. destruct (min_frames args <=? frame_count st + 1).
    + unfold bind, emit, ret. by intros [= <- _].
    + destruct (fps args =? 0).
      * by intros [= <- _].
      * unfold bind, observe, emit, ret. by destruct (Qpos _); intros [= <- _].
Qed.

(** ** One pass through the loop body *)

Lemma tick_spec h args cam_specs cam_readers ep_name start_t st w r w' :
  cameras_ready cam_specs cam_readers ->
  episode_inv cam_specs ep_name st ->
  tick h args cam_specs cam_readers ep_name start_t st w = (r, w') ->
  (calls w < calls w')%nat /\
  ((r = Ok (FlowContinue, st) /\ files w' = files w /\ dirs w' = dirs w /\
    exists evs i name,
      trace w' = trace w ++ evs ++ [EvCapRead i false; EvPrint (MsgReadFailed name)] /\
      Forall (fun e => exists i, e = EvCapRead i true) evs /\
      exists k, cap_read h k i = None) \/
   (exists k vws,
      (calls w < k < calls w')%nat /\
      let st' := {| rows := rows st ++ [{| timestamp := (time_time h k - start_t)%Q;
                                           frame := frame_count st |}];
                    vw_writers := vws;
                    frame_count := frame_count st + 1 |} in
      episode_inv cam_specs ep_name st' /\
      (exists reads stores,
          trace w' = trace w ++ reads ++ stores /\
          length reads = length cam_readers /\
          Forall (fun e => exists i, e = EvCapRead i true) reads /\
          Forall storing_event stores) /\
      r = (if min_frames args <=? frame_count st + 1 then Ok (FlowBreak, st')
           else if fps args =? 0 then Raise ZeroDivisionError
           else Ok (FlowNext, st')))).
Proof.
  intros (Hnd & Hkeys & Hop) Hinv. unfold tick.
  rewrite (bind_Ok _ _ _ _ _ (eq_refl : observe (time_time h) w = (_, tick_calls w))).
  intros H. apply bind_inv in H as [(res & w2 & H1 & H2)|[(e & H1 & ->)|(H1 & ->)]].
  - apply read_all_spec in H1 as (Hfs & Hds & Hcalls & Hcase); [|done]. simpl in *.
    destruct Hcase as [(new & reads & [= ->] & Hlen & Htr & Hlenr & Freads)
                      |(fs & evs & i & name & [= ->] & Htr & Fevs & Hnone)].
    + simpl in H2. assert (length new = length cam_specs) as Hlen'.
      { rewrite Hlen. unfold keys in Hkeys.
        by rewrite <- (length_fmap fst cam_readers), Hkeys, length_fmap. }
      destruct (store_frames_emits _ _ _ _ _ _ _ _ _ _ _ H2) as [(stores & Hst & Fst) _].
      apply store_frames_spec in H2 as (vws & Hinv' & Hc & ->); [|done..].
      split; [lia|]. right. exists (calls w2), vws. split_and!; [lia..|done| |done].
      exists reads, stores. split_and!; [|done..].
      rewrite Hst, Htr. simpl. by rewrite <- app_assoc.
    + simpl in H2. injection H2 as <- <-. split; [lia|]. left.
      split_and!; [done..|]. by exists evs, i, name.
  - apply read_all_spec in H1 as (_ & _ & _ & [(? & ? & ? & _)|(? & ? & ? & ? & ? & _)]); done.
  - apply read_all_spec in H1 as (_ & _ & _ & [(? & ? & ? & _)|(? & ? & ? & ? & ? & _)]); done.
Qed.

Lemma new_episode_inv cam_specs ep_name :
  episode_inv cam_specs ep_name (new_episode cam_specs).
Proof.
  unfold episode_inv, new_episode. simpl. split_and!.
  - unfold keys. rewrite <- list_fmap_compose. by rewrite list_fmap_id.
  - done.
  - apply Forall_fmap, Forall_forall. by intros name _.
  - intros i row Hi. by rewrite lookup_nil in Hi.
Qed.

Lemma stamped_at_later h start_t ks st w w' :
  (calls w <= calls w')%nat -> stamped_at h start_t ks st w -> stamped_at h start_t ks st w'.
Proof.
  intros Hle (Hts & Hord & Hlt). split_and!; [done..|].
  eapply Forall_impl; [exact Hlt|]. simpl. intros k Hk. lia.
Qed.

Lemma stamped_at_next h start_t ks st w w' k vws :
  (calls w < k < calls w')%nat -> stamped_at h start_t ks st w ->
  stamped_at h start_t (ks ++ [k])
    {| rows := rows st ++ [{| timestamp := (time_time h k - start_t)%Q;
                              frame := frame_count st |}];
       vw_writers := vws;
       frame_count := frame_count st + 1 |} w'.
Proof.
  intros Hk (Hts & Hord & Hlt). split_and!.
  - simpl. rewrite !fmap_app. simpl. by rewrite Hts.
  - intros i j ki kj Hi Hj Hij.
    assert (j < length (ks ++ [k]))%nat as Hjlen by (by eapply lookup_lt_Some).
    rewrite length_app in Hjlen. simpl in Hjlen.
    rewrite lookup_app_l in Hi by lia.
    destruct (decide (j < length ks)%nat) as [Hj'|Hj'].
    + rewrite lookup_app_l in Hj by done. by eapply Hord.
    + rewrite lookup_app_r in Hj by lia.
      replace (j - length ks)%nat with 0%nat in Hj by lia.
      injection Hj as <-.
      eapply Forall_forall in Hlt; [|by eapply list_elem_of_lookup_2]. simpl in Hlt. lia.
  - apply Forall_app. split.
    + eapply Forall_impl; [exact Hlt|]. simpl. intros k' Hk'. lia.
    + repeat constructor. lia.
Qed.

(** What every state of the loop satisfies. *)
Lemma loop_state_inv n h args cam_specs cam_readers ep_name start_t st0 w0 ks0 st w :
  cameras_ready cam_specs cam_readers ->
  episode_inv cam_specs ep_name st0 ->
  stamped_at h start_t ks0 st0 w0 ->
  loop_state n h args cam_specs cam_readers ep_name start_t st0 w0 = Some (st, w) ->
  episode_inv cam_specs ep_name st /\ exists ks, stamped_at h start_t ks st w.
Proof.
  intros Hready. revert st0 w0 ks0.
  induction n as [|n IH]; intros st0 w0 ks0 Hinv Hst; simpl.
  - intros [= <- <-]. eauto.
  - destruct (frame_count st0 <? max_frames args); [|discriminate].
    destruct (tick h args cam_specs cam_readers ep_name start_t st0 w0)
      as [[[flow st1]|e|] w1] eqn:Htick; try discriminate.
    apply tick_spec in Htick as (Hc & [(Hr & _)|(k & vws & Hk & Hinv' & _ & Hr)]);
      [| |done..].
    + injection Hr as -> ->. apply (IH st0 w1 ks0); [done|].
      eapply stamped_at_later; [|exact Hst]. lia.
    + cbv zeta in Hr, Hinv'.
      assert (stamped_at h start_t (ks0 ++ [k]) st1 w1 /\ episode_inv cam_specs ep_name st1)
        as [Hst1 Hinv1].
      { destruct (min_frames args <=? frame_count st0 + 1);
          [|destruct (fps args =? 0); [done|]];
          injection Hr as _ ->; (split; [by eapply stamped_at_next|done]). }
      destruct flow.
      * by apply (IH st1 w1 (ks0 ++ [k])).
      * destruct n; [|discriminate]. intros [= <- <-]. eauto.
      * by apply (IH st1 w1 (ks0 ++ [k])).
Qed.

Lemma dict_get_key {V} name (d : dict V) :
  name ∈ keys d -> exists v, dict_get name d = Some v /\ (name, v) ∈ d.
Proof.
  unfold keys. induction d as [|[k v] d IH]; csimpl; intros Hin.
  - by apply elem_of_nil in Hin.
  - destruct (decide (k = name)) as [->|Hne].
    + exists v. split; [done|left].
    + apply elem_of_cons in Hin as [->|Hin]; [done|].
      destruct (IH Hin) as (v' & Hget & Hel). exists v'. split; [done|by right].
Qed.

Lemma frames_written_rows cam_specs ep_name st name :
  episode_inv cam_specs ep_name st -> name ∈ keys cam_specs ->
  frames_written name st = length (rows st).
Proof.
  intros (Hk & _ & Hw & _) Hname. rewrite <- Hk in Hname.
  destruct (dict_get_key _ _ Hname) as (v & Hget & Hel).
  unfold frames_written. rewrite Hget.
  eapply Forall_forall in Hw; [|exact Hel].
  destruct v as [vw|]; unfold writer_synced in Hw; simpl in Hw.
  - destruct Hw as (vw' & [= <-] & _ & Hlen). done.
  - done.
Qed.

Lemma stamped_at_nil h start_t cam_specs w :
  stamped_at h start_t [] (new_episode cam_specs) w.
Proof.
  split_and!; [done| |constructor]. intros i j ki kj Hi. by rewrite lookup_nil in Hi.
Qed.

(** What a tick with a failed read looks like, whatever state it starts in. *)
Lemma failed_tick h args cam_specs cam_readers ep_name start_t st w r w' evs i :
  cameras_ready cam_specs cam_readers ->
  episode_inv cam_specs ep_name st ->
  tick h args cam_specs cam_readers ep_name start_t st w = (r, w') ->
  trace w' = trace w ++ evs -> EvCapRead i false ∈ evs ->
  r = Ok (FlowContinue, st) /\ files w' = files w /\ dirs w' = dirs w /\
  exists reads i' name,
    evs = reads ++ [EvCapRead i' false; EvPrint (MsgReadFailed name)] /\
    Forall (fun e => exists j, e = EvCapRead j true) reads.
Proof.
  intros Hready Hinv Htick Htr Hin.
  apply tick_spec in Htick
    as (_ & [(-> & Hfs & Hds & reads & i' & name & Htr' & Freads & _)
            |(k & vws & _ & _ & (reads & stores & Htr' & _ & Freads & Fstores) & _)]);
    [| |done..].
  - split_and!; [done..|]. exists reads, i', name. split; [|done].
    rewrite Htr in Htr'. by apply app_inv_head in Htr'.
  - exfalso. rewrite Htr in Htr'. apply app_inv_head in Htr' as ->.
    apply elem_of_app in Hin as [Hin|Hin].
    + eapply Forall_forall in Freads; [|exact Hin]. by destruct Freads as (j & [=]).
    + eapply Forall_forall in Fstores; [|exact Hin]. destruct Fstores.
Qed.

(** C4.  At every state of the loop of an episode -- at the [while], after
    any number of passes, after the [break] -- every configured camera has
    been given exactly as many frames as there are rows in the buffer.  And
    a tick from such a state in which some read fails returns the state as
    it was (no row, no frame, the same [frame_count]), leaves the files
    alone and writes to no video writer. *)
Theorem failed_tick_discarded_videos_match_rows n h args cam_specs cam_readers ep_name
  start_t w0 st w :
  cameras_ready cam_specs cam_readers ->
  loop_state n h args cam_specs cam_readers ep_name start_t (new_episode cam_specs) w0
  = Some (st, w) ->
  (forall name, name ∈ keys cam_specs -> frames_written name st = length (rows st)) /\
  (forall r w' evs i,
      tick h args cam_specs cam_readers ep_name start_t st w = (r, w') ->
      trace w' = trace w ++ evs -> EvCapRead i false ∈ evs ->
      r = Ok (FlowContinue, st) /\ files w' = files w /\
      forall p, EvVwWrite p ∉ evs).
Proof.
  intros Hready Hloop.
  eapply loop_state_inv in Hloop as [Hinv _];
    [|done|apply new_episode_inv|apply stamped_at_nil].
  split.
  - intros name Hname. by eapply frames_written_rows.
  - intros r w' evs i Htick Htr Hin.
    destruct (failed_tick _ _ _ _ _ _ _ _ _ _ _ _ Hready Hinv Htick Htr Hin)
      as (-> & Hfs & _ & reads & i' & name & -> & Freads).
    split_and!; [done..|]. intros p Hp.
    apply elem_of_app in Hp as [Hp|Hp].
    + eapply Forall_forall in Freads; [|exact Hp]. by destruct Freads as (j & [=]).
    + apply elem_of_cons in Hp as [[=]|Hp]. apply elem_of_cons in Hp as [[=]|Hp].
      by apply elem_of_nil in Hp.
Qed.

Lemma reaches_some {A} (x : option A) :
  (if x is Some _ then true else false) = true -> exists a, x = Some a.
Proof. destruct x; [eauto|discriminate]. Qed.

Lemma two_cameras_ready : cameras_ready two_specs two_readers.
Proof.
  split_and!.
  - apply (bool_decide_unpack _). vm_compute. exact I.
  - reflexivity.
  - repeat constructor.
Qed.

Lemma front_camera_ready : cameras_ready front_specs front_readers.
Proof.
  split_and!.
  - apply (bool_decide_unpack _). vm_compute. exact I.
  - reflexivity.
  - repeat constructor.
Qed.

Lemma failed_tick_discarded_videos_match_rows_witness :
  exists st w,
    loop_state 4 flaky_host default_args two_specs two_readers "episode_000000" 0
      (new_episode two_specs) empty_world = Some (st, w) /\
    (forall name, name ∈ keys two_specs -> frames_written name st = length (rows st)) /\
    (forall r w' evs i,
        tick flaky_host default_args two_specs two_readers "episode_000000" 0 st w = (r, w') ->
        trace w' = trace w ++ evs -> EvCapRead i false ∈ evs ->
        r = Ok (FlowContinue, st) /\ files w' = files w /\
        forall p, EvVwWrite p ∉ evs).
Proof.
  destruct (reaches_some
              (loop_state 4 flaky_host default_args two_specs two_readers "episode_000000" 0
                 (new_episode two_specs) empty_world)) as [[st w] Hloop];
    [vm_compute; reflexivity|].
  exists st, w. split; [exact Hloop|].
  apply (failed_tick_discarded_videos_match_rows 4 flaky_host default_args two_specs
           two_readers "episode_000000" 0 empty_world).
  - exact two_cameras_ready.
  - exact Hloop.
Defined.

(** In that run the second and the fourth pass lose a frame of one camera:
    after four passes there are two rows. *)
Example flaky_run_rows :
  (fun x => length (rows (fst x)))
    <$> loop_state 4 flaky_host default_args two_specs two_readers "episode_000000" 0
          (new_episode two_specs) empty_world = Some 2%nat.
Proof. vm_compute. reflexivity. Qed.

Lemma tick_starts_with_read h args cam_specs cam_readers ep_name start_t st w r w' :
  cameras_ready cam_specs cam_readers -> cam_specs <> [] ->
  episode_inv cam_specs ep_name st ->
  tick h args cam_specs cam_readers ep_name start_t st w = (r, w') ->
  exists i ok rest, trace w' = trace w ++ EvCapRead i ok :: rest.
Proof.
  intros Hready Hne Hinv Htick.
  assert (length cam_readers <> 0%nat) as Hlen.
  { destruct Hready as (_ & Hk & _). unfold keys in Hk.
    rewrite <- (length_fmap fst cam_readers), Hk, length_fmap. by destruct cam_specs. }
  apply tick_spec in Htick
    as (_ & [(_ & _ & _ & reads & i & name & Htr & Freads & _)
            |(k & vws & _ & _ & (reads & stores & Htr & Hlr & Freads & _) & _)]);
    [| |done..].
  - destruct Freads as [|e reads (j & ->) _].
    + by exists i, false, [EvPrint (MsgReadFailed name)].
    + by exists j, true, (reads ++ [EvCapRead i false; EvPrint (MsgReadFailed name)]).
  - destruct Freads as [|e reads (j & ->) _]; [simpl in Hlr; congruence|].
    by exists j, true, (reads ++ stores).
Qed.

(** C9.  A tick, from any state of the loop, in which some read fails ends
    with the failed read and its message: it performs no sleep, and it
    hands the loop the state it was given, so that the loop enters its body
    again at once -- and that next pass begins with a read. *)
Theorem failed_tick_skips_pacing n h args cam_specs cam_readers ep_name start_t w0 st w :
  cameras_ready cam_specs cam_readers ->
  loop_state n h args cam_specs cam_readers ep_name start_t (new_episode cam_specs) w0
  = Some (st, w) ->
  forall r w' evs i,
    tick h args cam_specs cam_readers ep_name start_t st w = (r, w') ->
    trace w' = trace w ++ evs -> EvCapRead i false ∈ evs ->
    r = Ok (FlowContinue, st) /\
    (forall dt, EvSleep dt ∉ evs) /\
    (exists reads i' name,
        evs = reads ++ [EvCapRead i' false; EvPrint (MsgReadFailed name)] /\
        Forall (fun e => exists j, e = EvCapRead j true) reads) /\
    (forall r2 w2,
        tick h args cam_specs cam_readers ep_name start_t st w' = (r2, w2) ->
        cam_specs <> [] ->
        exists i2 ok rest, trace w2 = trace w' ++ EvCapRead i2 ok :: rest).
Proof.
  intros Hready Hloop r w' evs i Htick Htr Hin.
  eapply loop_state_inv in Hloop as [Hinv _];
    [|done|apply new_episode_inv|apply stamped_at_nil].
  destruct (failed_tick _ _ _ _ _ _ _ _ _ _ _ _ Hready Hinv Htick Htr Hin)
    as (-> & _ & _ & reads & i' & name & -> & Freads).
  split_and!; [done| |by eauto|].
  - intros dt Hdt. apply elem_of_app in Hdt as [Hdt|Hdt].
    + eapply Forall_forall in Freads; [|exact Hdt]. by destruct Freads as (j & [=]).
    + apply elem_of_cons in Hdt as [[=]|Hdt]. apply elem_of_cons in Hdt as [[=]|Hdt].
      by apply elem_of_nil in Hdt.
  - intros r2 w2 Htick2 Hne. by eapply tick_starts_with_read.
Qed.

Lemma failed_tick_skips_pacing_witness :
  exists st w,
    loop_state 1 flaky_host default_args two_specs two_readers "episode_000000" 0
      (new_episode two_specs) empty_world = Some (st, w) /\
    forall r w' evs i,
      tick flaky_host default_args two_specs two_readers "episode_000000" 0 st w = (r, w') ->
      trace w' = trace w ++ evs -> EvCapRead i false ∈ evs ->
      r = Ok (FlowContinue, st) /\
      (forall dt, EvSleep dt ∉ evs) /\
      (exists reads i' name,
          evs = reads ++ [EvCapRead i' false; EvPrint (MsgReadFailed name)] /\
          Forall (fun e => exists j, e = EvCapRead j true) reads) /\
      (forall r2 w2,
          tick flaky_host default_args two_specs two_readers "episode_000000" 0 st w'
          = (r2, w2) ->
          two_specs <> [] ->
          exists i2 ok rest, trace w2 = trace w' ++ EvCapRead i2 ok :: rest).
Proof.
  destruct (reaches_some
              (loop_state 1 flaky_host default_args two_specs two_readers "episode_000000" 0
                 (new_episode two_specs) empty_world)) as [[st w] Hloop];
    [vm_compute; reflexivity|].
  exists st, w. split; [exact Hloop|].
  apply (failed_tick_skips_pacing 1 flaky_host default_args two_specs two_readers
           "episode_000000" 0 empty_world).
  - exact two_cameras_ready.
  - exact Hloop.
Defined.

(** In that run the pass after the first one fails at the second camera:
    it adds a read of each camera and the message to the trace, and
    nothing else. *)
Example flaky_run_second_pass :
  (fun x => drop 6 (trace (snd x)))
    <$> loop_state 2 flaky_host default_args two_specs two_readers "episode_000000" 0
          (new_episode two_specs) empty_world
  = Some [EvCapRead 0 true; EvCapRead 2 false; EvPrint (MsgReadFailed "wrist")].
Proof. vm_compute. reflexivity. Qed.

(** ** Rows *)

Lemma stamped_at_increasing h start_t ks st w :
  stamped_at h start_t ks st w ->
  (forall k k', (k < k')%nat -> (time_time h k < time_time h k')%Q) ->
  forall i j ri rj,
    (i < j)%nat -> rows st !! i = Some ri -> rows st !! j = Some rj ->
    (timestamp ri < timestamp rj)%Q.
Proof.
  intros (Hts & Hord & _) Hclock i j ri rj Hij Hi Hj.
  assert ((timestamp <$> rows st) !! i = Some (timestamp ri)) as Hi'
    by (by rewrite list_lookup_fmap, Hi).
  assert ((timestamp <$> rows st) !! j = Some (timestamp rj)) as Hj'
    by (by rewrite list_lookup_fmap, Hj).
  rewrite Hts, list_lookup_fmap in Hi', Hj'.
  destruct (ks !! i) as [ki|] eqn:Hki; [|done].
  destruct (ks !! j) as [kj|] eqn:Hkj; [|done].
  simpl in Hi', Hj'. injection Hi' as <-. injection Hj' as <-.
  unfold Qminus. apply Qplus_lt_l. apply Hclock. by eapply Hord.
Qed.

(** C7, as the code has it.  At every state of the loop the [i]-th row of
    the buffer carries frame index [i].  The timestamps are differences of
    wall-clock readings, so they increase strictly wherever the clock does:
    if every reading of the clock is larger than the ones before it, the
    timestamps of the rows increase strictly. *)
Theorem rows_indexed_and_stamped n h args cam_specs cam_readers ep_name start_t w0 st w :
  cameras_ready cam_specs cam_readers ->
  loop_state n h args cam_specs cam_readers ep_name start_t (new_episode cam_specs) w0
  = Some (st, w) ->
  (forall i row, rows st !! i = Some row -> frame row = Z.of_nat i) /\
  ((forall k k', (k < k')%nat -> (time_time h k < time_time h k')%Q) ->
   forall i j ri rj,
     (i < j)%nat -> rows st !! i = Some ri -> rows st !! j = Some rj ->
     (timestamp ri < timestamp rj)%Q).
Proof.
  intros Hready Hloop.
  eapply loop_state_inv in Hloop as [(_ & _ & _ & Hidx) (ks & Hst)];
    [|done|apply new_episode_inv|apply stamped_at_nil].
  split; [done|]. intros Hclock. by eapply stamped_at_increasing.
Qed.

Lemma steady_clock_increases k k' :
  (k < k')%nat -> (time_time steady_host k < time_time steady_host k')%Q.
Proof. intros Hk. unfold Qlt. simpl. lia. Qed.

Lemma rows_indexed_and_stamped_witness :
  exists st w,
    loop_state 3 steady_host default_args two_specs two_readers "episode_000000" 0
      (new_episode two_specs) empty_world = Some (st, w) /\
    (forall i row, rows st !! i = Some row -> frame row = Z.of_nat i) /\
    (forall i j ri rj,
        (i < j)%nat -> rows st !! i = Some ri -> rows st !! j = Some rj ->
        (timestamp ri < timestamp rj)%Q).
Proof.
  destruct (reaches_some
              (loop_state 3 steady_host default_args two_specs two_readers "episode_000000" 0
                 (new_episode two_specs) empty_world)) as [[st w] Hloop];
    [vm_compute; reflexivity|].
  exists st, w. split; [exact Hloop|].
  destruct (rows_indexed_and_stamped 3 steady_host default_args two_specs two_readers
              "episode_000000" 0 empty_world st w two_cameras_ready Hloop)
    as [Hidx Hts].
  split; [exact Hidx|]. apply Hts. exact steady_clock_increases.
Defined.

Example steady_run_rows :
  (fun x => rows (fst x))
    <$> loop_state 3 steady_host default_args two_specs two_readers "episode_000000" 0
          (new_episode two_specs) empty_world
  = Some [{| timestamp := (3 # 100) - 0; frame := 0 |};
          {| timestamp := (8 # 100) - 0; frame := 1 |};
          {| timestamp := (13 # 100) - 0; frame := 2 |}].
Proof. vm_compute. reflexivity. Qed.

(** Against C7 as stated: one camera, 30 fps, two frames asked for.  The
    first capture takes 50 ms, so no pacing sleep follows it, and the clock
    shows the same reading when the second row is stamped: the table of the
    episode holds two rows with equal timestamps. *)
Lemma stalled_clock_repeats_timestamp :
  let out := record_dataset 5 stalling_host two_frames_args empty_world in
  fst out = Ok tt /\
  (forall dt, EvSleep dt ∉ trace (snd out)) /\
  exists r0 r1,
    files (snd out) !! parquet_path "episode_000000" = Some [Table [r0; r1]] /\
    frame r0 = 0 /\ frame r1 = 1 /\
    ~ (timestamp r0 < timestamp r1)%Q.
Proof.
  cbv zeta. split_and!.
  - vm_compute. reflexivity.
  - intros dt.
    assert (Forall (fun e => match e with EvSleep _ => False | _ => True end)
              (trace (snd (record_dataset 5 stalling_host two_frames_args empty_world))))
      as Hall by (vm_compute; repeat constructor).
    intros Hin. eapply Forall_forall in Hall; [|exact Hin]. exact Hall.
  - eexists _, _. split_and!; [vm_compute; reflexivity|reflexivity|reflexivity|].
    unfold Qlt. simpl. lia.
Qed.

(** ** Cameras that never deliver *)

Lemma tick_dead h args cam_specs cam_readers ep_name start_t st w :
  cameras_ready cam_specs cam_readers -> cam_specs <> [] -> all_reads_fail h ->
  exists w', tick h args cam_specs cam_readers ep_name start_t st w
             = (Ok (FlowContinue, st), w') /\
             files w' = files w /\ dirs w' = dirs w /\ emits reading_event w w'.
Proof.
  intros (_ & Hk & Hop) Hne Hfail.
  destruct cam_readers as [|[name rd] rest].
  { destruct cam_specs; [done|discriminate]. }
  apply Forall_cons in Hop as [Hrd _]. simpl in Hrd.
  unfold tick.
  rewrite (bind_Ok _ _ _ _ _ (eq_refl : observe (time_time h) w = (_, tick_calls w))).
  rewrite (bind_Ok _ _ _ _ _ (read_all_first_fails h name rd rest [] _ Hrd (Hfail _ _))).
  simpl. eexists. split_and!; [reflexivity|done..|].
  exists [EvCapRead (index rd) false; EvPrint (MsgReadFailed name)]. split.
  - simpl. by rewrite <- app_assoc.
  - repeat constructor.
Qed.

Lemma episode_loop_dead fuel h args cam_specs cam_readers ep_name start_t st w :
  cameras_ready cam_specs cam_readers -> cam_specs <> [] -> all_reads_fail h ->
  frame_count st < max_frames args ->
  exists w',
    episode_loop fuel h args cam_specs cam_readers ep_name start_t st w = (Running, w') /\
    loop_state fuel h args cam_specs cam_readers ep_name start_t st w = Some (st, w') /\
    files w' = files w /\ dirs w' = dirs w /\ emits reading_event w w'.
Proof.
  intros Hready Hne Hfail Hlt. apply Z.ltb_lt in Hlt.
  revert w. induction fuel as [|fuel IH]; intros w; simpl; rewrite Hlt.
  - exists w. split_and!; [done..|apply emits_refl].
  - destruct (tick_dead h args cam_specs cam_readers ep_name start_t st w Hready Hne Hfail)
      as (w1 & Htick & Hfs & Hds & Hem).
    rewrite (bind_Ok _ _ _ _ _ Htick), Htick.
    destruct (IH w1) as (w' & Hloop & Hstate & Hfs' & Hds' & Hem').
    exists w'. split_and!; [done..|congruence|congruence|by eapply emits_trans].
Qed.

Lemma run_episode_dead fuel h args cam_specs cam_readers ep w :
  cameras_ready cam_specs cam_readers -> cam_specs <> [] -> all_reads_fail h ->
  0 < max_frames args ->
  exists w', run_episode fuel h args cam_specs cam_readers ep w = (Running, w') /\
             files w' = files w /\ dirs w' = dirs w.
Proof.
  intros Hready Hne Hfail Hmax. unfold run_episode, bind, emit, observe. simpl.
  match goal with
  | |- context [episode_loop fuel h args cam_specs cam_readers ?n ?t ?s ?w1] =>
      destruct (episode_loop_dead fuel h args cam_specs cam_readers n t s w1
                  Hready Hne Hfail Hmax) as (w' & -> & _ & Hfs & Hds & _)
  end.
  by exists w'.
Qed.

Lemma open_cameras_all_open h args cam_specs cam_readers w :
  (forall k i, isOpened h k i = true) ->
  exists rs w', open_cameras h args cam_specs cam_readers w = (Ok rs, w').
Proof.
  intros Hopen. revert cam_readers w.
  induction cam_specs as [|[name idx] rest IH]; intros cam_readers w; simpl.
  - by eexists _, _.
  - unfold bind at 1. unfold reader_open, bind, observe, emit. simpl.
    rewrite Hopen. simpl. apply IH.
Qed.

Lemma open_cameras_ready h args cam_specs w cam_readers w' :
  NoDup (keys cam_specs) ->
  open_cameras h args cam_specs [] w = (Ok cam_readers, w') ->
  cameras_ready cam_specs cam_readers.
Proof.
  intros Hnd Hopen. apply open_cameras_Ok in Hopen as [Hk Ho]; [|done|constructor].
  by split_and!.
Qed.

(** With cameras that open and never deliver, a run with at least one
    episode to record and a positive frame budget prepares the output,
    opens the cameras, and is still in the loop of its first episode after
    any number of passes. *)
Lemma record_dataset_dead fuel h args w :
  (exists cam_specs, parse_cameras h args w = (Ok cam_specs, w)) ->
  (forall k i, isOpened h k i = true) -> all_reads_fail h ->
  0 < episodes args -> 0 < max_frames args ->
  exists w', record_dataset fuel h args w = (Running, w') /\
             files w' = prepared_files args w.
Proof.
  intros (cam_specs & Hparse) Hopen Hfail Heps Hmax.
  destruct (parse_cameras_Ok _ _ _ _ _ Hparse) as (_ & Hnd & Hne).
  destruct (prepare_output_spec args cam_specs w Hne) as (w1 & Hprep & _ & Hfs1 & _).
  destruct (open_cameras_all_open h args cam_specs [] w1 Hopen) as (rs & w2 & Hcams).
  pose proof (open_cameras_ready _ _ _ _ _ _ Hnd Hcams) as Hready.
  apply open_cameras_only in Hcams as Hw2. destruct Hw2 as [(_ & Hfs2 & _) _].
  unfold record_dataset.
  rewrite (bind_Ok _ _ _ _ _ Hparse), (bind_Ok _ _ _ _ _ Hprep), (bind_Ok _ _ _ _ _ Hcams).
  destruct (Z.to_nat (episodes args)) as [|m] eqn:Hm; [lia|].
  simpl. destruct (run_episode_dead fuel h args cam_specs rs 0%nat w2 Hready Hne Hfail Hmax)
    as (w' & Hrun & Hfs & _).
  exists w'. unfold try_finally, bind. rewrite Hrun. split; [done|congruence].
Qed.

(** C1, as the code has it.  With at least one camera, a positive frame
    budget and cameras that deliver nothing, the loop of an episode is
    never left: after any number of passes it is still running in its
    initial state -- no row, no video writer, [frame_count] 0 -- and so is
    the episode, which has written no file: no table, no record in
    [episodes.jsonl] or [episodes_stats.jsonl]. *)
Theorem dead_cameras_never_finish fuel h args cam_specs cam_readers ep w :
  cameras_ready cam_specs cam_readers -> cam_specs <> [] -> all_reads_fail h ->
  0 < max_frames args ->
  (forall start_t w1, exists w',
      episode_loop fuel h args cam_specs cam_readers (_make_episode_name ep) start_t
        (new_episode cam_specs) w1 = (Running, w') /\
      loop_state fuel h args cam_specs cam_readers (_make_episode_name ep) start_t
        (new_episode cam_specs) w1 = Some (new_episode cam_specs, w') /\
      files w' = files w1) /\
  exists w', run_episode fuel h args cam_specs cam_readers ep w = (Running, w') /\
             files w' = files w.
Proof.
  intros Hready Hne Hfail Hmax. split.
  - intros start_t w1.
    destruct (episode_loop_dead fuel h args cam_specs cam_readers (_make_episode_name ep)
                start_t (new_episode cam_specs) w1 Hready Hne Hfail Hmax)
      as (w' & Hloop & Hstate & Hfs & _).
    by exists w'.
  - destruct (run_episode_dead fuel h args cam_specs cam_readers ep w Hready Hne Hfail Hmax)
      as (w' & Hrun & Hfs & _).
    by exists w'.
Qed.

Lemma dead_host_fails : all_reads_fail dead_host.
Proof. by intros k i. Qed.

Lemma dead_cameras_never_finish_witness :
  (forall start_t w1, exists w',
      episode_loop 7 dead_host default_args front_specs front_readers
        (_make_episode_name 0) start_t (new_episode front_specs) w1 = (Running, w') /\
      loop_state 7 dead_host default_args front_specs front_readers
        (_make_episode_name 0) start_t (new_episode front_specs) w1
      = Some (new_episode front_specs, w') /\
      files w' = files w1) /\
  exists w', run_episode 7 dead_host default_args front_specs front_readers 0 empty_world
             = (Running, w') /\
             files w' = files empty_world.
Proof.
  apply (dead_cameras_never_finish 7 dead_host default_args front_specs front_readers
           0 empty_world).
  - exact front_camera_ready.
  - discriminate.
  - exact dead_host_fails.
  - vm_compute. reflexivity.
Defined.

(** Against C1 as stated: the recorder with its default arguments (one
    camera, 30 fps, 10 s) and a camera that opens but never delivers.
    However many passes the loop is given, the run has not returned, and
    neither the table of the first episode nor a record in
    [episodes.jsonl] or [episodes_stats.jsonl] exists. *)
Lemma dead_camera_run_hangs :
  all_reads_fail dead_host /\
  forall fuel, exists w',
    record_dataset fuel dead_host default_args empty_world = (Running, w') /\
    files w' !! parquet_path (_make_episode_name 0) = None /\
    files w' !! episodes_jsonl = None /\
    files w' !! episodes_stats_jsonl = None.
Proof.
  split; [exact dead_host_fails|]. intros fuel.
  destruct (record_dataset_dead fuel dead_host default_args empty_world)
    as (w' & Hrun & Hfs).
  - by eexists.
  - done.
  - exact dead_host_fails.
  - done.
  - vm_compute. reflexivity.
  - exists w'. rewrite Hfs. split; [done|]. by vm_compute.
Qed.

(** ** Cameras that always deliver *)

Lemma max_frames_fps0 args : fps args = 0 -> max_frames args = 0.
Proof.
  intros Hfps. unfold max_frames. rewrite Hfps.
  change (round_double (inject_Z 0)) with 0%Q.
  unfold round_double, fl. cbn [Qnum Qmult]. by rewrite Z.mul_0_r.
Qed.

(** The rounding, on the floats [0.1] and [1/30], at a tie ([2^53 + 1]
    lies halfway between two doubles), at the largest double and beyond
    it, and below the smallest. *)
Example fl_values :
  fl (1 # 10) = S754_finite false 7205759403792794 (-56) /\
  fl (1 # 30) = S754_finite false 4803839602528529 (-57) /\
  round_double (inject_Z (2 ^ 53 + 1)) = (inject_Z (2 ^ 52) * 2 ^ 1)%Q /\
  overflows (inject_Z (2 ^ 1024 - 2 ^ 970 - 1)) = false /\
  overflows (inject_Z (2 ^ 1024 - 2 ^ 970)) = true /\
  fl (1 # 2 ^ 1074) = S754_finite false 1 (-1074) /\
  fl (1 # 2 ^ 1075) = S754_zero false.
Proof. split_and!; vm_compute; reflexivity. Qed.

(** The frame budget is the ceiling of the float product, not of the exact
    one: [--duration 0.1] is the float just above 1/10, and its product
    with 30 rounds to the float 3. *)
Example float_budgets :
  let tenth := round_double (1 # 10) in
  max_frames (with_budget tenth 30 default_args) = 3 /\
  Qceiling (tenth * 30) = 4 /\
  max_frames (with_budget tenth 10 default_args) = 1 /\
  max_frames (with_budget (round_double (22 # 10)) 30 default_args) = 66 /\
  max_frames default_args = 300 /\
  budget_in_range default_args.
Proof.
  cbv zeta. split_and!; [vm_compute; reflexivity..|].
  split; split; vm_compute; discriminate.
Qed.

Lemma tick_all_succeed h args cam_specs cam_readers ep_name start_t st w r w' :
  cameras_ready cam_specs cam_readers -> all_reads_succeed h ->
  episode_inv cam_specs ep_name st -> frame_count st < max_frames args ->
  tick h args cam_specs cam_readers ep_name start_t st w = (r, w') ->
  exists st',
    episode_inv cam_specs ep_name st' /\ frame_count st' = frame_count st + 1 /\
    r = Ok (if min_frames args <=? frame_count st + 1 then FlowBreak else FlowNext, st').
Proof.
  intros Hready Hok Hinv Hlt Htick.
  apply tick_spec in Htick
    as (_ & [(_ & _ & _ & reads & i & name & _ & _ & k & Hnone)
            |(k & vws & _ & Hinv' & _ & ->)]); [| |done..].
  - by destruct (Hok k i).
  - eexists. split_and!; [exact Hinv'|done|].
    destruct (min_frames args <=? frame_count st + 1); [done|].
    destruct (fps args =? 0) eqn:Hfps; [|done].
    apply Z.eqb_eq, max_frames_fps0 in Hfps.
    destruct Hinv as (_ & Hc & _). lia.
Qed.

Lemma episode_loop_all_succeed fuel h args cam_specs cam_readers ep_name start_t st w :
  cameras_ready cam_specs cam_readers -> all_reads_succeed h ->
  episode_inv cam_specs ep_name st ->
  (Z.to_nat (max_frames args - frame_count st) <= fuel)%nat ->
  exists st' w',
    episode_loop fuel h args cam_specs cam_readers ep_name start_t st w = (Ok st', w') /\
    frame_count st' =
      (if frame_count st <? max_frames args
       then Z.min (Z.max (min_frames args) (frame_count st + 1)) (max_frames args)
       else frame_count st).
Proof.
  intros Hready Hok. revert st w.
  induction fuel as [|fuel IH]; intros st w Hinv Hfuel; simpl.
  - destruct (Z.ltb_spec (frame_count st) (max_frames args)); [lia|]. by eexists _, _.
  - destruct (Z.ltb_spec (frame_count st) (max_frames args)) as [Hlt|Hge];
      [|by eexists _, _].
    destruct (tick h args cam_specs cam_readers ep_name start_t st w) as [r w1] eqn:Htick.
    destruct (tick_all_succeed _ _ _ _ _ _ _ _ _ _ Hready Hok Hinv Hlt Htick)
      as (st1 & Hinv1 & Hc1 & ->).
    rewrite (bind_Ok _ _ _ _ _ Htick).
    destruct (Z.leb_spec (min_frames args) (frame_count st + 1)) as [Hmin|Hmin].
    + exists st1, w1. split; [done|]. lia.
    + destruct (IH st1 w1 Hinv1) as (st' & w' & Hloop & Hfc); [lia|].
      exists st', w'. split; [done|]. rewrite Hfc, Hc1.
      destruct (Z.ltb_spec (frame_count st + 1) (max_frames args)); lia.
Qed.

(** C3, as the code has it.  When every read delivers, the loop of an
    episode is left, after at most [max_frames] passes, with
    [frame_count = min (max min_frames 1) (max max_frames 0)]: the test
    against [min_frames] comes after the first frame is counted, and a
    negative budget still leaves the count at 0.  This is
    [min min_frames max_frames] when [1 <= min_frames] and
    [0 <= max_frames].  Here [max_frames] is the budget as the code
    computes it, the ceiling of the float product, for a frame rate and a
    product within [2^53]. *)
Theorem all_reads_succeed_frame_count fuel h args cam_specs cam_readers ep_name start_t w :
  cameras_ready cam_specs cam_readers -> all_reads_succeed h ->
  budget_in_range args ->
  (Z.to_nat (max_frames args) <= fuel)%nat ->
  exists st' w',
    episode_loop fuel h args cam_specs cam_readers ep_name start_t
      (new_episode cam_specs) w = (Ok st', w') /\
    frame_count st' = Z.min (Z.max (min_frames args) 1) (Z.max (max_frames args) 0) /\
    (1 <= min_frames args -> 0 <= max_frames args ->
     frame_count st' = Z.min (min_frames args) (max_frames args)).
Proof.
  intros Hready Hok _ Hfuel.
  destruct (episode_loop_all_succeed fuel h args cam_specs cam_readers ep_name start_t
              (new_episode cam_specs) w Hready Hok (new_episode_inv _ _))
    as (st' & w' & Hloop & Hfc).
  { simpl. by rewrite Z.sub_0_r. }
  exists st', w'. simpl in Hfc. split; [done|].
  destruct (Z.ltb_spec 0 (max_frames args)); lia.
Qed.

Lemma steady_host_delivers : all_reads_succeed steady_host.
Proof. by intros k i. Qed.

Lemma all_reads_succeed_frame_count_witness :
  exists st' w',
    episode_loop 300 steady_host five_frames_args front_specs front_readers
      "episode_000000" 0 (new_episode front_specs) empty_world = (Ok st', w') /\
    frame_count st' = Z.min (Z.max (min_frames five_frames_args) 1)
                            (Z.max (max_frames five_frames_args) 0) /\
    (1 <= min_frames five_frames_args -> 0 <= max_frames five_frames_args ->
     frame_count st' = Z.min (min_frames five_frames_args) (max_frames five_frames_args)).
Proof.
  apply (all_reads_succeed_frame_count 300 steady_host five_frames_args front_specs
           front_readers "episode_000000" 0 empty_world).
  - exact front_camera_ready.
  - exact steady_host_delivers.
  - split; split; vm_compute; discriminate.
  - vm_compute. lia.
Defined.

(** The scenario of the specification: 30 fps, 10 s, [min_frames] 5. *)
Example five_frames_scenario :
  max_frames five_frames_args = 300 /\
  files (snd (record_dataset 300 steady_host five_frames_args empty_world))
    !! episodes_jsonl = Some [Doc (episode_record 0 5)].
Proof. split; vm_compute; reflexivity. Qed.

(** Against C3 as stated ("for all configured values of min_frames"): with
    [--min_frames 0] and a camera that always delivers, the episode is
    recorded with one frame, not with [min 0 300 = 0]. *)
Lemma zero_min_frames_records_one_frame :
  let out := record_dataset 300 steady_host zero_min_args empty_world in
  fst out = Ok tt /\
  files (snd out) !! episodes_jsonl = Some [Doc (episode_record 0 1)] /\
  files (snd out) !! episodes_stats_jsonl = Some [Doc (episode_stats 0 1)] /\
  Z.min (min_frames zero_min_args) (max_frames zero_min_args) = 0.
Proof. cbv zeta. split_and!; vm_compute; reflexivity. Qed.

(** ** The bound on [frame_count] *)

Lemma loop_state_bound n h args cam_specs cam_readers ep_name start_t st0 w0 st w :
  cameras_ready cam_specs cam_readers ->
  episode_inv cam_specs ep_name st0 ->
  frame_count st0 <= Z.max (max_frames args) 0 ->
  loop_state n h args cam_specs cam_readers ep_name start_t st0 w0 = Some (st, w) ->
  0 <= frame_count st <= Z.max (max_frames args) 0.
Proof.
  intros Hready. revert st0 w0.
  induction n as [|n IH]; intros st0 w0 Hinv Hle; simpl.
  - intros [= <- <-]. destruct Hinv as (_ & Hc & _). lia.
  - destruct (Z.ltb_spec (frame_count st0) (max_frames args)) as [Hlt|]; [|discriminate].
    destruct (tick h args cam_specs cam_readers ep_name start_t st0 w0)
      as [[[flow st1]|e|] w1] eqn:Htick; try discriminate.
    assert (episode_inv cam_specs ep_name st1 /\
            frame_count st1 <= Z.max (max_frames args) 0) as [Hinv1 Hle1].
    { apply tick_spec in Htick as (_ & [(Hr & _)|(k & vws & _ & Hinv' & _ & Hr)]);
        [| |done..].
      - by injection Hr as _ ->.
      - cbv zeta in Hr, Hinv'.
        destruct (min_frames args <=? frame_count st0 + 1);
          [|destruct (fps args =? 0); [done|]];
          injection Hr as _ ->; (split; [done|simpl; lia]). }
    destruct flow.
    + by apply IH.
    + destruct n; [|discriminate]. intros [= <- <-].
      destruct Hinv1 as (_ & Hc & _). lia.
    + by apply IH.
Qed.

(** A loop that returns has passed through its states and was left either
    by its bound or by the [break] that follows reaching [min_frames]. *)
Lemma episode_loop_state fuel h args cam_specs cam_readers ep_name start_t st w st' w' :
  cameras_ready cam_specs cam_readers ->
  episode_inv cam_specs ep_name st ->
  episode_loop fuel h args cam_specs cam_readers ep_name start_t st w = (Ok st', w') ->
  exists n, (n <= fuel)%nat /\
            loop_state n h args cam_specs cam_readers ep_name start_t st w = Some (st', w') /\
            (max_frames args <= frame_count st' \/ min_frames args <= frame_count st').
Proof.
  intros Hready. revert st w.
  induction fuel as [|fuel IH]; intros st w Hinv; simpl.
  - destruct (Z.ltb_spec (frame_count st) (max_frames args)); [discriminate|].
    intros [= <- <-]. exists 0%nat. split_and!; [done..|by left].
  - destruct (Z.ltb_spec (frame_count st) (max_frames args)) as [Hlt|Hge].
    2: { intros [= <- <-]. exists 0%nat. split_and!; [lia|done|by left]. }
    intros H. apply bind_inv_Ok in H as ([flow st1] & w1 & Htick & H).
    pose proof Htick as Hspec.
    apply tick_spec in Hspec as (_ & [(Hr & _)|(k & vws & _ & Hinv' & _ & Hr)]);
      [| |done..].
    + injection Hr as -> ->. apply IH in H as (n & Hn & Hstate & Hexit); [|done].
      exists (S n). split_and!; [lia| |done]. simpl.
      destruct (Z.ltb_spec (frame_count st) (max_frames args)); [|lia].
      by rewrite Htick.
    + cbv zeta in Hr, Hinv'.
      destruct (Z.leb_spec (min_frames args) (frame_count st + 1)) as [Hmin|Hmin].
      * injection Hr as -> ->. injection H as <- <-.
        exists 1%nat. split_and!; [lia| |right; simpl; lia]. simpl.
        destruct (Z.ltb_spec (frame_count st) (max_frames args)); [|lia].
        by rewrite Htick.
      * destruct (fps args =? 0); [done|]. injection Hr as -> ->.
        apply IH in H as (n & Hn & Hstate & Hexit); [|done].
        exists (S n). split_and!; [lia| |done]. simpl.
        destruct (Z.ltb_spec (frame_count st) (max_frames args)); [|lia].
        by rewrite Htick.
Qed.

(** C5, as the code has it.  At every state of the loop
    [0 <= frame_count <= max max_frames 0], which is
    [0 <= frame_count <= max_frames] for every budget that is not
    negative.  When [min_frames] exceeds the budget, no pass ends with
    [break]; the loop, whenever it is left, is left with exactly
    [max max_frames 0] frames; and it is left, after at most [max_frames]
    passes, when every read delivers.  Here [max_frames] is the budget as
    the code computes it, the ceiling of the float product; that the loop
    is reached and left is stated for a frame rate and a product within
    [2^53]. *)
Theorem frame_count_bounded n fuel h args cam_specs cam_readers ep_name start_t w0 st w :
  cameras_ready cam_specs cam_readers ->
  loop_state n h args cam_specs cam_readers ep_name start_t (new_episode cam_specs) w0
  = Some (st, w) ->
  0 <= frame_count st <= Z.max (max_frames args) 0 /\
  (0 <= max_frames args -> 0 <= frame_count st <= max_frames args) /\
  (max_frames args < min_frames args ->
   (forall r w' st',
       frame_count st < max_frames args ->
       tick h args cam_specs cam_readers ep_name start_t st w = (r, w') ->
       r <> Ok (FlowBreak, st')) /\
   (forall st' w',
       episode_loop fuel h args cam_specs cam_readers ep_name start_t
         (new_episode cam_specs) w0 = (Ok st', w') ->
       frame_count st' = Z.max (max_frames args) 0) /\
   (all_reads_succeed h -> budget_in_range args ->
    (Z.to_nat (max_frames args) <= fuel)%nat ->
    exists st' w',
      episode_loop fuel h args cam_specs cam_readers ep_name start_t
        (new_episode cam_specs) w0 = (Ok st', w') /\
      frame_count st' = Z.max (max_frames args) 0)).
Proof.
  intros Hready Hloop.
  pose proof (loop_state_bound _ _ _ _ _ _ _ _ _ _ _ Hready (new_episode_inv _ _)
                (Z.le_max_r _ _) Hloop) as Hbound.
  split; [done|]. split; [lia|]. intros Hmin. split_and!.
  - intros r w' st' Hlt Htick ->.
    eapply loop_state_inv in Hloop as [Hinv _];
      [|done|apply new_episode_inv|apply stamped_at_nil].
    apply tick_spec in Htick as (_ & [([=] & _)|(k & vws & _ & _ & _ & Hr)]); [|done..].
    cbv zeta in Hr.
    destruct (Z.leb_spec (min_frames args) (frame_count st + 1)); [lia|].
    destruct (fps args =? 0); discriminate.
  - intros st' w' Hrun.
    apply episode_loop_state in Hrun as (m & _ & Hstate & Hexit);
      [|done|apply new_episode_inv].
    apply loop_state_bound in Hstate; [|done|apply new_episode_inv|apply Z.le_max_r].
    lia.
  - intros Hok _ Hfuel.
    destruct (episode_loop_all_succeed fuel h args cam_specs cam_readers ep_name start_t
                (new_episode cam_specs) w0 Hready Hok (new_episode_inv _ _))
      as (st' & w' & Hrun & Hfc).
    { simpl. by rewrite Z.sub_0_r. }
    exists st', w'. split; [done|]. simpl in Hfc.
    destruct (Z.ltb_spec 0 (max_frames args)); lia.
Qed.

Lemma frame_count_bounded_witness :
  exists st w,
    loop_state 30 steady_host one_second_args front_specs front_readers
      "episode_000000" 0 (new_episode front_specs) empty_world = Some (st, w) /\
    0 <= frame_count st <= Z.max (max_frames one_second_args) 0 /\
    (0 <= max_frames one_second_args -> 0 <= frame_count st <= max_frames one_second_args) /\
    (max_frames one_second_args < min_frames one_second_args ->
     (forall r w' st',
         frame_count st < max_frames one_second_args ->
         tick steady_host one_second_args front_specs front_readers "episode_000000" 0 st w
         = (r, w') ->
         r <> Ok (FlowBreak, st')) /\
     (forall st' w',
         episode_loop 30 steady_host one_second_args front_specs front_readers
           "episode_000000" 0 (new_episode front_specs) empty_world = (Ok st', w') ->
         frame_count st' = Z.max (max_frames one_second_args) 0) /\
     (all_reads_succeed steady_host -> budget_in_range one_second_args ->
      (Z.to_nat (max_frames one_second_args) <= 30)%nat ->
      exists st' w',
        episode_loop 30 steady_host one_second_args front_specs front_readers
          "episode_000000" 0 (new_episode front_specs) empty_world = (Ok st', w') /\
        frame_count st' = Z.max (max_frames one_second_args) 0)).
Proof.
  destruct (reaches_some
              (loop_state 30 steady_host one_second_args front_specs front_readers
                 "episode_000000" 0 (new_episode front_specs) empty_world))
    as [[st w] Hloop]; [vm_compute; reflexivity|].
  exists st, w. split; [exact Hloop|].
  apply (frame_count_bounded 30 30 steady_host one_second_args front_specs front_readers
           "episode_000000" 0 empty_world).
  - exact front_camera_ready.
  - exact Hloop.
Defined.

Example one_second_budget :
  max_frames one_second_args = 30 /\
  (fun x => frame_count (fst x))
    <$> loop_state 30 steady_host one_second_args front_specs front_readers
          "episode_000000" 0 (new_episode front_specs) empty_world = Some 30.
Proof. split; vm_compute; reflexivity. Qed.

(** The scenario of the specification: 30 fps, 1 s, [min_frames] 50. *)
Example one_second_scenario :
  files (snd (record_dataset 30 steady_host one_second_args empty_world))
    !! episodes_jsonl = Some [Doc (episode_record 0 30)].
Proof. vm_compute. reflexivity. Qed.

(** Against C5 as stated ("for every episode"): with [--duration -1] the
    budget is -30, the loop is left at once, and [frame_count], 0, is above
    the budget. *)
Lemma negative_budget_is_exceeded :
  max_frames negative_duration_args = -30 /\
  exists st w,
    episode_loop 0 steady_host negative_duration_args front_specs front_readers
      "episode_000000" 0 (new_episode front_specs) empty_world = (Ok st, w) /\
    frame_count st = 0 /\
    ~ (0 <= frame_count st <= max_frames negative_duration_args).
Proof.
  split; [reflexivity|]. eexists _, _. split; [vm_compute; reflexivity|].
  split; [reflexivity|]. vm_compute. intros [_ H]. by apply H.
Qed.

(** ** What the [finally] does, and an episode without frames *)

Lemma release_all_trace (rs : list OpenCVCameraReader) w :
  Forall opened rs ->
  exists w', for_each reader_release rs w = (Ok tt, w') /\
             trace w' = trace w ++ (EvCapRelease <$> (index <$> rs)) /\
             files w' = files w.
Proof.
  intros Hop. revert w. induction Hop as [|r rs Hr Hop IH]; intros w; simpl.
  - exists w. by rewrite app_nil_r.
  - assert (reader_release r w = (Ok tt, log (EvCapRelease (index r)) w)) as Hrel
      by (by unfold reader_release; rewrite Hr).
    rewrite (bind_Ok _ _ _ _ _ Hrel).
    destruct (IH (log (EvCapRelease (index r)) w)) as (w' & -> & Htr & Hfs).
    exists w'. split_and!; [done| |done]. rewrite Htr. simpl. by rewrite <- app_assoc.
Qed.

Lemma episodes_emit fuel h args cam_specs cam_readers (eps : list nat) :
  preserves (emits (fun _ => True)) (fun _ => True)
    (for_each (run_episode fuel h args cam_specs cam_readers) eps).
Proof.
  apply preserves_for_each; [apply emits_refl|apply emits_trans|].
  intros ep _.
  apply preserves_run_episode with (okE := fun _ => True) (okU := fun _ => True);
    try done.
  - apply emits_refl.
  - apply emits_trans.
  - intros e w _. by apply emits_log.
  - intros w. by apply emits_same.
  - intros f w _. by apply emits_same.
Qed.

(** Once the cameras are open, a run that ends -- normally or with an
    exception of an episode -- ends by releasing every camera. *)
Lemma cameras_released_after_recording fuel h args cam_specs cam_readers w r w' :
  Forall opened (values cam_readers) ->
  try_finally
    (for_each (run_episode fuel h args cam_specs cam_readers)
       (seq 0 (Z.to_nat (episodes args))))
    (for_each reader_release (values cam_readers)) w = (r, w') ->
  r <> Running ->
  exists evs, trace w' = trace w ++ evs ++ (EvCapRelease <$> (index <$> values cam_readers)).
Proof.
  intros Hop. unfold try_finally.
  destruct (for_each (run_episode fuel h args cam_specs cam_readers) _ w)
    as [[[]|e|] w1] eqn:Hbody.
  - destruct (release_all_trace _ w1 Hop) as (w2 & -> & Htr & _). intros [= <- <-] _.
    apply episodes_emit in Hbody as [(evs & Hevs & _) _].
    exists evs. by rewrite Htr, Hevs, <- app_assoc.
  - destruct (release_all_trace _ w1 Hop) as (w2 & -> & Htr & _). intros [= <- <-] _.
    apply episodes_emit in Hbody as [(evs & Hevs & _) _].
    exists evs. by rewrite Htr, Hevs, <- app_assoc.
  - by intros [= <- _] [].
Qed.

(** With a budget of no frames the loop is not entered, no video writer is
    ever created, and the release of the writers fails on the first of
    them: the episode raises before its table and records are written. *)
Lemma episode_without_budget_raises fuel h args cam_specs cam_readers ep w :
  cam_specs <> [] -> max_frames args <= 0 ->
  exists w', run_episode fuel h args cam_specs cam_readers ep w
             = (Raise (AttributeError_None "release"), w') /\
             files w' = files w.
Proof.
  intros Hne Hmax. unfold run_episode.
  rewrite (bind_Ok _ _ _ _ _ (eq_refl : emit _ w = (Ok tt, _))).
  rewrite (bind_Ok _ _ _ _ _ (eq_refl : observe (time_time h) _ = (_, tick_calls _))).
  assert (forall w1 start_t,
             episode_loop fuel h args cam_specs cam_readers (_make_episode_name ep) start_t
               (new_episode cam_specs) w1 = (Ok (new_episode cam_specs), w1)) as Hloop.
  { intros w1 start_t. destruct fuel; simpl;
      by destruct (Z.ltb_spec 0 (max_frames args)); [lia|]. }
  rewrite (bind_Ok _ _ _ _ _ (Hloop _ _)).
  destruct cam_specs as [|[name idx] rest]; [done|].
  eexists. split; [reflexivity|done].
Qed.

(** * Further properties of the recorder *)

(** ** Episode names *)

Lemma zeros_digits k s :
  Nat.of_uint <$> NilEmpty.uint_of_string (zeros k s)
  = Nat.of_uint <$> NilEmpty.uint_of_string s.
Proof.
  induction k as [|k IH]; [done|]. simpl zeros.
  change (NilEmpty.uint_of_string (String "0" (zeros k s)))
    with (option_map Decimal.D0 (NilEmpty.uint_of_string (zeros k s))).
  rewrite <- IH. by destruct (NilEmpty.uint_of_string (zeros k s)).
Qed.

Lemma length_string_app a b :
  String.length (a +:+ b) = (String.length a + String.length b)%nat.
Proof. induction a as [|c a IH]; simpl; [done|]. by rewrite IH. Qed.

Lemma string_app_inj_l a b ext : a +:+ ext = b +:+ ext -> a = b.
Proof.
  intros H.
  apply (f_equal String.length) in H as Hlen. rewrite !length_string_app in Hlen.
  revert b H Hlen. induction a as [|c a IH]; intros [|c' b] H Hlen; simpl in *;
    try lia; [done|].
  injection H as -> H. f_equal. apply IH; [done|lia].
Qed.

Lemma zfill_index_inj a b :
  zfill 6 (NilEmpty.string_of_uint (Nat.to_uint a))
  = zfill 6 (NilEmpty.string_of_uint (Nat.to_uint b)) -> a = b.
Proof.
  intros H.
  apply (f_equal (fun s => Nat.of_uint <$> NilEmpty.uint_of_string s)) in H.
  unfold zfill in H. rewrite !zeros_digits, !NilEmpty.usu in H. simpl in H.
  rewrite !Unsigned.of_to in H. by injection H.
Qed.

Lemma parquet_path_inj a b : parquet_path a = parquet_path b -> a = b.
Proof.
  unfold parquet_path. intros H.
  apply (f_equal (fun p => last p)) in H. rewrite !last_snoc in H.
  injection H as H. by apply string_app_inj_l in H.
Qed.

Lemma video_path_episode_inj cam_name cam_name' a b :
  video_path cam_name a = video_path cam_name' b -> a = b.
Proof.
  unfold video_path. intros H.
  apply (f_equal (fun p => last p)) in H. rewrite !last_snoc in H.
  injection H as H. by apply string_app_inj_l in H.
Qed.

(** X1.  The index of an episode can be read back from its name, so distinct
    episodes have distinct names, tables and videos. *)
Theorem episode_name_injective i j :
  (_make_episode_name i = _make_episode_name j -> i = j) /\
  (parquet_path (_make_episode_name i) = parquet_path (_make_episode_name j) -> i = j) /\
  (forall cam_name cam_name',
      video_path cam_name (_make_episode_name i)
      = video_path cam_name' (_make_episode_name j) -> i = j).
Proof.
  assert (_make_episode_name i = _make_episode_name j -> i = j) as Hname.
  { unfold _make_episode_name. intros H. apply zfill_index_inj. revert H.
    generalize (zfill 6 (NilEmpty.string_of_uint (Nat.to_uint i))).
    generalize (zfill 6 (NilEmpty.string_of_uint (Nat.to_uint j))).
    intros a b H. simpl in H. by simplify_eq. }
  split_and!; [done| |].
  - intros H. by apply parquet_path_inj, Hname in H.
  - intros cam_name cam_name' H. by apply video_path_episode_inj, Hname in H.
Qed.

Lemma make_episode_name_inj i j : _make_episode_name i = _make_episode_name j -> i = j.
Proof.
  unfold _make_episode_name. intros H. apply zfill_index_inj. revert H.
  generalize (zfill 6 (NilEmpty.string_of_uint (Nat.to_uint i))).
  generalize (zfill 6 (NilEmpty.string_of_uint (Nat.to_uint j))).
  intros a b H. simpl in H. by simplify_eq.
Qed.

(** ** Camera arguments *)

(** [spec.split("=", 1)] cuts at the first ["="]: the name before it holds
    no ["="], the text after it is kept whole; without a ["="] the argument
    comes back in one piece. *)
Lemma str_split1_spec c s :
  if str_contains c s
  then exists l r, str_split1 c s = [l; r] /\ s = l +:+ String c r /\
                   str_contains c l = false
  else str_split1 c s = [s].
Proof.
  induction s as [|a s IH]; simpl; [done|].
  destruct (Ascii.eqb_spec a c) as [->|Hne].
  - by exists EmptyString, s.
  - destruct (str_contains c s).
    + destruct IH as (l & r & -> & -> & Hl). exists (String a l), r.
      split_and!; [done..|]. simpl. destruct (Ascii.eqb_spec a c); [done|done].
    + by rewrite IH.
Qed.

Lemma parse_specs_app h a b d w r w' :
  parse_specs h (a ++ b) d w = (r, w') ->
  (exists d1, parse_specs h a d w = (Ok d1, w) /\ parse_specs h b d1 w = (r, w')) \/
  (exists e, parse_specs h a d w = (Raise e, w) /\ r = Raise e /\ w' = w).
Proof.
  revert d. induction a as [|s a IH]; intros d; simpl.
  - intros H. left. by exists d.
  - destruct (str_contains "=" s); simpl; [|intros [= <- <-]; right; by eexists].
    destruct (str_split1 "=" s) as [|name [|idx [|? ?]]];
      try (intros [= <- <-]; right; by eexists).
    destruct (py_int h idx); [apply IH|intros [= <- <-]; right; by eexists].
Qed.

(** X2.  The errors of the camera arguments: the run is stopped by the first
    argument, in the order given, that either lacks ["="] or whose text
    after the first ["="] is refused by [int()]; the arguments before it
    were accepted.  (The unpacking of the split never fails.) *)
Theorem camera_argument_errors h specs d w e w' :
  parse_specs h specs d w = (Raise e, w') ->
  exists good spec rest d1,
    specs = good ++ spec :: rest /\
    parse_specs h good d w = (Ok d1, w) /\
    ((str_contains "=" spec = false /\ e = ValueError_camera_format spec) \/
     (exists name idx, str_split1 "=" spec = [name; idx] /\ py_int h idx = None /\
                       e = ValueError_int idx)).
Proof.
  revert d. induction specs as [|s specs IH]; intros d; simpl; [discriminate|].
  pose proof (str_split1_spec "=" s) as Hsplit.
  destruct (str_contains "=" s) eqn:Hs; simpl.
  - destruct Hsplit as (l & r & Hlr & _ & _). rewrite Hlr.
    destruct (py_int h r) eqn:Hint.
    + intros H. apply IH in H as (good & spec & rest & d1 & -> & Hgood & Hcase).
      exists (s :: good), spec, rest, d1. split_and!; [done| |done].
      simpl. rewrite Hs. simpl. by rewrite Hlr, Hint.
    + intros [= <- <-]. exists [], s, specs, d. split_and!; [done..|].
      right. by exists l, r.
  - intros [= <- <-]. exists [], s, specs, d. split_and!; [done..|]. by left.
Qed.

Lemma camera_argument_errors_witness :
  exists good spec rest d1,
    ["front=0"; "wrist=two"; "top"] = good ++ spec :: rest /\
    parse_specs steady_host good [] empty_world = (Ok d1, empty_world) /\
    ((str_contains "=" spec = false /\
      ValueError_int "two" = ValueError_camera_format spec) \/
     (exists name idx, str_split1 "=" spec = [name; idx] /\
                       py_int steady_host idx = None /\
                       ValueError_int "two" = ValueError_int idx)).
Proof.
  apply (camera_argument_errors steady_host ["front=0"; "wrist=two"; "top"] []
           empty_world (ValueError_int "two") empty_world).
  vm_compute. reflexivity.
Defined.

Lemma parse_specs_other_names h specs d w d' w' name :
  parse_specs h specs d w = (Ok d', w') ->
  (forall s n idx, s ∈ specs -> str_split1 "=" s = [n; idx] -> n <> name) ->
  dict_get name d' = dict_get name d.
Proof.
  revert d. induction specs as [|s specs IH]; intros d; simpl.
  - by intros [= <- _].
  - destruct (str_contains "=" s); simpl; [|discriminate].
    destruct (str_split1 "=" s) as [|n [|idx [|? ?]]] eqn:Hsplit; try discriminate.
    destruct (py_int h idx); [|discriminate].
    intros H Hother. rewrite (IH _ H).
    + apply dict_get_set_ne. eapply Hother; [left|done].
    + intros s' n' idx' Hin. apply Hother. by right.
Qed.

(** X3.  When a camera name is given more than once, the last index given for
    it is the one recorded from. *)
Theorem last_camera_argument_wins h before spec after w cam_specs w' name idx i :
  parse_specs h (before ++ spec :: after) [] w = (Ok cam_specs, w') ->
  str_split1 "=" spec = [name; idx] -> py_int h idx = Some i ->
  (forall s n idx', s ∈ after -> str_split1 "=" s = [n; idx'] -> n <> name) ->
  dict_get name cam_specs = Some i.
Proof.
  intros Hparse Hsplit Hint Hafter.
  apply parse_specs_app in Hparse as [(d1 & _ & Hrest)|(e & _ & [=] & _)].
  simpl in Hrest. pose proof (str_split1_spec "=" spec) as Hc.
  destruct (str_contains "=" spec); simpl in Hrest.
  - rewrite Hsplit, Hint in Hrest.
    rewrite (parse_specs_other_names _ _ _ _ _ _ name Hrest Hafter).
    apply dict_get_set_eq.
  - congruence.
Qed.

Lemma last_camera_argument_wins_witness :
  dict_get "front" [("front", 4); ("wrist", 2)] = Some 4.
Proof.
  apply (last_camera_argument_wins steady_host ["front=0"; "wrist=2"] "front=4" []
           empty_world [("front", 4); ("wrist", 2)] empty_world "front" "4" 4).
  - vm_compute. reflexivity.
  - reflexivity.
  - reflexivity.
  - intros s n idx' Hin. by apply elem_of_nil in Hin.
Defined.


(** ** Opening and releasing the cameras *)

Lemma opening_trace_app args a b :
  opening_trace args (a ++ b) = opening_trace args a ++ opening_trace args b.
Proof. unfold opening_trace. by rewrite flat_map_app. Qed.

(** X4.  The cameras are opened in the order of their configuration, each one
    set to the requested width and height once it is open; the first
    camera that does not open ends the opening with its error, and the
    cameras configured after it are not touched. *)
Theorem cameras_opened_in_order h args cam_specs cam_readers w r w' :
  open_cameras h args cam_specs cam_readers w = (r, w') ->
  (exists rs, r = Ok rs /\ trace w' = trace w ++ opening_trace args cam_specs) \/
  (exists good name i rest,
      r = Raise (RuntimeError_open i) /\
      cam_specs = good ++ (name, i) :: rest /\
      trace w' = trace w ++ opening_trace args good ++ [EvCapOpen i false]).
Proof.
  revert cam_readers w. induction cam_specs as [|[name idx] rest IH];
    intros cam_readers w; simpl.
  - intros [= <- <-]. left. eexists. by rewrite app_nil_r.
  - unfold bind at 1. unfold reader_open, bind, observe, emit, ret. simpl.
    destruct (isOpened h (calls w) idx); simpl.
    + intros H. apply IH in H as [(rs & -> & Htr)|(good & n & i & rest' & -> & -> & Htr)].
      * left. eexists. split; [done|]. rewrite Htr. simpl.
        by rewrite <- !app_assoc.
      * right. exists ((name, idx) :: good), n, i, rest'. split_and!; [done..|].
        rewrite Htr. simpl. by rewrite <- !app_assoc.
    + intros [= <- <-]. right. exists [], name, idx, rest. by split_and!.
Qed.

Lemma cameras_opened_in_order_witness :
  let out := open_cameras half_host two_cameras two_specs [] empty_world in
  (exists rs, fst out = Ok rs /\
              trace (snd out) = trace empty_world ++ opening_trace two_cameras two_specs) \/
  (exists good name i rest,
      fst out = Raise (RuntimeError_open i) /\
      two_specs = good ++ (name, i) :: rest /\
      trace (snd out) = trace empty_world ++ opening_trace two_cameras good
                        ++ [EvCapOpen i false]).
Proof.
  apply (cameras_opened_in_order half_host two_cameras two_specs [] empty_world).
  apply surjective_pairing.
Defined.

Lemma open_cameras_indices h args cam_specs cam_readers w rs w' :
  NoDup (keys cam_readers ++ keys cam_specs) ->
  open_cameras h args cam_specs cam_readers w = (Ok rs, w') ->
  index <$> values rs = (index <$> values cam_readers) ++ values cam_specs.
Proof.
  revert cam_readers w. induction cam_specs as [|[name idx] rest IH];
    intros cam_readers w Hnd; simpl.
  - intros [= <- _]. by rewrite app_nil_r.
  - intros H. apply bind_inv_Ok in H as (r & w1 & H1 & H2).
    apply reader_open_result in H1 as [(r' & [= <-] & _ & Hidx)|?]; [|done].
    assert (name ∉ keys cam_readers) as Hfresh.
    { apply NoDup_app in Hnd as (_ & Hdisj & _). intros Hin.
      apply (Hdisj name Hin). left. }
    rewrite dict_set_fresh in H2 by done.
    apply IH in H2.
    + rewrite H2. unfold values. rewrite !fmap_app. simpl. rewrite Hidx. simpl.
      by rewrite <- app_assoc.
    + unfold keys in *. rewrite fmap_app. simpl. by rewrite <- app_assoc.
Qed.

(** ** A finer frame for the episodes

    The events and file updates of one episode, told apart more finely
    than the phases of a run: what the loop does, and what the end of the
    episode adds. *)

Section EpisodeFrame.
Variable R : World -> World -> Prop.
Variable okE : Event -> Prop.
Variable okU : (gmap Path (list Item) -> gmap Path (list Item)) -> Prop.
Variable ep_name : string.
Hypothesis R_refl : forall w, R w w.
Hypothesis R_trans : forall w1 w2 w3, R w1 w2 -> R w2 w3 -> R w1 w3.
Hypothesis R_log : forall e w, okE e -> R w (log e w).
Hypothesis R_calls : forall w, R w (tick_calls w).
Hypothesis R_files : forall f w, okU f -> R w (set_files f w).
Hypothesis okE_read : forall i ok, okE (EvCapRead i ok).
Hypothesis okE_print : forall m, okE (EvPrint m).
Hypothesis okE_open : forall p, okE (EvVwOpen p).
Hypothesis okE_write : forall p, okE (EvVwWrite p).
Hypothesis okE_sleep : forall dt, okE (EvSleep dt).
Hypothesis okE_close : forall p, okE (EvVwRelease p).
Hypothesis okE_table : forall p, okE (EvWrite p).
Hypothesis okE_append : forall p, okE (EvAppend p).
Hypothesis okU_video : forall cam_name v, okU (insert (video_path cam_name ep_name) v).
Hypothesis okU_table : forall v, okU (insert (parquet_path ep_name) v).
Hypothesis okU_append : forall p x, okU (append_item p x).

Lemma keeps_read_all h cam_readers frames :
  preserves R (fun _ => True) (read_all h cam_readers frames).
Proof.
  revert frames. induction cam_readers as [|[name r] rest IH]; intros frames; simpl.
  - by apply preserves_ret.
  - apply preserves_bind; [done|..].
    + unfold reader_read. destruct (cap r); [|by apply preserves_raise].
      apply preserves_bind; [done|by apply preserves_observe|].
      intros x. apply preserves_bind; [done|by eapply preserves_emit|].
      intros _. by apply preserves_ret.
    + intros [f|]; [apply IH|].
      apply preserves_bind; [done|by eapply preserves_emit|].
      intros _. by apply preserves_ret.
Qed.

Lemma keeps_init_writers args pairs vws :
  preserves R (fun _ => True) (init_writers args ep_name pairs vws).
Proof.
  revert vws. induction pairs as [|[cam_name f] pairs IH]; intros vws; simpl.
  - by apply preserves_ret.
  - apply preserves_bind; [done| |intros vw; apply IH].
    unfold _init_video_writer. destruct (shape f) as [[hh ww] cc].
    apply preserves_bind; [done|by eapply preserves_emit|].
    intros _. apply preserves_bind; [done| |intros _; by apply preserves_ret].
    by eapply preserves_update_files.
Qed.

Lemma keeps_write_frames pairs vws :
  preserves R (fun _ => True) (write_frames pairs vws).
Proof.
  revert vws. induction pairs as [|[cam_name f] pairs IH]; intros vws; simpl.
  - by apply preserves_ret.
  - destruct (dict_get cam_name vws) as [[vw|]|]; try by apply preserves_raise.
    apply preserves_bind; [done| |intros vw'; apply IH].
    unfold vw_write. apply preserves_bind; [done|by eapply preserves_emit|].
    intros _. by apply preserves_ret.
Qed.

Lemma keeps_store_frames h args cam_specs start_t loop_start frames st :
  preserves R (fun _ => True)
    (store_frames h args cam_specs ep_name start_t loop_start frames st).
Proof.
  unfold store_frames. apply preserves_bind; [done|..].
  { destruct (any_None (vw_writers st));
      [apply keeps_init_writers|by apply preserves_ret]. }
  intros vws1. apply preserves_bind; [done|apply keeps_write_frames|].
  intros vws2. apply preserves_bind; [done|by apply preserves_observe|].
  intros now. cbn [frame_count].
  destruct (min_frames args <=? frame_count st + 1).
  { apply preserves_bind; [done|by eapply preserves_emit|].
    intros _. by apply preserves_ret. }
  destruct (fps args =? 0); [by apply preserves_raise|].
  apply preserves_bind; [done|by apply preserves_observe|].
  intros now'. apply preserves_bind; [done| |intros _; by apply preserves_ret].
  destruct (Qpos _); [by eapply preserves_emit|by apply preserves_ret].
Qed.

Lemma keeps_tick h args cam_specs cam_readers start_t st :
  preserves R (fun _ => True) (tick h args cam_specs cam_readers ep_name start_t st).
Proof.
  unfold tick. apply preserves_bind; [done|by apply preserves_observe|].
  intros loop_start. apply preserves_bind; [done|apply keeps_read_all|].
  intros [success frames]. destruct success; simpl; [|by apply preserves_ret].
  apply keeps_store_frames.
Qed.

Lemma keeps_episode_loop fuel h args cam_specs cam_readers start_t st :
  preserves R (fun _ => True)
    (episode_loop fuel h args cam_specs cam_readers ep_name start_t st).
Proof.
  revert st. induction fuel as [|fuel IH]; intros st; simpl.
  - destruct (frame_count st <? max_frames args); [|by apply preserves_ret].
    intros w r w' [= <- <-]. by split.
  - destruct (frame_count st <? max_frames args); [|by apply preserves_ret].
    apply preserves_bind; [done|apply keeps_tick|].
    intros [[] st']; [apply IH|by apply preserves_ret|apply IH].
Qed.

Lemma keeps_release_writers vws :
  video_writers ep_name vws ->
  preserves R (fun _ => True) (for_each release_writer (values vws)).
Proof.
  intros Hv. apply preserves_for_each; [done..|]. intros ovw Hin.
  apply list_elem_of_fmap in Hin as ([name ovw'] & -> & Hin). simpl.
  destruct ovw' as [vw|]; simpl; [|by apply preserves_raise].
  eapply Forall_forall in Hv; [|exact Hin].
  destruct (Hv vw eq_refl) as (cam_name & Hpath).
  unfold vw_release. apply preserves_bind; [done|by eapply preserves_emit|].
  intros _. rewrite Hpath. by eapply preserves_update_files.
Qed.

End EpisodeFrame.

Lemma keeps_run_episode (R : World -> World -> Prop) (okE : Event -> Prop)
  (okU : (gmap Path (list Item) -> gmap Path (list Item)) -> Prop)
  fuel h args cam_specs cam_readers ep :
  (forall w, R w w) -> (forall w1 w2 w3, R w1 w2 -> R w2 w3 -> R w1 w3) ->
  (forall e w, okE e -> R w (log e w)) -> (forall w, R w (tick_calls w)) ->
  (forall f w, okU f -> R w (set_files f w)) ->
  (forall e, (forall i, e <> EvCapRelease i) -> okE e) ->
  (forall cam_name v, okU (insert (video_path cam_name (_make_episode_name ep)) v)) ->
  (forall v, okU (insert (parquet_path (_make_episode_name ep)) v)) ->
  (forall p x, okU (append_item p x)) ->
  preserves R (fun _ => True) (run_episode fuel h args cam_specs cam_readers ep).
Proof.
  intros R_refl R_trans R_log R_calls R_files HokE Hvideo Htable Happend.
  assert (forall e, (forall i, e <> EvCapRelease i) -> preserves R (fun _ => True) (emit e))
    as Hemit.
  { intros e He. apply (preserves_emit R okE (fun _ => True) R_log). by apply HokE. }
  unfold run_episode. apply preserves_bind; [done|by apply Hemit|].
  intros _. apply preserves_bind; [done|by apply preserves_observe|].
  intros start_t. intros w r w' H.
  apply bind_inv in H as [(st & w1 & H1 & H2)|[(e & H1 & ->)|(H1 & ->)]].
  2,3: split; [|done];
    eapply (keeps_episode_loop R okE okU) in H1 as [H1 _]; eauto.
  assert (R w w1) as R1.
  { eapply (keeps_episode_loop R okE okU) in H1 as [H1 _]; eauto. }
  apply episode_loop_video in H1; [|apply new_episode_video].
  cut (R w1 w' /\ forall e, r = Raise e -> True).
  { intros [R2 X2]. split; [by eapply R_trans|done]. }
  revert H2. generalize w1 r w'.
  apply preserves_bind; [done|eapply keeps_release_writers; eauto|].
  intros _. apply preserves_bind; [done|..].
  { unfold write_table. apply preserves_bind; [done|by apply Hemit|].
    intros _. by eapply preserves_update_files. }
  intros _. apply preserves_bind; [done|..].
  { unfold _append_jsonl. apply preserves_bind; [done|by apply Hemit|].
    intros _. by eapply preserves_update_files. }
  intros _. apply preserves_bind; [done|..].
  { unfold _append_jsonl. apply preserves_bind; [done|by apply Hemit|].
    intros _. by eapply preserves_update_files. }
  intros _. by apply Hemit.
Qed.

Lemma episodes_release_no_camera fuel h args cam_specs cam_readers (eps : list nat) :
  preserves (emits (fun e => forall i, e <> EvCapRelease i)) (fun _ => True)
    (for_each (run_episode fuel h args cam_specs cam_readers) eps).
Proof.
  apply preserves_for_each; [apply emits_refl|apply emits_trans|].
  intros ep _.
  apply keeps_run_episode with (okE := fun e => forall i, e <> EvCapRelease i)
                               (okU := fun _ => True); try done.
  - apply emits_refl.
  - apply emits_trans.
  - intros e w He. by apply emits_log.
  - intros w. by apply emits_same.
  - intros f w _. by apply emits_same.
Qed.

(** X5.  Every run that gets the cameras open and then ends -- after its last
    episode, or with the exception of an episode -- ends by releasing every
    configured camera once, in the order of the configuration. *)
Theorem cameras_released_at_the_end fuel h args w r w' :
  record_dataset fuel h args w = (r, w') ->
  r = Ok tt \/ (exists e, r = Raise e /\ recording_exn e) ->
  exists cam_specs evs,
    parse_cameras h args w = (Ok cam_specs, w) /\
    trace w' = trace w ++ evs ++ (EvCapRelease <$> values cam_specs) /\
    forall i, EvCapRelease i ∉ evs.
Proof.
  intros Hrun Hr. apply record_dataset_cases in Hrun
    as [(e & -> & He & _)|(cam_specs & w1 & Hparse & Hprep & Hrest)].
  { destruct Hr as [[=]|(e' & [= <-] & He')]. by destruct e. }
  destruct (parse_cameras_Ok _ _ _ _ _ Hparse) as (_ & Hnd & Hne).
  destruct (prepare_output_spec args cam_specs w Hne) as (w1' & Hprep' & Htr & _).
  rewrite Hprep in Hprep'. injection Hprep' as <-.
  destruct Hrest as [(i & _ & ->)|(cam_readers & w2 & Hopen & Hrec)].
  { destruct Hr as [[=]|(e' & [= <-] & [])]. }
  pose proof (open_cameras_indices _ _ _ [] _ _ _ Hnd Hopen) as Hidx. simpl in Hidx.
  pose proof (open_cameras_ready _ _ _ _ _ _ Hnd Hopen) as (_ & _ & Hop).
  apply open_cameras_only in Hopen as [((opens & Hopens & Fopens) & _) _].
  assert (exists w3 body, for_each (run_episode fuel h args cam_specs cam_readers)
                            (seq 0 (Z.to_nat (episodes args))) w2 = (body, w3) /\
                          body <> Running) as (w3 & body & Hbody & Hnr).
  { unfold try_finally in Hrec.
    destruct (for_each (run_episode fuel h args cam_specs cam_readers) _ w2)
      as [[[]|e|] w3]; [by eexists _, _..|].
    injection Hrec as <- _. destruct Hr as [[=]|(e & [=] & _)]. }
  destruct (release_all_trace _ w3 Hop) as (w4 & Hrel & Htr4 & _).
  assert (w' = w4) as ->.
  { unfold try_finally in Hrec. rewrite Hbody, Hrel in Hrec.
    destruct body as [[]|e|]; [by injection Hrec..|done]. }
  apply episodes_release_no_camera in Hbody as [(evs & Hevs & Fevs) _].
  exists cam_specs, (setup_trace cam_specs (tasks_present w) ++ opens ++ evs).
  split_and!; [done| |].
  - rewrite Htr4, Hevs, Hopens, Htr, Hidx. by rewrite <- !app_assoc.
  - intros i Hi. apply elem_of_app in Hi as [Hi|Hi].
    { pose proof (setup_trace_setup cam_specs (tasks_present w)) as Hs.
      eapply Forall_forall in Hs; [|exact Hi]. destruct Hs. }
    apply elem_of_app in Hi as [Hi|Hi].
    + eapply Forall_forall in Fopens; [|exact Hi]. destruct Fopens.
    + eapply Forall_forall in Fevs; [|exact Hi]. by apply (Fevs i).
Qed.

Lemma cameras_released_at_the_end_witness :
  let out := record_dataset 10 steady_host short_args empty_world in
  exists cam_specs evs,
    parse_cameras steady_host short_args empty_world = (Ok cam_specs, empty_world) /\
    trace (snd out) = trace empty_world ++ evs ++ (EvCapRelease <$> values cam_specs) /\
    forall i, EvCapRelease i ∉ evs.
Proof.
  apply (cameras_released_at_the_end 10 steady_host short_args empty_world
           (fst (record_dataset 10 steady_host short_args empty_world))).
  - apply surjective_pairing.
  - left. vm_compute. reflexivity.
Defined.

(** ** The files of an episode *)

Lemma video_path_inj cam_name cam_name' ep_name ep_name' :
  video_path cam_name ep_name = video_path cam_name' ep_name' -> cam_name = cam_name'.
Proof.
  unfold video_path, video_dir, video_dir_root. simpl.
  generalize (ep_name +:+ ".mp4") (ep_name' +:+ ".mp4"). intros a b H.
  assert (forall x y : string,
             "observation.images." +:+ x = "observation.images." +:+ y -> x = y) as Hpre.
  { intros x y Hxy. simpl in Hxy. by simplify_eq. }
  apply Hpre. revert H.
  generalize ("observation.images." +:+ cam_name) ("observation.images." +:+ cam_name').
  intros x y H. by simplify_eq.
Qed.

Lemma only_videos_refl ep_name w : only_videos ep_name w w.
Proof. by intros p _. Qed.

Lemma only_videos_trans ep_name w1 w2 w3 :
  only_videos ep_name w1 w2 -> only_videos ep_name w2 w3 -> only_videos ep_name w1 w3.
Proof. intros H12 H23 p Hp. by rewrite H23, H12. Qed.

Lemma episode_loop_only_videos fuel h args cam_specs cam_readers ep_name start_t st :
  preserves (only_videos ep_name) (fun _ => True)
    (episode_loop fuel h args cam_specs cam_readers ep_name start_t st).
Proof.
  apply keeps_episode_loop
    with (okE := fun _ => True)
         (okU := fun f => forall fs p, (forall cam_name, p <> video_path cam_name ep_name) ->
                                       f fs !! p = fs !! p); try done.
  all: first [ apply only_videos_refl
             | apply only_videos_trans
             | by (intros f w Hf p Hp; simpl; apply Hf)
             | by (intros cam_name v fs p Hp; rewrite lookup_insert_ne)
             | by (intros; intros p Hp) ].
Qed.

Lemma release_writers_None (vws : dict (option VideoWriter)) w :
  any_None vws = true ->
  exists w', for_each release_writer (values vws) w
             = (Raise (AttributeError_None "release"), w').
Proof.
  revert w. induction vws as [|[k [vw|]] vws IH]; intros w; simpl; [done| |by eexists].
  intros Hany. destruct (IH (set_files (insert (vw_path vw) (vw_file vw))
                              (log (EvVwRelease (vw_path vw)) w)) Hany) as (w' & Hw').
  exists w'. unfold bind at 1. unfold vw_release, bind, emit, update_files. simpl.
  exact Hw'.
Qed.

Lemma release_writers_files ep_name n (vws : dict (option VideoWriter)) w :
  NoDup (keys vws) -> Forall (writer_has ep_name n) vws ->
  exists w',
    for_each release_writer (values vws) w = (Ok tt, w') /\
    (forall cam_name, cam_name ∈ keys vws ->
       exists vw,
         files w' !! video_path cam_name ep_name = Some (vw_file vw) /\
         vw_path vw = video_path cam_name ep_name /\
         length (vw_frames vw) = n) /\
    (forall p, (forall cam_name, cam_name ∈ keys vws -> p <> video_path cam_name ep_name) ->
               files w' !! p = files w !! p).
Proof.
  revert w. induction vws as [|[k ovw] vws IH]; intros w Hnd Hhas.
  - exists w. split_and!; [done| |done]. intros c Hc. by apply elem_of_nil in Hc.
  - apply Forall_cons in Hhas as [(vw & Hvw & Hpath & Hlen) Hhas].
    simpl in Hvw, Hpath. subst ovw.
    unfold keys in *. csimpl in *. apply NoDup_cons in Hnd as [Hk Hnd].
    destruct (IH (set_files (insert (vw_path vw) (vw_file vw))
                    (log (EvVwRelease (vw_path vw)) w)) Hnd Hhas)
      as (w' & Hrun & Hvid & Hframe).
    exists w'. split_and!.
    + unfold bind at 1. unfold vw_release, bind, emit, update_files. simpl. exact Hrun.
    + intros c Hc. apply elem_of_cons in Hc as [->|Hc]; [|by apply Hvid].
      rewrite Hframe.
      * exists vw. split; [|done]. simpl. by rewrite Hpath, lookup_insert_eq.
      * intros c Hc Heq. apply video_path_inj in Heq. by subst.
    + intros p Hp. rewrite Hframe.
      * simpl. rewrite lookup_insert_ne; [done|]. rewrite Hpath. intros Heq.
        by apply (Hp k); [left|].
      * intros c Hc. apply Hp. by right.
Qed.

(** While there is no row there is no writer. *)
Lemma loop_state_fresh n h args cam_specs cam_readers ep_name start_t st0 w0 st w :
  cameras_ready cam_specs cam_readers ->
  episode_inv cam_specs ep_name st0 ->
  loop_state n h args cam_specs cam_readers ep_name start_t st0 w0 = Some (st, w) ->
  rows st = [] -> st = st0.
Proof.
  intros Hready. revert st0 w0. induction n as [|n IH]; intros st0 w0 Hinv; simpl.
  - by intros [= <- _] _.
  - destruct (frame_count st0 <? max_frames args); [|discriminate].
    destruct (tick h args cam_specs cam_readers ep_name start_t st0 w0)
      as [[[flow st1]|e|] w1] eqn:Htick; try discriminate.
    intros Hloop Hrows.
    apply tick_spec in Htick as (_ & [(Hr & _)|(k & vws & _ & Hinv' & _ & Hr)]);
      [| |done..].
    + injection Hr as -> ->. by apply (IH st0 w1).
    + exfalso. cbv zeta in Hr, Hinv'.
      assert (rows st1 <> [] /\ episode_inv cam_specs ep_name st1) as [Hne Hinv1].
      { destruct (min_frames args <=? frame_count st0 + 1);
          [|destruct (fps args =? 0); [done|]];
          injection Hr as _ ->; (split; [|done]); simpl; by destruct (rows st0). }
      destruct flow.
      * apply Hne. by rewrite <- (IH _ _ Hinv1 Hloop Hrows).
      * destruct n; [|discriminate]. injection Hloop as <- _. by apply Hne.
      * apply Hne. by rewrite <- (IH _ _ Hinv1 Hloop Hrows).
Qed.

Lemma episode_loop_never_raises fuel h args cam_specs cam_readers ep_name start_t st w e w' :
  cameras_ready cam_specs cam_readers ->
  episode_inv cam_specs ep_name st ->
  episode_loop fuel h args cam_specs cam_readers ep_name start_t st w <> (Raise e, w').
Proof.
  intros Hready. revert st w. induction fuel as [|fuel IH]; intros st w Hinv; simpl.
  - by destruct (frame_count st <? max_frames args).
  - destruct (Z.ltb_spec (frame_count st) (max_frames args)) as [Hlt|]; [|done].
    intros H. apply bind_inv in H as [(res & w1 & Htick & H)|[(e' & Htick & _)|(_ & [=])]].
    + destruct res as [flow st1].
      apply tick_spec in Htick as (_ & [(Hr & _)|(k & vws & _ & Hinv' & _ & Hr)]);
        [| |done..].
      * injection Hr as -> ->. by apply IH in H.
      * cbv zeta in Hr, Hinv'.
        assert (episode_inv cam_specs ep_name st1) as Hinv1.
        { destruct (min_frames args <=? frame_count st + 1);
            [|destruct (fps args =? 0); [done|]]; by injection Hr as _ ->. }
        destruct flow; [by apply IH in H|done|by apply IH in H].
    + apply tick_spec in Htick as (_ & [([=] & _)|(k & vws & _ & _ & _ & Hr)]);
        [|done..].
      cbv zeta in Hr. destruct (min_frames args <=? frame_count st + 1); [done|].
      destruct (fps args =? 0) eqn:Hfps; [|done].
      apply Z.eqb_eq, max_frames_fps0 in Hfps. destruct Hinv as (_ & Hc & _). lia.
Qed.

(** A loop that returns was left by its bound or has counted a frame. *)
Lemma episode_loop_exit fuel h args cam_specs cam_readers ep_name start_t st w st' w' :
  cameras_ready cam_specs cam_readers ->
  episode_inv cam_specs ep_name st ->
  episode_loop fuel h args cam_specs cam_readers ep_name start_t st w = (Ok st', w') ->
  (max_frames args <= frame_count st /\ st' = st /\ w' = w) \/
  frame_count st < frame_count st'.
Proof.
  intros Hready. revert st w. induction fuel as [|fuel IH]; intros st w Hinv; simpl.
  - destruct (Z.ltb_spec (frame_count st) (max_frames args)); [discriminate|].
    intros [= <- <-]. by left.
  - destruct (Z.ltb_spec (frame_count st) (max_frames args)) as [Hlt|Hge].
    2: { intros [= <- <-]. by left. }
    intros H. apply bind_inv_Ok in H as ([flow st1] & w1 & Htick & H). right.
    apply tick_spec in Htick as (_ & [(Hr & _)|(k & vws & _ & Hinv' & _ & Hr)]);
      [| |done..].
    + injection Hr as -> ->. apply IH in H as [(? & _)|?]; [lia|done|done].
    + cbv zeta in Hr, Hinv'.
      assert (episode_inv cam_specs ep_name st1 /\ frame_count st1 = frame_count st + 1)
        as [Hinv1 Hfc1].
      { destruct (min_frames args <=? frame_count st + 1);
          [|destruct (fps args =? 0); [done|]]; by injection Hr as _ ->. }
      destruct flow.
      * apply IH in H as [(_ & -> & _)|?]; [lia|lia|done].
      * injection H as <- _. lia.
      * apply IH in H as [(_ & -> & _)|?]; [lia|lia|done].
Qed.

Lemma any_None_new_episode cam_specs :
  cam_specs <> [] -> any_None (vw_writers (new_episode cam_specs)) = true.
Proof. by destruct cam_specs. Qed.

(** The three ways an episode can go: its loop is still running; it had no
    frame to record and fails when it releases the video writers that were
    never created; or it is complete. *)
Lemma run_episode_outcome fuel h args cam_specs cam_readers ep w r w' :
  cameras_ready cam_specs cam_readers -> cam_specs <> [] ->
  run_episode fuel h args cam_specs cam_readers ep w = (r, w') ->
  r = Running \/
  (r = Raise (AttributeError_None "release") /\ max_frames args <= 0 /\
   files w' = files w) \/
  (r = Ok tt /\
   exists n, (1 <= n)%nat /\ Z.of_nat n <= max_frames args /\
             episode_recorded cam_specs ep n (files w) (files w')).
Proof.
  intros Hready Hne. unfold run_episode.
  rewrite (bind_Ok _ _ _ _ _ (eq_refl : emit _ w = (Ok tt, _))).
  rewrite (bind_Ok _ _ _ _ _ (eq_refl : observe (time_time h) _ = (_, tick_calls _))).
  set (ep_name := _make_episode_name ep).
  set (w1 := tick_calls (log (EvPrint (MsgStart ep_name)) w)).
  set (start_t := time_time h (calls (log (EvPrint (MsgStart ep_name)) w))).
  destruct (episode_loop fuel h args cam_specs cam_readers ep_name start_t
              (new_episode cam_specs) w1) as [[st|e|] w2] eqn:Hloop.
  2: { by apply episode_loop_never_raises in Hloop; [|done|apply new_episode_inv]. }
  2: { unfold bind. rewrite Hloop. intros [= <- _]. by left. }
  rewrite (bind_Ok _ _ _ _ _ Hloop).
  pose proof (episode_loop_exit _ _ _ _ _ _ _ _ _ _ _ Hready (new_episode_inv _ _) Hloop)
    as Hexit.
  pose proof (episode_loop_only_videos _ _ _ _ _ _ _ _ _ _ _ Hloop) as [Hvideos _].
  apply episode_loop_state in Hloop as (n0 & _ & Hstate & _); [|done|apply new_episode_inv].
  pose proof (loop_state_bound _ _ _ _ _ _ _ _ _ _ _ Hready (new_episode_inv _ _)
                (Z.le_max_r _ _) Hstate) as Hbound.
  pose proof (loop_state_fresh _ _ _ _ _ _ _ _ _ _ _ Hready (new_episode_inv _ _) Hstate)
    as Hfresh.
  eapply loop_state_inv in Hstate as [Hinv _];
    [|done|apply new_episode_inv|apply stamped_at_nil].
  destruct Hinv as (Hkeys & Hcount & Hwriters & Hindex).
  destruct (any_None (vw_writers st)) eqn:Hany.
  - pose proof (any_None_true _ _ _ Hany Hwriters) as Hlen.
    destruct Hexit as [(Hmax & -> & ->)|Hlt]; [|simpl in Hlt; lia].
    destruct cam_specs as [|[k v] cam_specs']; [done|].
    unfold bind at 1. simpl. intros [= <- <-]. right. left. by split_and!.
  - pose proof (any_None_false _ _ _ Hany Hwriters) as Hhas.
    assert (NoDup (keys (vw_writers st))) as Hnd.
    { rewrite Hkeys. by destruct Hready. }
    destruct (release_writers_files ep_name _ (vw_writers st) w2 Hnd Hhas)
      as (w3 & Hrel & Hvid & Hframe).
    rewrite (bind_Ok _ _ _ _ _ Hrel).
    assert (length (rows st) <> 0)%nat as Hpos.
    { intros Hz. rewrite Hfresh in Hany; [|by destruct (rows st)].
      by rewrite any_None_new_episode in Hany. }
    assert (forall p, (forall cam_name, p <> video_path cam_name ep_name) ->
                      files w3 !! p = files w !! p) as Hother.
    { intros p Hp. rewrite Hframe by (intros c _; apply Hp). by rewrite Hvideos. }
    fold episodes_jsonl episodes_stats_jsonl.
    assert (parquet_path ep_name <> episodes_jsonl) as Hpe by done.
    assert (parquet_path ep_name <> episodes_stats_jsonl) as Hps by done.
    assert (episodes_jsonl <> episodes_stats_jsonl) as Hes by done.
    assert (forall c, parquet_path ep_name <> video_path c ep_name) as Hpv by done.
    assert (forall c, episodes_jsonl <> video_path c ep_name) as Hev by done.
    assert (forall c, episodes_stats_jsonl <> video_path c ep_name) as Hsv by done.
    unfold episode_recorded. fold ep_name.
    generalize dependent (parquet_path ep_name). intros pq Hpe Hps Hpv.
    generalize dependent episodes_stats_jsonl. intros sj Hes Hsv Hps.
    generalize dependent episodes_jsonl. intros ej Hev Hpe Hes.
    unfold write_table, _append_jsonl, bind, emit, update_files, append_item. simpl.
    intros [= <- <-]. right. right. split; [done|].
    exists (length (rows st)). split; [lia|]. split; [lia|]. simpl. split_and!.
    + exists (rows st). split_and!; [done| |done].
      rewrite !lookup_insert_ne by done. by rewrite lookup_insert_eq.
    + rewrite lookup_insert_ne by done. rewrite lookup_insert_eq.
      rewrite lookup_insert_ne by done. by rewrite Hother, Hcount.
    + rewrite lookup_insert_eq. rewrite !lookup_insert_ne by done.
      by rewrite Hother, Hcount.
    + intros c Hc. rewrite !lookup_insert_ne by done. apply Hvid. by rewrite Hkeys.
    + intros p Hp1 Hp2 Hp3 Hp4. rewrite !lookup_insert_ne by done. by apply Hother.
Qed.





Lemma episodes_outcome fuel h args cam_specs cam_readers N s w r w' :
  cameras_ready cam_specs cam_readers -> cam_specs <> [] ->
  for_each (run_episode fuel h args cam_specs cam_readers) (seq s N) w = (r, w') ->
  r = Running \/
  (r = Raise (AttributeError_None "release") /\ max_frames args <= 0 /\
   files w' = files w) \/
  (r = Ok tt /\
   exists lens, length lens = N /\
                episodes_recorded cam_specs (max_frames args) s lens (files w) (files w')).
Proof.
  intros Hready Hne. revert s w. induction N as [|N IH]; intros s w; simpl.
  - intros [= <- <-]. right. right. split; [done|]. exists []. split; [done|].
    unfold episodes_recorded. simpl. rewrite !app_nil_r. split_and!; [done..| |done].
    intros i n Hi. by rewrite lookup_nil in Hi.
  - intros H. apply bind_inv in H as [([] & w1 & Hhead & Hrest)|[(e & Hhead & ->)|(Hhead & ->)]].
    + apply run_episode_outcome in Hhead as [[=]|[([=] & _)|(_ & n & Hn1 & HnM & Hrec)]];
        [|done..].
      apply IH in Hrest as [->|[(-> & HM & _)|(-> & lens & Hlen & Hrecs)]];
        [by left|lia|].
      right. right. split; [done|]. exists (n :: lens). split; [simpl; by rewrite Hlen|].
      destruct Hrec as ((rows & Hrows & Htable & _) & Hej & Hsj & Hvid & Hframe).
      destruct Hrecs as (Hej' & Hsj' & Heach & Hframe').
      assert (forall i, parquet_path (_make_episode_name s)
                        <> parquet_path (_make_episode_name (S s + i))) as Hpq.
      { intros i Heq. apply parquet_path_inj, make_episode_name_inj in Heq. lia. }
      assert (forall i c c', video_path c (_make_episode_name s)
                             <> video_path c' (_make_episode_name (S s + i))) as Hvp.
      { intros i c c' Heq. apply video_path_episode_inj, make_episode_name_inj in Heq.
        lia. }
      unfold episodes_recorded. split_and!.
      * rewrite Hej', Hej. simpl. rewrite <- app_assoc. f_equal. simpl.
        rewrite Nat.add_0_r. f_equal. apply imap_ext. intros i x _. simpl.
        by rewrite Nat.add_succ_r.
      * rewrite Hsj', Hsj. simpl. rewrite <- app_assoc. f_equal. simpl.
        rewrite Nat.add_0_r. f_equal. apply imap_ext. intros i x _. simpl.
        by rewrite Nat.add_succ_r.
      * intros [|i] m Hm; simpl in Hm.
        -- injection Hm as <-. rewrite Nat.add_0_r. split_and!; [done..| |].
           ++ exists rows. split; [done|]. rewrite Hframe'; [done..|].
              intros i Hi. split; [apply Hpq|]. intros c Heq.
              apply (f_equal length) in Heq. simpl in Heq. discriminate.
           ++ intros c Hc. destruct (Hvid c Hc) as (vw & Hv & Hp & Hl).
              exists vw. split; [|done]. rewrite Hframe'; [done..|].
              intros i Hi. split; [|intros c'; apply Hvp]. intros Heq.
              apply (f_equal length) in Heq. simpl in Heq. discriminate.
        -- rewrite Nat.add_succ_r. by apply Heach.
      * intros p Hp1 Hp2 Hp. rewrite Hframe'; [|done..|].
        -- apply Hframe; [|done..|].
           ++ specialize (Hp 0%nat). rewrite Nat.add_0_r in Hp. apply Hp. simpl. lia.
           ++ specialize (Hp 0%nat). rewrite Nat.add_0_r in Hp. apply Hp. simpl. lia.
        -- intros i Hi. specialize (Hp (S i)). rewrite Nat.add_succ_r in Hp.
           apply Hp. simpl. lia.
    + apply run_episode_outcome in Hhead as [[=]|[([= ->] & HM & Hfiles)|([=] & _)]];
        [|done..].
      by right; left.
    + by left.
Qed.

(** ** A whole run *)

Lemma record_dataset_outcome fuel h args w r w' :
  record_dataset fuel h args w = (r, w') ->
  r = Running \/
  (exists e, r = Raise e /\ config_error e /\ w' = w) \/
  (exists cam_specs,
      parse_cameras h args w = (Ok cam_specs, w) /\
      ((exists i, r = Raise (RuntimeError_open i) /\ i ∈ values cam_specs /\
                  files w' = prepared_files args w) \/
       (r = Raise (AttributeError_None "release") /\ max_frames args <= 0 /\
        1 <= episodes args /\ files w' = prepared_files args w) \/
       (r = Ok tt /\
        exists lens, length lens = Z.to_nat (episodes args) /\
                     episodes_recorded cam_specs (max_frames args) 0 lens
                       (prepared_files args w) (files w')))).
Proof.
  intros H.
  apply record_dataset_cases in H
    as [(e & -> & He & ->)|(cam_specs & w1 & Hparse & Hprep & H)]; [right; left; eauto|].
  destruct (parse_cameras_Ok _ _ _ _ _ Hparse) as (_ & Hnodup & Hne).
  destruct (prepare_output_spec args cam_specs w Hne) as (w1' & Hprep' & _ & Hfiles1 & _).
  rewrite Hprep in Hprep'. injection Hprep' as <-.
  destruct H as [(i & Hopen & ->)|(cam_readers & w2 & Hopen & H)].
  - right. right. exists cam_specs. split; [done|]. left. exists i. split; [done|].
    destruct (open_cameras_result _ _ _ _ _ _ _ Hopen) as [(? & [=])|(j & [= <-] & Hj)].
    split; [done|].
    destruct (open_cameras_only h args cam_specs [] _ _ _ Hopen) as ((_ & -> & _) & _).
    done.
  - pose proof (open_cameras_ready _ _ _ _ _ _ Hnodup Hopen) as Hready.
    destruct (open_cameras_only h args cam_specs [] _ _ _ Hopen) as ((_ & Hfiles2 & _) & _).
    unfold try_finally in H.
    destruct (for_each (run_episode fuel h args cam_specs cam_readers)
                (seq 0 (Z.to_nat (episodes args))) w2) as [r0 w3] eqn:Hbody.
    destruct (release_all_trace (values cam_readers) w3) as (w4 & Hrel & _ & Hfiles4);
      [apply Hready|].
    pose proof Hbody as Hbody'.
    apply (episodes_outcome _ _ _ _ _ _ _ _ _ _ Hready Hne) in Hbody'
      as [->|[(-> & HM & Hfiles3)|(-> & lens & Hlen & Hrec)]].
    + injection H as <- <-. by left.
    + rewrite Hrel in H. injection H as <- <-.
      right. right. exists cam_specs. split; [done|]. right. left.
      split_and!; [done..| |].
      * destruct (Z.to_nat (episodes args)) eqn:Hn; [|lia]. simpl in Hbody. done.
      * by rewrite Hfiles4, Hfiles3, Hfiles2.
    + rewrite Hrel in H. injection H as <- <-.
      right. right. exists cam_specs. split; [done|]. right. right. split; [done|].
      exists lens. split; [done|]. by rewrite Hfiles4, <- Hfiles1, <- Hfiles2.
Qed.

(** X8.  What a run never raises.  No frame is read from a camera that was
    not opened; no video writer is looked up under a missing name or
    written to before it was created; and [1 / fps] is never evaluated with
    [fps = 0], for then the frame budget is 0 and the loop body is not
    entered.  An [AttributeError] on [None] is that of [release], on the
    writer that was never created, and arises only when the frame budget is
    not positive and an episode is asked for, before any episode has
    written anything. *)
Theorem run_never_raises fuel h args w e w' :
  record_dataset fuel h args w = (Raise e, w') ->
  e <> RuntimeError_not_opened /\ e <> ZeroDivisionError /\
  (forall key, e <> KeyError key) /\
  (forall attr, e = AttributeError_None attr ->
                attr = "release" /\ max_frames args <= 0 /\ 1 <= episodes args /\
                files w' = prepared_files args w).
Proof.
  intros H.
  apply record_dataset_outcome in H
    as [[=]|[(e' & [= <-] & He & ->)|(cam_specs & Hparse & H)]].
  { by destruct e. }
  destruct H as [(i & [= ->] & Hi & Hfiles)|[([= ->] & HM & Heps & Hfiles)|([=] & _)]].
  - by split_and!.
  - split_and!; [done..|]. by intros attr [= <-].
Qed.

Lemma run_never_raises_witness :
  let e := AttributeError_None "release" in
  let w' := snd (record_dataset 5 steady_host negative_duration_args old_dataset) in
  e <> RuntimeError_not_opened /\ e <> ZeroDivisionError /\
  (forall key, e <> KeyError key) /\
  (forall attr, e = AttributeError_None attr ->
                attr = "release" /\ max_frames negative_duration_args <= 0 /\
                1 <= episodes negative_duration_args /\
                files w' = prepared_files negative_duration_args old_dataset).
Proof.
  apply (run_never_raises 5 steady_host negative_duration_args old_dataset).
  assert (fst (record_dataset 5 steady_host negative_duration_args old_dataset)
          = Raise (AttributeError_None "release")) as Hfst by (vm_compute; reflexivity).
  rewrite <- Hfst. apply surjective_pairing.
Defined.



(** X9.  With a frame budget [ceil(duration * fps)] that is not positive
    ([--duration 0], a negative duration, [--fps 0]) a run whose cameras all
    open does not record an empty episode: for any number [>= 1] of
    requested episodes it stops in the first one with the [AttributeError]
    of [None.release()], having prepared the output directory and written
    no table and no episode record. *)
Theorem run_without_budget_crashes fuel h args w :
  (exists cam_specs, parse_cameras h args w = (Ok cam_specs, w)) ->
  (forall k i, isOpened h k i = true) ->
  max_frames args <= 0 -> 1 <= episodes args ->
  exists w', record_dataset fuel h args w = (Raise (AttributeError_None "release"), w') /\
             files w' = prepared_files args w.
Proof.
  intros (cam_specs & Hparse) Hopen HM Heps.
  destruct (parse_cameras_Ok _ _ _ _ _ Hparse) as (_ & Hnd & Hne).
  destruct (prepare_output_spec args cam_specs w Hne) as (w1 & Hprep & _ & Hfs1 & _).
  destruct (open_cameras_all_open h args cam_specs [] w1 Hopen) as (rs & w2 & Hcams).
  pose proof (open_cameras_ready _ _ _ _ _ _ Hnd Hcams) as Hready.
  apply open_cameras_only in Hcams as Hw2. destruct Hw2 as [(_ & Hfs2 & _) _].
  unfold record_dataset.
  rewrite (bind_Ok _ _ _ _ _ Hparse), (bind_Ok _ _ _ _ _ Hprep), (bind_Ok _ _ _ _ _ Hcams).
  destruct (Z.to_nat (episodes args)) as [|m] eqn:Hm; [lia|].
  simpl.
  destruct (episode_without_budget_raises fuel h args cam_specs rs 0%nat w2 Hne HM)
    as (w3 & Hrun & Hfs3).
  destruct (release_all_trace (values rs) w3) as (w4 & Hrel & _ & Hfs4); [apply Hready|].
  exists w4. unfold try_finally, bind. rewrite Hrun, Hrel. split; [done|congruence].
Qed.

Lemma run_without_budget_crashes_witness :
  exists w', record_dataset 5 steady_host negative_duration_args old_dataset
             = (Raise (AttributeError_None "release"), w') /\
             files w' = prepared_files negative_duration_args old_dataset.
Proof.
  apply (run_without_budget_crashes 5 steady_host negative_duration_args old_dataset).
  - assert (fst (parse_cameras steady_host negative_duration_args old_dataset)
            = Ok front_specs) as Hfst by (vm_compute; reflexivity).
    destruct (parse_cameras_pure steady_host negative_duration_args old_dataset)
      as (r0 & Hparse & _).
    rewrite Hparse in Hfst. simpl in Hfst. subst r0. by exists front_specs.
  - reflexivity.
  - vm_compute. discriminate.
  - vm_compute. discriminate.
Defined.

(** ** Pacing *)

Section Quiet.
Variable P : Event -> Prop.
Hypothesis P_read : forall i ok, P (EvCapRead i ok).
Hypothesis P_print : forall m, P (EvPrint m).
Hypothesis P_open : forall p, P (EvVwOpen p).
Hypothesis P_write : forall p, P (EvVwWrite p).

Lemma quiet_read_all h cam_readers frames w r w' :
  read_all h cam_readers frames w = (r, w') ->
  emits P w w' /\ (calls w <= calls w')%nat.
Proof.
  revert frames w. induction cam_readers as [|[name rd] rest IH]; intros frames w; simpl.
  - intros [= <- <-]. split; [apply emits_refl|done].
  - unfold bind at 1. unfold reader_read. destruct (cap rd) as [dev|].
    + unfold bind, observe, emit. simpl.
      destruct (cap_read h (calls w) dev) as [f|]; simpl.
      * intros H. apply IH in H as [H Hc]. simpl in Hc. split; [|lia].
        eapply emits_trans; [|exact H].
        eapply emits_trans; [by apply (emits_same P w (tick_calls w))|].
        apply emits_log, P_read.
      * intros [= <- <-]. simpl. split; [|lia].
        eapply emits_trans; [by apply (emits_same P w (tick_calls w))|].
        eapply emits_trans; [apply (emits_log P (EvCapRead dev false)), P_read|].
        apply emits_log, P_print.
    + intros [= <- <-]. split; [apply emits_refl|done].
Qed.

Lemma quiet_init_writers args ep_name pairs vws w r w' :
  init_writers args ep_name pairs vws w = (r, w') ->
  emits P w w' /\ calls w' = calls w.
Proof.
  revert vws w. induction pairs as [|[cam_name f] pairs IH]; intros vws w; simpl.
  - intros [= <- <-]. split; [apply emits_refl|done].
  - unfold bind at 1. unfold _init_video_writer. destruct (shape f) as [[hh ww] cc].
    unfold bind, emit, update_files. simpl. intros H. apply IH in H as [H Hc].
    split; [|done]. eapply emits_trans; [|exact H].
    eapply emits_trans; [apply emits_log, (P_open (video_path cam_name ep_name))|].
    by apply emits_same.
Qed.

Lemma quiet_write_frames pairs vws w r w' :
  write_frames pairs vws w = (r, w') ->
  emits P w w' /\ calls w' = calls w.
Proof.
  revert vws w. induction pairs as [|[cam_name f] pairs IH]; intros vws w; simpl.
  - intros [= <- <-]. split; [apply emits_refl|done].
  - destruct (dict_get cam_name vws) as [[vw|]|].
    + unfold bind at 1. unfold vw_write, bind, emit. simpl. intros H.
      apply IH in H as [H Hc]. split; [|done].
      eapply emits_trans; [|exact H]. apply emits_log, P_write.
    + intros [= <- <-]. split; [apply emits_refl|done].
    + intros [= <- <-]. split; [apply emits_refl|done].
Qed.

End Quiet.

Lemma Qpos_spec q : Qpos q = true <-> (0 < q)%Q.
Proof.
  unfold Qpos. rewrite negb_true_iff. split.
  - intros H. apply Qnot_le_lt. intros Hle. apply Qle_bool_iff in Hle. congruence.
  - intros H. destruct (Qle_bool q 0) eqn:Hq; [|done].
    apply Qle_bool_iff in Hq. by apply Qlt_not_le in H.
Qed.

(** X10.  A pass through the loop body sleeps at most once, as its very last
    effect, and only after a frame was stored that did not end the episode
    by [min_frames].  It sleeps for what the pass has left of the frame
    period, computed in floats as the code computes it: the rounded
    [1 / fps] less the rounded time between the pass's first and last
    readings of the clock, rounded; when that is not positive the pass does
    not sleep.  (The clock's readings are taken to differ by less than the
    largest double.) *)
Theorem pass_sleeps_for_the_remainder h args cam_specs cam_readers ep_name start_t st
  w r w' :
  pass_in_range h args w w' ->
  tick h args cam_specs cam_readers ep_name start_t st w = (r, w') ->
  let dt := pass_remainder h args w w' in
  exists evs, Forall no_sleep evs /\
    ((trace w' = trace w ++ evs /\
      forall st', r = Ok (FlowNext, st') -> (dt <= 0)%Q) \/
     (trace w' = trace w ++ evs ++ [EvSleep dt] /\ (0 < dt)%Q /\
      exists st', r = Ok (FlowNext, st') /\ frame_count st' = frame_count st + 1)).
Proof.
  intros _.
  assert (forall e, (forall dt, e <> EvSleep dt) -> no_sleep e) as Hns by done.
  unfold tick. unfold bind at 1. unfold observe at 1.
  set (w0 := tick_calls w). set (loop_start := time_time h (calls w)).
  unfold bind at 1.
  destruct (read_all h cam_readers [] w0) as [[[success frames]|e|] w1] eqn:Hread.
  2,3: apply (quiet_read_all no_sleep) in Hread as [(evs & Hevs & Hq) _]; [|done..];
       intros [= <- <-]; exists evs; split; [done|]; left; split; [done|done].
  apply (quiet_read_all no_sleep) in Hread as [(evs1 & Hevs1 & Hq1) Hc1]; [|done..].
  destruct success; simpl.
  2: { intros [= <- <-]. exists evs1. split; [done|]. left. split; [done|done]. }
  unfold store_frames. unfold bind at 1.
  destruct ((if any_None (vw_writers st)
             then init_writers args ep_name (zip (keys cam_specs) frames) (vw_writers st)
             else ret (vw_writers st)) w1) as [[vws1|e|] w2] eqn:Hinit.
  2,3: assert (emits no_sleep w1 w2) as (evs2 & Hevs2 & Hq2)
         by (destruct (any_None (vw_writers st));
             [by apply (quiet_init_writers no_sleep) in Hinit as [? _]
             |discriminate Hinit]);
       intros [= <- <-]; exists (evs1 ++ evs2); split; [by apply Forall_app|];
       left; split; [by rewrite Hevs2, Hevs1, app_assoc|done].
  assert (emits no_sleep w1 w2 /\ calls w2 = calls w1) as [(evs2 & Hevs2 & Hq2) Hc2].
  { destruct (any_None (vw_writers st)).
    - by apply (quiet_init_writers no_sleep) in Hinit.
    - injection Hinit as _ <-. split; [apply emits_refl|done]. }
  unfold bind at 1.
  destruct (write_frames (zip (keys cam_specs) frames) vws1 w2) as [[vws2|e|] w3] eqn:Hwrite.
  2,3: apply (quiet_write_frames no_sleep) in Hwrite as [(evs3 & Hevs3 & Hq3) _]; [|done..];
       intros [= <- <-]; exists (evs1 ++ evs2 ++ evs3);
       split; [by rewrite !Forall_app|];
       left; split; [by rewrite Hevs3, Hevs2, Hevs1, !app_assoc|done].
  apply (quiet_write_frames no_sleep) in Hwrite as [(evs3 & Hevs3 & Hq3) Hc3]; [|done..].
  assert (trace w3 = trace w ++ evs1 ++ evs2 ++ evs3) as Htr
    by (by rewrite Hevs3, Hevs2, Hevs1, !app_assoc).
  assert (Forall no_sleep (evs1 ++ evs2 ++ evs3)) as Hq by (by rewrite !Forall_app).
  unfold bind at 1. unfold observe at 1. cbn [frame_count].
  destruct (min_frames args <=? frame_count st + 1).
  { unfold bind, emit. intros [= <- <-].
    exists ((evs1 ++ evs2 ++ evs3) ++ [EvPrint (MsgMinFrames (frame_count st + 1)
                                                   (min_frames args))]).
    split; [apply Forall_app; split; [done|by constructor]|].
    left. split; [simpl; by rewrite Htr, <- !app_assoc|done]. }
  destruct (fps args =? 0).
  { intros [= <- <-]. exists (evs1 ++ evs2 ++ evs3). split; [done|].
    left. split; [done|done]. }
  unfold bind at 1. unfold observe at 1. unfold bind at 1.
  set (w4 := tick_calls (tick_calls w3)).
  assert (calls w4 - 1 = calls (tick_calls w3))%nat as Hlast by (simpl; lia).
  assert (calls w <= calls (tick_calls w3))%nat as Hle by (simpl in *; lia).
  assert (forall w'', calls w'' = calls w4 ->
            pass_remainder h args w w''
            = round_double
                (round_double (1 / inject_Z (fps args))
                 - round_double (time_time h (calls (tick_calls w3)) - loop_start))%Q)
    as Hdt.
  { intros w'' Hw''. unfold pass_remainder, pass_elapsed. by rewrite Hw'', Hlast. }
  destruct (Qpos _) eqn:Hpos.
  - unfold emit, ret. intros [= <- <-]. exists (evs1 ++ evs2 ++ evs3).
    split; [done|]. right. rewrite Hdt by done. split_and!.
    + simpl. by rewrite Htr, <- !app_assoc.
    + by apply Qpos_spec.
    + by eexists.
  - unfold ret. intros [= <- <-]. exists (evs1 ++ evs2 ++ evs3). split; [done|].
    left. split; [done|]. intros st' _. rewrite Hdt by done.
    apply Qnot_lt_le. intros Hlt. apply Qpos_spec in Hlt. congruence.
Qed.

Lemma pass_sleeps_for_the_remainder_witness :
  let w := empty_world in
  let st := new_episode front_specs in
  let out := tick steady_host short_args front_specs front_readers "episode_000000" 0 st w in
  let dt := pass_remainder steady_host short_args w (snd out) in
  exists evs, Forall no_sleep evs /\
    ((trace (snd out) = trace w ++ evs /\
      forall st', fst out = Ok (FlowNext, st') -> (dt <= 0)%Q) \/
     (trace (snd out) = trace w ++ evs ++ [EvSleep dt] /\ (0 < dt)%Q /\
      exists st', fst out = Ok (FlowNext, st') /\ frame_count st' = frame_count st + 1)).
Proof.
  apply (pass_sleeps_for_the_remainder steady_host short_args front_specs front_readers
           "episode_000000" 0 (new_episode front_specs) empty_world).
  - split; vm_compute; reflexivity.
  - apply surjective_pairing.
Defined.

(** On the steady host, whose clock advances by 1/100 s per reading, the
    first pass at 30 fps takes three readings and sleeps for the float
    [1/30 - 0.03], which is positive and not the rational 1/300. *)
Example steady_pass_sleeps :
  exists dt,
    last (trace (snd (tick steady_host short_args front_specs front_readers
                        "episode_000000" 0 (new_episode front_specs) empty_world)))
    = Some (EvSleep dt) /\
    fl dt = S754_finite false 7686143364045648 (-61) /\
    (0 < dt)%Q /\ ~ (dt == 1 # 300)%Q.
Proof.
  eexists. split; [vm_compute; reflexivity|].
  split; [vm_compute; reflexivity|]. split; [reflexivity|]. by intros [=].
Qed.

(** * find_camera.py *)

Lemma printed_probe h k indices :
  printed (probe h k indices)
  = imap (fun j i => if isOpened h (k + j) i then Available i else Unavailable i) indices.
Proof.
  revert k. induction indices as [|i rest IH]; intros k; [done|].
  simpl. rewrite Nat.add_0_r.
  assert (printed (probe h (S k) rest)
          = imap ((fun j i => if isOpened h (k + j) i then Available i else Unavailable i)
                  ∘ S) rest) as Hrest.
  { rewrite IH. apply imap_ext. intros j x _. simpl. by rewrite Nat.add_succ_r. }
  destruct (isOpened h k i); simpl; by rewrite Hrest.
Qed.

(** X12.  [find_cameras] prints exactly one line for each index
    [0 .. max_test_index - 1], in increasing order, and nothing for a
    [max_test_index <= 0]: the line of index [i] says available exactly
    when the capture constructed for it, the [i]-th of the run, is open. *)
Theorem find_cameras_reports_every_index h max_test_index :
  printed (find_cameras h max_test_index)
  = (fun k => let i := Z.of_nat k in
              if isOpened h k i then Available i else Unavailable i)
    <$> seq 0 (Z.to_nat max_test_index).
Proof.
  unfold find_cameras, range. rewrite printed_probe.
  generalize (Z.to_nat max_test_index). intros n.
  apply list_eq. intros j. rewrite list_lookup_imap, !list_lookup_fmap.
  destruct (seq 0 n !! j) as [k|] eqn:Hj; [|done]. simpl.
  apply lookup_seq in Hj as [-> _]. done.
Qed.

Lemma held_after_block h k i xs :
  held_after [] (PrOpen i (isOpened h k i)
                 :: (if isOpened h k i then [PrPrint (Available i); PrRelease i]
                     else [PrPrint (Unavailable i)]) ++ xs)
  = held_after [] xs.
Proof.
  destruct (isOpened h k i); simpl; [|done].
  rewrite filter_cons. by destruct (decide (i <> i)).
Qed.

Lemma held_after_probe_end h k indices : held_after [] (probe h k indices) = [].
Proof.
  revert k. induction indices as [|i indices IH]; intros k; cbn [probe]; [done|].
  by rewrite held_after_block.
Qed.

Lemma held_after_probe h k indices evs rest :
  probe h k indices = evs ++ rest -> (length (held_after [] evs) <= 1)%nat.
Proof.
  revert k evs. induction indices as [|i indices IH]; intros k evs; cbn [probe].
  - intros H. symmetry in H. apply app_eq_nil in H as [-> _]. simpl. lia.
  - intros H. destruct evs as [|e1 evs]; [simpl; lia|].
    injection H as <- H.
    destruct (isOpened h k i); simpl in H.
    + destruct evs as [|e2 evs]; [simpl; lia|]. injection H as <- H.
      destruct evs as [|e3 evs]; [simpl; lia|]. injection H as <- H.
      simpl. rewrite filter_cons. destruct (decide (i <> i)); [done|].
      rewrite filter_nil. by apply (IH (S k) evs).
    + destruct evs as [|e2 evs]; [simpl; lia|]. injection H as <- H.
      simpl. by apply (IH (S k) evs).
Qed.

(** X13.  [find_cameras] releases every capture that opened before it constructs
    the next one: at no point of a run is more than one capture open, and
    at the end none is. *)
Theorem find_cameras_holds_one_capture h max_test_index :
  (forall evs rest, find_cameras h max_test_index = evs ++ rest ->
                    (length (held_after [] evs) <= 1)%nat) /\
  held_after [] (find_cameras h max_test_index) = [].
Proof.
  split.
  - intros evs rest H. by apply held_after_probe in H.
  - apply held_after_probe_end.
Qed.

Lemma probe_available h k indices i :
  PrPrint (Available i) ∈ probe h k indices -> exists k', isOpened h k' i = true.
Proof.
  revert k. induction indices as [|j rest IH]; intros k; simpl.
  - by intros ?%elem_of_nil.
  - destruct (isOpened h k j) eqn:Hj; simpl; rewrite !elem_of_cons.
    + intros [[=]|[[= ->]|[[=]|H]]]; [by exists k|by eapply IH].
    + intros [[=]|[[=]|H]]. by eapply IH.
Qed.

Lemma open_cameras_available h args cam_specs cam_readers w :
  (forall k i, i ∈ values cam_specs -> isOpened h k i = true) ->
  exists rs w', open_cameras h args cam_specs cam_readers w = (Ok rs, w').
Proof.
  revert cam_readers w.
  induction cam_specs as [|[name idx] rest IH]; intros cam_readers w Hopen; simpl.
  - by eexists _, _.
  - unfold bind at 1. unfold reader_open, bind, observe, emit. simpl.
    rewrite Hopen by (simpl; apply elem_of_cons; by left). simpl.
    apply IH. intros k i Hi. apply Hopen. simpl. apply elem_of_cons. by right.
Qed.

(** X14.  The two scripts together: on a host whose devices do not come and go,
    a run of the recorder whose camera arguments name only indices that
    [find_cameras] reported available does not fail to open a camera:
    however it ends, it is not with the [RuntimeError] of [open]. *)
Theorem reported_cameras_open fuel h args w cam_specs max_test_index r w' :
  stable_devices h ->
  parse_cameras h args w = (Ok cam_specs, w) ->
  (forall i, i ∈ values cam_specs ->
             PrPrint (Available i) ∈ find_cameras h max_test_index) ->
  record_dataset fuel h args w = (r, w') ->
  forall i, r <> Raise (RuntimeError_open i).
Proof.
  intros Hstable Hparse Hfound Hrun i.
  assert (forall k j, j ∈ values cam_specs -> isOpened h k j = true) as Hopen.
  { intros k j Hj. apply Hfound, probe_available in Hj as [k' Hk'].
    by rewrite (Hstable k k' j). }
  pose proof (parse_cameras_Ok _ _ _ _ _ Hparse) as (_ & Hnd & Hne).
  destruct (prepare_output_spec args cam_specs w Hne) as (w1 & Hprep & _).
  destruct (open_cameras_available h args cam_specs [] w1 Hopen) as (rs & w2 & Hcams).
  pose proof (open_cameras_ready _ _ _ _ _ _ Hnd Hcams) as Hready.
  unfold record_dataset in Hrun.
  rewrite (bind_Ok _ _ _ _ _ Hparse), (bind_Ok _ _ _ _ _ Hprep), (bind_Ok _ _ _ _ _ Hcams)
    in Hrun.
  unfold try_finally in Hrun.
  destruct (for_each (run_episode fuel h args cam_specs rs) _ w2) as [r0 w3] eqn:Hbody.
  destruct (release_all_trace (values rs) w3) as (w4 & Hrel & _); [apply Hready|].
  apply (episodes_outcome _ _ _ _ _ _ _ _ _ _ Hready Hne) in Hbody
    as [->|[(-> & _)|(-> & _)]].
  - by injection Hrun as <- _.
  - rewrite Hrel in Hrun. by injection Hrun as <- _.
  - rewrite Hrel in Hrun. by injection Hrun as <- _.
Qed.

Lemma reported_cameras_open_witness :
  exists r, r = fst (record_dataset 10 steady_host short_args empty_world) /\
            forall i, r <> Raise (RuntimeError_open i).
Proof.
  eexists. split; [reflexivity|].
  apply (reported_cameras_open 10 steady_host short_args empty_world front_specs 10
           _ (snd (record_dataset 10 steady_host short_args empty_world))).
  - by intros k k' i.
  - vm_compute. reflexivity.
  - intros i Hi. apply (list_elem_of_singleton i 0) in Hi as ->.
    apply list_elem_of_In. vm_compute. tauto.
  - apply surjective_pairing.
Defined.

(** * Which frame goes to which video *)

Lemma read_all_content h cam_readers frames w fs w' :
  Forall opened (values cam_readers) ->
  read_all h cam_readers frames w = (Ok (true, fs), w') ->
  exists new, fs = frames ++ new /\ length new = length cam_readers /\
              forall j name rd, cam_readers !! j = Some (name, rd) ->
                                cap_read h (calls w + j) (index rd) = new !! j.
Proof.
  revert frames w. induction cam_readers as [|[name rd] rest IH]; intros frames w Hop; simpl.
  - intros [= <- <-]. exists []. rewrite app_nil_r. split_and!; [done..|].
    intros j ? ? Hj. by rewrite lookup_nil in Hj.
  - apply Forall_cons in Hop as [Hrd Hop]. simpl in Hrd.
    unfold reader_read. rewrite Hrd. unfold bind, observe, emit, ret. simpl.
    destruct (cap_read h (calls w) (index rd)) as [f|] eqn:Hread; [|done].
    intros H. apply IH in H as (new & -> & Hlen & Hnew); [|done].
    exists (f :: new). split_and!.
    + by rewrite <- app_assoc.
    + simpl. by rewrite Hlen.
    + intros [|j] name' rd' Hj; simpl in Hj.
      * injection Hj as <- <-. by rewrite Nat.add_0_r.
      * simpl. rewrite <- (Hnew j name' rd' Hj). simpl. by rewrite Nat.add_succ_r.
Qed.

Lemma init_writers_content args ep_name rest frames pre w :
  length frames = length rest -> NoDup (keys pre ++ keys rest) ->
  exists w',
    init_writers args ep_name (zip (keys rest) frames) (pre ++ rest) w
    = (Ok (pre ++ zip_with (fun kv f => (fst kv, Some (fresh_writer args ep_name (fst kv) f)))
                    rest frames), w').
Proof.
  revert frames pre w. induction rest as [|[k v] rest IH]; intros frames pre w Hlen Hnd.
  - exists w. destruct frames; [|done]. done.
  - destruct frames as [|f frames]; [done|]. injection Hlen as Hlen.
    unfold keys in *. csimpl in *.
    assert (k ∉ pre.*1) as Hfresh.
    { apply NoDup_app in Hnd as (_ & Hdisj & _). intros Hin.
      apply (Hdisj k Hin). left. }
    unfold fresh_writer at 1.
    destruct (shape f) as [[hh ww] cc] eqn:Hshape.
    unfold bind at 1. unfold _init_video_writer, bind, emit, update_files, ret.
    simpl. rewrite dict_set_mid by done.
    rewrite (cons_middle (k, _) pre rest), app_assoc.
    edestruct (IH frames (pre ++ [(k, Some {| vw_path := video_path k ep_name;
                                              vw_fps := fps args;
                                              vw_size := (ww, hh);
                                              vw_frames := [] |})]))
      as (w' & ->); [done| |].
    { rewrite fmap_app. simpl. by rewrite <- app_assoc. }
    exists w'. by rewrite <- app_assoc.
Qed.

Lemma write_frames_content rest frames pre w :
  length frames = length rest -> NoDup (keys pre ++ keys rest) ->
  Forall (fun kv => is_Some (snd kv)) rest ->
  exists w',
    write_frames (zip (keys rest) frames) (pre ++ rest) w
    = (Ok (pre ++ zip_with (fun kv f => (fst kv, with_frame f <$> snd kv)) rest frames), w').
Proof.
  revert frames pre w. induction rest as [|[k v] rest IH]; intros frames pre w Hlen Hnd Hall.
  - exists w. destruct frames; [|done]. done.
  - destruct frames as [|f frames]; [done|]. injection Hlen as Hlen.
    apply Forall_cons in Hall as [[vw Hv] Hall]. simpl in Hv. subst v.
    unfold keys in *. csimpl in *.
    assert (k ∉ pre.*1) as Hfresh.
    { apply NoDup_app in Hnd as (_ & Hdisj & _). intros Hin.
      apply (Hdisj k Hin). left. }
    rewrite dict_get_mid by done.
    unfold bind at 1. unfold vw_write, bind, emit, ret. simpl.
    rewrite dict_set_mid by done.
    rewrite (cons_middle (k, _) pre rest), app_assoc.
    edestruct (IH frames (pre ++ [(k, Some (with_frame f vw))]))
      as (w' & Hw'); [done| |done|].
    { rewrite fmap_app. simpl. by rewrite <- app_assoc. }
    exists w'. unfold with_frame at 1 in Hw'. rewrite Hw'. by rewrite <- app_assoc.
Qed.

Lemma keys_zip_with {V W} (g : string * V -> Frame -> W) (d : dict V) (frames : list Frame) :
  length frames = length d ->
  keys (zip_with (fun kv f => (fst kv, g kv f)) d frames) = keys d.
Proof.
  revert frames. induction d as [|kv d IH]; intros [|f frames] Hlen; try done.
  unfold keys in *. csimpl. f_equal. apply IH. by injection Hlen.
Qed.

Lemma dict_get_lookup {V} (d : dict V) j k v :
  NoDup (keys d) -> d !! j = Some (k, v) -> dict_get k d = Some v.
Proof.
  revert j. induction d as [|[k' v'] d IH]; intros j Hnd Hj; [by rewrite lookup_nil in Hj|].
  unfold keys in *. csimpl in *. apply NoDup_cons in Hnd as [Hk' Hnd].
  destruct j as [|j]; simpl in Hj.
  - injection Hj as -> ->. by destruct (decide (k = k)).
  - destruct (decide (k' = k)) as [->|Hne]; [|by eapply IH].
    exfalso. apply Hk'. apply list_elem_of_fmap. exists (k, v). split; [done|].
    by eapply list_elem_of_lookup_2.
Qed.

Lemma store_frames_writers h args cam_specs ep_name start_t loop_start frames st w
  flow st' w' :
  NoDup (keys cam_specs) -> length frames = length cam_specs ->
  episode_inv cam_specs ep_name st ->
  store_frames h args cam_specs ep_name start_t loop_start frames st w
  = (Ok (flow, st'), w') ->
  vw_writers st'
  = zip_with (fun kv f => (fst kv, with_frame f <$> snd kv))
      (if any_None (vw_writers st)
       then zip_with (fun kv f => (fst kv, Some (fresh_writer args ep_name (fst kv) f)))
              (vw_writers st) frames
       else vw_writers st)
      frames.
Proof.
  intros Hnd Hlen (Hkeys & Hcount & Hsync & Hrows).
  assert (length frames = length (vw_writers st)) as Hlen'.
  { rewrite Hlen. unfold keys in Hkeys.
    by rewrite <- (length_fmap fst (vw_writers st)), Hkeys, length_fmap. }
  unfold store_frames. rewrite <- Hkeys.
  set (vws1 := if any_None (vw_writers st)
               then zip_with (fun kv f => (fst kv, Some (fresh_writer args ep_name (fst kv) f)))
                      (vw_writers st) frames
               else vw_writers st).
  assert (exists w1, (if any_None (vw_writers st)
                      then init_writers args ep_name (zip (keys (vw_writers st)) frames)
                             (vw_writers st)
                      else ret (vw_writers st)) w = (Ok vws1, w1)) as (w1 & Hinit).
  { unfold vws1. destruct (any_None (vw_writers st)); [|by eexists].
    destruct (init_writers_content args ep_name (vw_writers st) frames [] w Hlen')
      as (w1 & H1); [by rewrite Hkeys|].
    by exists w1. }
  assert (keys vws1 = keys (vw_writers st)) as Hkeys1.
  { unfold vws1. destruct (any_None (vw_writers st)); [|done].
    by apply (keys_zip_with (fun kv f => Some (fresh_writer args ep_name (fst kv) f))). }
  assert (Forall (fun kv => is_Some (snd kv)) vws1) as Hsome.
  { unfold vws1. destruct (any_None (vw_writers st)) eqn:Hany.
    - apply Forall_forall. intros kv Hkv. apply list_elem_of_lookup in Hkv as [j Hj].
      rewrite lookup_zip_with in Hj.
      destruct (vw_writers st !! j) as [kv0|]; [|done]. simpl in Hj.
      destruct (frames !! j) as [f|]; [|done]. simpl in Hj. injection Hj as <-. by eexists.
    - eapply Forall_impl; [eapply any_None_false; eauto|].
      intros kv (vw & -> & _). by eexists. }
  destruct (write_frames_content vws1 frames [] w1) as (w2 & Hwrite);
    [by rewrite length_zip_with_l_eq || (unfold vws1; destruct (any_None _);
       [by rewrite length_zip_with_l_eq|done])
    |by rewrite Hkeys1, Hkeys|done|].
  simpl in Hwrite. rewrite Hkeys1 in Hwrite.
  rewrite (bind_Ok _ _ _ _ _ Hinit), (bind_Ok _ _ _ _ _ Hwrite).
  unfold bind at 1. unfold observe at 1. cbn [frame_count].
  destruct (min_frames args <=? frame_count st + 1).
  { unfold bind, emit, ret. by intros [= <- <- <-]. }
  destruct (fps args =? 0); [done|].
  unfold bind, observe, ret. destruct (Qpos _); unfold emit; by intros [= <- <- <-].
Qed.

(** X11.  In a pass of the loop in which every camera delivers, the frame read
    from each camera -- the [j]-th read of the pass, from the device of the
    [j]-th reader -- is appended to the video of that camera's name, and
    nothing else is: no frame ends up in another camera's video.  The pass
    that finds no writer yet opens the video with the frame rate of the
    arguments and the size (width, height) of that first frame, whose shape
    is (height, width, channels). *)
Theorem frames_reach_their_camera h args cam_specs cam_readers ep_name start_t st w
  flow st' w' :
  cameras_ready cam_specs cam_readers -> episode_inv cam_specs ep_name st ->
  tick h args cam_specs cam_readers ep_name start_t st w = (Ok (flow, st'), w') ->
  flow <> FlowContinue ->
  forall j name rd, cam_readers !! j = Some (name, rd) ->
    exists f vw,
      cap_read h (calls w + 1 + j) (index rd) = Some f /\
      dict_get name (vw_writers st') = Some (Some vw) /\
      vw_frames vw = frames_of name st ++ [f] /\
      vw_path vw = video_path name ep_name /\
      (dict_get name (vw_writers st) = Some None ->
       vw_fps vw = fps args /\
       vw_size vw = (let '(height, width, _) := shape f in (width, height))).
Proof.
  intros (Hnd & Hkeys & Hop) Hinv Htick Hflow j name rd Hj.
  unfold tick in Htick. unfold bind at 1 in Htick. unfold observe at 1 in Htick.
  unfold bind at 1 in Htick.
  destruct (read_all h cam_readers [] (tick_calls w)) as [[[success frames]|e|] w1] eqn:Hread;
    [|done..].
  destruct success; simpl in Htick; [|by injection Htick as <- _ _].
  apply read_all_content in Hread as (new & -> & Hlen & Hnew); [|done].
  simpl in Htick. specialize (Hnew j name rd Hj).
  replace (calls (tick_calls w) + j)%nat with (calls w + 1 + j)%nat in Hnew by (simpl; lia).
  assert (length cam_readers = length cam_specs) as Hlen2.
  { unfold keys in Hkeys.
    by rewrite <- (length_fmap fst cam_readers), Hkeys, length_fmap. }
  destruct (lookup_lt_is_Some_2 new j) as [f Hf].
  { rewrite Hlen. by eapply lookup_lt_Some. }
  rewrite Hf in Hnew.
  pose proof Hinv as (Hkeys0 & Hcount & Hsync & Hrows).
  apply store_frames_writers in Htick as Hw; [|done|congruence|done].
  assert (exists v0, vw_writers st !! j = Some (name, v0)) as (v0 & Hv0).
  { assert (keys (vw_writers st) !! j = Some name) as Hk.
    { rewrite Hkeys0, <- Hkeys. unfold keys. by rewrite list_lookup_fmap, Hj. }
    unfold keys in Hk. rewrite list_lookup_fmap in Hk.
    destruct (vw_writers st !! j) as [[k v]|]; [|done]. injection Hk as ->. by eexists. }
  assert (length new = length (vw_writers st)) as Hlen3.
  { unfold keys in Hkeys0.
    by rewrite Hlen, Hlen2, <- (length_fmap fst (vw_writers st)), Hkeys0, length_fmap. }
  assert (NoDup (keys (vw_writers st))) as Hnd0 by (by rewrite Hkeys0).
  assert (NoDup (keys (vw_writers st'))) as Hnd'.
  { rewrite Hw.
    rewrite (keys_zip_with (fun kv f => with_frame f <$> snd kv)).
    - destruct (any_None (vw_writers st)); [|done].
      by rewrite (keys_zip_with (fun kv f => Some (fresh_writer args ep_name (fst kv) f))).
    - destruct (any_None (vw_writers st)); [|done]. by rewrite length_zip_with_l_eq. }
  exists f. destruct (any_None (vw_writers st)) eqn:Hany.
  - exists (with_frame f (fresh_writer args ep_name name f)).
    assert (frames_of name st = []) as Hnone.
    { unfold frames_of. rewrite (dict_get_lookup _ _ _ _ Hnd0 Hv0).
      destruct v0 as [vw0|]; [|done].
      pose proof (any_None_true _ _ _ Hany Hsync) as Hn.
      eapply Forall_lookup_1 in Hsync; [|exact Hv0].
      destruct Hsync as (vw & [= <-] & _ & Hl). rewrite Hn in Hl.
      by apply nil_length_inv. }
    split_and!; [done| | | |].
    + eapply dict_get_lookup; [done|]. rewrite Hw, !lookup_zip_with, Hv0, Hf. done.
    + rewrite Hnone. unfold fresh_writer. by destruct (shape f) as [[? ?] ?].
    + unfold fresh_writer. by destruct (shape f) as [[? ?] ?].
    + intros _. unfold fresh_writer. by destruct (shape f) as [[? ?] ?].
  - pose proof (any_None_false _ _ _ Hany Hsync) as Hhas.
    eapply Forall_lookup_1 in Hhas; [|exact Hv0].
    destruct Hhas as (vw0 & Hvw0 & Hpath & _). simpl in Hvw0, Hpath. subst v0.
    exists (with_frame f vw0).
    pose proof (dict_get_lookup _ _ _ _ Hnd0 Hv0) as Hget.
    split_and!; [done| | |done|].
    + eapply dict_get_lookup; [done|]. rewrite Hw, lookup_zip_with, Hv0, Hf. done.
    + unfold frames_of. by rewrite Hget.
    + by rewrite Hget.
Qed.

Lemma frames_reach_their_camera_witness :
  exists f vw,
    cap_read steady_host (calls empty_world + 1 + 1) 2 = Some f /\
    dict_get "wrist"
      (vw_writers (snd (default (FlowNext, new_episode two_specs)
                          (match fst (tick steady_host short_args two_specs two_readers
                                        "episode_000000" 0 (new_episode two_specs)
                                        empty_world)
                           with Ok x => Some x | _ => None end))))
    = Some (Some vw) /\
    vw_frames vw = frames_of "wrist" (new_episode two_specs) ++ [f] /\
    vw_path vw = video_path "wrist" "episode_000000" /\
    (dict_get "wrist" (vw_writers (new_episode two_specs)) = Some None ->
     vw_fps vw = fps short_args /\
     vw_size vw = (let '(height, width, _) := shape f in (width, height))).
Proof.
  destruct (tick steady_host short_args two_specs two_readers "episode_000000" 0
              (new_episode two_specs) empty_world) as [r w'] eqn:Htick.
  assert (exists st', r = Ok (FlowNext, st')) as (st' & ->).
  { assert (match fst (tick steady_host short_args two_specs two_readers "episode_000000" 0
                         (new_episode two_specs) empty_world)
            with Ok (FlowNext, _) => true | _ => false end = true) as H
      by (vm_compute; reflexivity).
    rewrite Htick in H. simpl in H.
    destruct r as [[[] st']| |]; try discriminate H. exists st'. reflexivity. }
  simpl.
  apply (frames_reach_their_camera steady_host short_args two_specs two_readers
           "episode_000000" 0 (new_episode two_specs) empty_world FlowNext st' w'
           two_cameras_ready (new_episode_inv two_specs "episode_000000") Htick
           ltac:(discriminate) 1%nat "wrist"
           {| index := 2; width := 640; height := 480; cap := Some 2 |}).
  reflexivity.
Defined.
